(** * thorgo/rope: a skip list indexed by identifier and by position

    Shallow embedding of [rope.go], [types.go] and [util.go], followed by the
    representation invariant of the skip list and the properties of the
    public operations.

    Conventions of the embedding.
    - Go's [int] is taken to be 64 bits wide: a value is a [Z] in
      [-2^63, 2^63) and every addition and subtraction on lengths is wrapped
      by [wrap].  Slice lengths and level indexes are [nat].
    - A [*ropeNode] is an [option ptr]: [None] is [nil], [Some a] is the
      address of cell [a] of the heap.  The node [head] embedded in
      [ropeImpl] is cell [headp = 0]; a freshly allocated node is appended
      to the heap.
    - A computation ends in [Ret v], in [Panic] (a nil dereference or an
      index out of range) or in [Timeout] (a loop did not finish within its
      fuel).
    - [randomHeight] reads one random 32-bit word; the word is an argument
      of [Splice].
    - The capacity of a slice is not modelled: a recycled node gets
      [height] level slots, every one of which [splice] overwrites. *)

From stdpp Require Import numbers gmap list.

Open Scope Z_scope.

(** ** Machine integers *)

Definition int_min : Z := - 2 ^ 63.
Definition int_max : Z := 2 ^ 63 - 1.

Definition wrap (z : Z) : Z := (z + 2 ^ 63) `mod` 2 ^ 64 - 2 ^ 63.
Definition iadd (a b : Z) : Z := wrap (a + b).
Definition isub (a b : Z) : Z := wrap (a - b).
Definition ineg (a : Z) : Z := wrap (- a).

(** ** Outcomes of a computation *)

Inductive res (A : Type) : Type :=
| Ret (a : A)
| Panic
| Timeout.
Arguments Ret {A} a.
Arguments Panic {A}.
Arguments Timeout {A}.

Definition bind {A B : Type} (m : res A) (k : A → res B) : res B :=
  match m with
  | Ret a => k a
  | Panic => Panic
  | Timeout => Timeout
  end.

Notation "'do' x <- m ; k" := (bind m (λ x, k))
  (at level 10, x name, m at level 100, k at level 200,
   format "'[v' 'do'  x  <-  m ;  '/' k ']'").
Notation "'do' ' p <- m ; k" := (bind m (λ x, match x with p => k end))
  (at level 10, p pattern, m at level 100, k at level 200,
   format "'[v' 'do'  ' p  <-  m ;  '/' k ']'").

(** ** Constants *)

Definition poolSize : nat := 8.
Definition maxHeight : nat := 32.

(** [bits.TrailingZeros32]: the number of trailing zero bits, 32 for 0. *)
Fixpoint trailing_zeros (n : nat) (w : Z) : nat :=
  match n with
  | O => O
  | S n' => if Z.testbit w 0 then O else S (trailing_zeros n' (Z.shiftr w 1))
  end.

Definition TrailingZeros32 (w : Z) : nat := trailing_zeros 32 (w `mod` 2 ^ 32).

Definition randomHeight (w : Z) : nat :=
  let h := (1 + TrailingZeros32 w)%nat in
  if decide (maxHeight < h)%nat then maxHeight else h.

(** ** Types *)

Abbreviation ptr := nat (only parsing).
Definition headp : ptr := 0%nat.

Inductive error : Type := ErrBadAnchor | ErrIdExists | ErrNegativeLength.

Record ropeLevel : Type := mkLevel {
  l_next : option ptr;
  l_prev : option ptr;
  l_subtreesize : Z
}.

Record iterRef : Type := mkIterRef {
  ir_count : Z;
  ir_node : option ptr
}.

Record ropeSeek : Type := mkSeek {
  sk_node : option ptr;
  sk_sub : Z
}.

Definition zeroLevel : ropeLevel := mkLevel None None 0.

Definition set_next (x : option ptr) (l : ropeLevel) : ropeLevel :=
  mkLevel x (l_prev l) (l_subtreesize l).
Definition set_prev (x : option ptr) (l : ropeLevel) : ropeLevel :=
  mkLevel (l_next l) x (l_subtreesize l).
Definition set_sub (x : Z) (l : ropeLevel) : ropeLevel :=
  mkLevel (l_next l) (l_prev l) x.
Definition add_sub (x : Z) (l : ropeLevel) : ropeLevel :=
  set_sub (iadd (l_subtreesize l) x) l.
Definition sub_sub (x : Z) (l : ropeLevel) : ropeLevel :=
  set_sub (isub (l_subtreesize l) x) l.

(** The type parameters of [Rope[Id, T]]: an identifier type with a
    decidable equality ([comparable]), the payload type, their zero values,
    and the [Sizer] capability of a payload ([None] when the value does not
    implement [Sizer]). *)
Class RopeParams : Type := {
  Id : Type;
  Id_eq_dec :: EqDecision Id;
  Id_countable :: Countable Id;
  zeroId : Id;
  T : Type;
  zeroT : T;
  sizer : T → option Z
}.

Section Rope.

Context `{RopeParams}.

Record DataLen : Type := mkDataLen {
  dl_Len : Z;
  dl_Data : T
}.

Record ropeNode : Type := mkNode {
  n_id : Id;
  n_dl : DataLen;
  n_levels : list ropeLevel;
  n_iterRef : option iterRef
}.

Record Removed : Type := mkRemoved {
  rm_Id : Id;
  rm_Len : Z;
  rm_Data : T
}.

Record Info : Type := mkInfo {
  in_Id : Id;
  in_Next : Id;
  in_Prev : Id;
  in_DataLen : DataLen
}.

Record ropeImpl : Type := mkRope {
  r_heap : list ropeNode;
  r_len : Z;
  r_byId : gmap Id ptr;
  r_height : nat;
  r_nodePool : list ptr;
  r_lastId : Id
}.

Definition with_heap (h : list ropeNode) (r : ropeImpl) : ropeImpl :=
  mkRope h (r_len r) (r_byId r) (r_height r) (r_nodePool r) (r_lastId r).
Definition with_len (n : Z) (r : ropeImpl) : ropeImpl :=
  mkRope (r_heap r) n (r_byId r) (r_height r) (r_nodePool r) (r_lastId r).
Definition with_byId (m : gmap Id ptr) (r : ropeImpl) : ropeImpl :=
  mkRope (r_heap r) (r_len r) m (r_height r) (r_nodePool r) (r_lastId r).
Definition with_height (n : nat) (r : ropeImpl) : ropeImpl :=
  mkRope (r_heap r) (r_len r) (r_byId r) n (r_nodePool r) (r_lastId r).
Definition with_pool (p : list ptr) (r : ropeImpl) : ropeImpl :=
  mkRope (r_heap r) (r_len r) (r_byId r) (r_height r) p (r_lastId r).
Definition with_lastId (i : Id) (r : ropeImpl) : ropeImpl :=
  mkRope (r_heap r) (r_len r) (r_byId r) (r_height r) (r_nodePool r) i.

Definition set_levels (ls : list ropeLevel) (n : ropeNode) : ropeNode :=
  mkNode (n_id n) (n_dl n) ls (n_iterRef n).
Definition set_iterRef (ir : option iterRef) (n : ropeNode) : ropeNode :=
  mkNode (n_id n) (n_dl n) (n_levels n) ir.

Definition zeroDataLen : DataLen := mkDataLen 0 zeroT.
Definition zeroInfo : Info := mkInfo zeroId zeroId zeroId zeroDataLen.

(** ** Heap access *)

Definition deref (h : list ropeNode) (p : option ptr) : res ropeNode :=
  match p with
  | None => Panic
  | Some a => match h !! a with Some n => Ret n | None => Panic end
  end.

Definition level (n : ropeNode) (j : nat) : res ropeLevel :=
  match n_levels n !! j with Some l => Ret l | None => Panic end.

(** [len(s) - 1] as an index: [None] stands for -1. *)
Definition last_index (n : nat) : option nat :=
  match n with O => None | S k => Some k end.

Definition level_at (n : ropeNode) (j : option nat) : res ropeLevel :=
  match j with Some j => level n j | None => Panic end.

(** [p.levels[j] = f (p.levels[j])] *)
Definition upd_level (h : list ropeNode) (p : option ptr) (j : nat)
    (f : ropeLevel → ropeLevel) : res (list ropeNode) :=
  do n <- deref h p;
  do l <- level n j;
  match p with
  | Some a => Ret (<[a := set_levels (<[j := f l]> (n_levels n)) n]> h)
  | None => Panic
  end.

Definition seek_at (seek : list ropeSeek) (j : nat) : res ropeSeek :=
  match seek !! j with Some s => Ret s | None => Panic end.

Definition fuel (r : ropeImpl) : nat := S (length (r_heap r)).

(** ** Construction and the O(1) accessors *)

Definition NewRoot (root : T) : ropeImpl :=
  mkRope
    [mkNode zeroId (mkDataLen 0 root) [mkLevel None (Some headp) 0] None]
    0 {[ zeroId := headp ]} 1 [] zeroId.

Definition New : ropeImpl := NewRoot zeroT.

Definition Len (r : ropeImpl) : Z := r_len r.

Definition Count (r : ropeImpl) : Z := Z.of_nat (size (r_byId r)) - 1.

Definition LastId (r : ropeImpl) : Id := r_lastId r.

(** ** Find *)

Fixpoint Find_loop (n : nat) (h : list ropeNode) (node : option ptr) (pos : Z)
    : res Z :=
  if decide (node = Some headp) then Ret pos else
  match n with
  | O => Timeout
  | S n' =>
    do nd <- deref h node;
    let link := last_index (length (n_levels nd)) in
    do l <- level_at nd link;
    let node := l_prev l in
    do nd' <- deref h node;
    do l' <- level_at nd' link;
    Find_loop n' h node (iadd pos (l_subtreesize l'))
  end.

Definition Find (r : ropeImpl) (id : Id) : res Z :=
  match r_byId r !! id with
  | None => Ret (-1)
  | Some e =>
    do pos <- Find_loop (fuel r) (r_heap r) (Some e) 0;
    do en <- deref (r_heap r) (Some e);
    Ret (iadd pos (dl_Len (n_dl en)))
  end.

(** ** Info *)

Definition Info_of (r : ropeImpl) (id : Id) : res Info :=
  match r_byId r !! id with
  | None => Ret zeroInfo
  | Some p =>
    do node <- deref (r_heap r) (Some p);
    do ol <- level node 0;
    do pn <- deref (r_heap r) (l_prev ol);
    match l_next ol with
    | None => Ret (mkInfo (n_id node) zeroId (n_id pn) (n_dl node))
    | Some q =>
      do nn <- deref (r_heap r) (Some q);
      Ret (mkInfo (n_id node) (n_id nn) (n_id pn) (n_dl node))
    end
  end.

(** ** ByPosition *)

(** The first inner loop; the boolean is [true] when it left through
    [continue outer]. *)
Fixpoint bp_advance (n : nat) (h : list ropeNode) (lv : nat) (e : ptr)
    (position : Z) : res (bool * ptr * Z) :=
  match n with
  | O => Timeout
  | S n' =>
    do en <- deref h (Some e);
    do l <- level en lv;
    if decide (position > l_subtreesize l) then
      let position := isub position (l_subtreesize l) in
      match l_next l with
      | None => Ret (true, e, position)
      | Some next => bp_advance n' h lv next position
      end
    else Ret (false, e, position)
  end.

(** The second inner loop, entered when [biasAfter] holds. *)
Fixpoint bp_bias (n : nat) (h : list ropeNode) (lv : nat) (e : ptr)
    (position : Z) : res (ptr * Z) :=
  match n with
  | O => Timeout
  | S n' =>
    do en <- deref h (Some e);
    do l <- level en lv;
    if decide (position >= l_subtreesize l) then
      match l_next l with
      | None => Ret (e, position)
      | Some next => bp_bias n' h lv next (isub position (l_subtreesize l))
      end
    else Ret (e, position)
  end.

(** The outer loop, [lv] running from [n - 1] down to 0. *)
Fixpoint bp_descend (n : nat) (fl : nat) (h : list ropeNode) (biasAfter : bool)
    (e : ptr) (position : Z) : res (ptr * Z) :=
  match n with
  | O => Ret (e, position)
  | S lv =>
    do '(skip, e, position) <- bp_advance fl h lv e position;
    if skip then bp_descend lv fl h biasAfter e position
    else if biasAfter then
      do '(e, position) <- bp_bias fl h lv e position;
      bp_descend lv fl h biasAfter e position
    else bp_descend lv fl h biasAfter e position
  end.

Definition ByPosition (r : ropeImpl) (position : Z) (biasAfter : bool)
    : res (Id * Z) :=
  if decide (position < 0 ∨ (biasAfter = false ∧ position = 0)) then
    Ret (zeroId, 0)
  else if decide (position > r_len r ∨ (biasAfter = true ∧ position = r_len r)) then
    Ret (r_lastId r, 0)
  else
    do '(e, position) <-
      bp_descend (r_height r) (fuel r) (r_heap r) biasAfter headp position;
    do en <- deref (r_heap r) (Some e);
    Ret (n_id en, isub (dl_Len (n_dl en)) position).

(** ** splice: the seek phase *)

(** [for i < nl { seek[i] = cseek; i++ }], run [n = nl - i] times. *)
Fixpoint seek_fill (n : nat) (seek : list ropeSeek) (i : nat) (c : ropeSeek)
    : res (list ropeSeek) :=
  match n with
  | O => Ret seek
  | S n' =>
    if decide (i < length seek)%nat then seek_fill n' (<[i := c]> seek) (S i) c
    else Panic
  end.

Fixpoint seek_loop (n : nat) (r : ropeImpl) (seek : list ropeSeek)
    (cseek : ropeSeek) (i : nat) : res (list ropeSeek * ropeSeek * nat) :=
  match n with
  | O => Timeout
  | S n' =>
    do nd <- deref (r_heap r) (sk_node cseek);
    let nl := length (n_levels nd) in
    do seek <- seek_fill (nl - i) seek i cseek;
    let i := (i `max` nl)%nat in
    if decide (sk_node cseek = Some headp ∨ i = r_height r) then
      Ret (seek, cseek, i)
    else
      let link := last_index i in
      do l <- level_at nd link;
      let node := l_prev l in
      do nd' <- deref (r_heap r) node;
      do l' <- level_at nd' link;
      seek_loop n' r seek (mkSeek node (iadd (sk_sub cseek) (l_subtreesize l'))) i
  end.

(** ** splice: the delete phase *)

Definition returnToPool (r : ropeImpl) (e : ptr) : res ropeImpl :=
  do en <- deref (r_heap r) (Some e);
  if decide (length (r_nodePool r) = poolSize ∨ n_iterRef en ≠ None) then Ret r
  else
    let en' :=
      mkNode zeroId zeroDataLen
        (replicate (length (n_levels en)) zeroLevel) (n_iterRef en) in
    Ret (with_pool (r_nodePool r ++ [e]) (with_heap (<[e := en']> (r_heap r)) r)).

(** One round of [for j := 0; j < r.height; j++ { ... }] for the entry [e]
    being unlinked. *)
Definition delete_level (j : nat) (h : list ropeNode) (seek : list ropeSeek)
    (e : ptr) : res (list ropeNode) :=
  do sk <- seek_at seek j;
  let node := sk_node sk in
  do nn <- deref h node;
  do nl <- level nn j;
  do en <- deref h (Some e);
  if decide (length (n_levels en) ≤ j)%nat then
    upd_level h node j (sub_sub (dl_Len (n_dl en)))
  else
    do el <- level en j;
    do h1 <- upd_level h node j
               (add_sub (isub (l_subtreesize el) (dl_Len (n_dl en))));
    let next := l_next el in
    do h2 <- match next with
             | None => Ret h1
             | Some _ => upd_level h1 next j (set_prev node)
             end;
    upd_level h2 node j (set_next next).

Fixpoint delete_levels (n : nat) (j : nat) (h : list ropeNode)
    (seek : list ropeSeek) (e : ptr) : res (list ropeNode) :=
  match n with
  | O => Ret h
  | S n' =>
    do h' <- delete_level j h seek e;
    delete_levels n' (S j) h' seek e
  end.

(** The body of the delete loop for the successor [e] of the anchor: the
    record appended to [removed], and the rope once [e] is unlinked. *)
Definition delete_entry (r : ropeImpl) (seek : list ropeSeek) (e : ptr)
    : res (ropeImpl * Id * Removed) :=
  do en <- deref (r_heap r) (Some e);
  let deletedId := n_id en in
  let rec := mkRemoved (n_id en) (dl_Len (n_dl en)) (dl_Data (n_dl en)) in
  do h1 <- match n_iterRef en with
           | None => Ret (r_heap r)
           | Some ir =>
             do el <- level en 0;
             Ret (<[e := set_iterRef
                           (Some (mkIterRef (ir_count ir) (l_prev el))) en]>
                    (r_heap r))
           end;
  let r := with_heap h1 r in
  let r := with_byId (delete (n_id en) (r_byId r)) r in
  let r := with_len (isub (r_len r) (dl_Len (n_dl en))) r in
  do h2 <- delete_levels (r_height r) 0 (r_heap r) seek e;
  let r := with_heap h2 r in
  do r <- returnToPool r e;
  Ret (r, deletedId, rec).

Fixpoint delete_loop (n : nat) (r : ropeImpl) (after : ptr)
    (seek : list ropeSeek) (deleteUntil : Id) (removed : list Removed)
    : res (ropeImpl * list Removed) :=
  match n with
  | O => Timeout
  | S n' =>
    do an <- deref (r_heap r) (Some after);
    do al <- level an 0;
    match l_next al with
    | None => Ret (with_lastId (n_id an) r, removed)
    | Some e =>
      do '(r, deletedId, rec) <- delete_entry r seek e;
      let removed := removed ++ [rec] in
      if decide (deletedId = deleteUntil) then Ret (r, removed)
      else delete_loop n' r after seek deleteUntil removed
    end
  end.

Definition delete_phase (r : ropeImpl) (after : ptr) (seek : list ropeSeek)
    (deleteUntil : Id) : res (ropeImpl * list Removed) :=
  do '(r, removed) <- delete_loop (fuel r) r after seek deleteUntil [];
  match r_byId r !! r_lastId r with
  | None =>
    do an <- deref (r_heap r) (Some after);
    Ret (with_lastId (n_id an) r, removed)
  | Some _ => Ret (r, removed)
  end.

(** ** splice: the insert phase *)

(** The walk to the head inside the branch that grows the head. *)
Fixpoint climb (n : nat) (h : list ropeNode) (link : option nat)
    (cseek : ropeSeek) : res ropeSeek :=
  if decide (sk_node cseek = Some headp) then Ret cseek else
  match n with
  | O => Timeout
  | S n' =>
    do cn <- deref h (sk_node cseek);
    do l <- level_at cn link;
    let node := l_prev l in
    do nd' <- deref h node;
    do l' <- level_at nd' link;
    climb n' h link (mkSeek node (iadd (sk_sub cseek) (l_subtreesize l')))
  end.

(** One round of [for i = 0; i < height; i++ { ... }]. *)
Definition insert_level (fl : nat) (i : nat) (r : ropeImpl)
    (seek : list ropeSeek) (cseek : ropeSeek) (newNode : ptr) (length : Z)
    : res (ropeImpl * ropeSeek) :=
  if decide (i < r_height r)%nat then
    do sk <- seek_at seek i;
    let n := sk_node sk in
    do nn <- deref (r_heap r) n;
    do nl <- level nn i;
    let next := l_next nl in
    do h1 <- match next with
             | None => Ret (r_heap r)
             | Some _ => upd_level (r_heap r) next i (set_prev (Some newNode))
             end;
    let st := sk_sub sk in
    do nn1 <- deref h1 n;
    do nl1 <- level nn1 i;
    do h2 <- upd_level h1 (Some newNode) i
               (λ _, mkLevel next n (isub (iadd length (l_subtreesize nl1)) st));
    do h3 <- upd_level h2 n i (set_next (Some newNode));
    do h4 <- upd_level h3 n i (set_sub st);
    Ret (with_heap h4 r, cseek)
  else
    do cn <- deref (r_heap r) (sk_node cseek);
    let link := last_index (List.length (n_levels cn)) in
    do cseek <- climb fl (r_heap r) link cseek;
    do hn <- deref (r_heap r) (Some headp);
    let h1 :=
      <[headp := set_levels
                   (n_levels hn ++ [mkLevel (Some newNode) (Some headp) (sk_sub cseek)])
                   hn]> (r_heap r) in
    let r := with_height (S (r_height r)) (with_heap h1 r) in
    do h2 <- upd_level (r_heap r) (Some newNode) i
               (λ _, mkLevel None (Some headp)
                       (iadd (isub (r_len r) (sk_sub cseek)) length));
    Ret (with_heap h2 r, cseek).

Fixpoint insert_levels (n : nat) (fl : nat) (i : nat) (r : ropeImpl)
    (seek : list ropeSeek) (cseek : ropeSeek) (newNode : ptr) (length : Z)
    : res (ropeImpl * ropeSeek) :=
  match n with
  | O => Ret (r, cseek)
  | S n' =>
    do '(r, cseek) <- insert_level fl i r seek cseek newNode length;
    insert_levels n' fl (S i) r seek cseek newNode length
  end.

(** [for ; i < len(seek); i++ { seek[i].node.levels[i].subtreesize += length }],
    run [n = len(seek) - i] times. *)
Fixpoint bump_levels (n : nat) (i : nat) (h : list ropeNode)
    (seek : list ropeSeek) (length : Z) : res (list ropeNode) :=
  match n with
  | O => Ret h
  | S n' =>
    do sk <- seek_at seek i;
    do h' <- upd_level h (sk_node sk) i (add_sub length);
    bump_levels n' (S i) h' seek length
  end.

(** Taking the new node from the pool, or from the allocator. *)
Definition take_node (r : ropeImpl) (insertId : Id) (length : Z) (data : T)
    (height : nat) : res (ropeImpl * ptr) :=
  match last (r_nodePool r) with
  | Some newNode =>
    let idx := (List.length (r_nodePool r) - 1)%nat in
    do nn <- deref (r_heap r) (Some newNode);
    let nn' :=
      mkNode insertId (mkDataLen length data)
        (take height (n_levels nn ++ replicate height zeroLevel))
        (n_iterRef nn) in
    Ret (with_pool (take idx (r_nodePool r))
           (with_heap (<[newNode := nn']> (r_heap r)) r), newNode)
  | None =>
    let newNode := List.length (r_heap r) in
    let nn :=
      mkNode insertId (mkDataLen length data) (replicate height zeroLevel) None in
    Ret (with_heap (r_heap r ++ [nn]) r, newNode)
  end.

Definition insert_phase (r : ropeImpl) (after : ptr) (seek : list ropeSeek)
    (cseek : ropeSeek) (insertId : Id) (length : Z) (data : T) (rnd : Z)
    : res ropeImpl :=
  let height := randomHeight rnd in
  do '(r, newNode) <- take_node r insertId length data height;
  let r := with_byId (<[insertId := newNode]> (r_byId r)) r in
  do '(r, cseek) <- insert_levels height (fuel r) 0 r seek cseek newNode length;
  do h <- bump_levels (List.length seek - height) height (r_heap r) seek length;
  let r := with_heap h r in
  let r := with_len (iadd (r_len r) length) r in
  if decide (after = headp) then
    if decide (r_len r = length) then Ret (with_lastId insertId r) else Ret r
  else
    do an <- deref (r_heap r) (Some after);
    if decide (r_lastId r = n_id an) then Ret (with_lastId insertId r) else Ret r.

(** ** splice and Splice *)

Definition splice (r : ropeImpl) (after : ptr) (doDelete : bool)
    (deleteUntil : Id) (doInsert : bool) (insertId : Id) (length : Z)
    (data : T) (rnd : Z) : res (ropeImpl * list Removed * option error) :=
  if decide (maxHeight < r_height r)%nat then Panic else
  let seek := replicate (r_height r) (mkSeek None 0) in
  do an <- deref (r_heap r) (Some after);
  do '(seek, cseek, i) <-
    seek_loop (fuel r) r seek (mkSeek (Some after) (dl_Len (n_dl an))) 0;
  do '(r, removed) <-
    (if doDelete then delete_phase r after seek deleteUntil else Ret (r, []));
  do r <-
    (if doInsert then insert_phase r after seek cseek insertId length data rnd
     else Ret r);
  Ret (r, removed, None).

(** [if s, ok := any(data).(Sizer); ok { length = s.Len() }], from
    [length = 0]. *)
Definition data_len (data : T) : Z :=
  match sizer data with Some n => wrap n | None => 0 end.

Definition Splice (r : ropeImpl) (afterId : Id) (deleteUntilId : option Id)
    (insertId : option Id) (data : T) (rnd : Z)
    : res (ropeImpl * list Removed * option error) :=
  let afterNode :=
    match r_byId r !! afterId with
    | Some p => Some p
    | None => if decide (afterId = zeroId) then Some headp else None
    end in
  match afterNode with
  | None => Ret (r, [], Some ErrBadAnchor)
  | Some afterNode =>
    let '(doDelete, deleteUntil) :=
      match deleteUntilId with
      | Some d => if decide (d ≠ afterId) then (true, d) else (false, zeroId)
      | None => (false, zeroId)
      end in
    match insertId with
    | Some iid =>
      if decide (is_Some (r_byId r !! iid)) then Ret (r, [], Some ErrIdExists)
      else
        let length := data_len data in
        if decide (length < 0) then Ret (r, [], Some ErrNegativeLength)
        else splice r afterNode doDelete deleteUntil true iid length data rnd
    | None => splice r afterNode doDelete deleteUntil false zeroId 0 data rnd
    end
  end.

Definition Insert (r : ropeImpl) (afterId newId : Id) (data : T) (rnd : Z)
    : res (ropeImpl * option error) :=
  do '(r, _, err) <- Splice r afterId None (Some newId) data rnd;
  Ret (r, err).

Definition Delete (r : ropeImpl) (afterId untilId : Id) (rnd : Z)
    : res (ropeImpl * list Removed * option error) :=
  Splice r afterId (Some untilId) None zeroT rnd.

(** ** Between, Compare, Less *)

Definition Between (r : ropeImpl) (afterA afterB : Id) : res (Z * bool) :=
  do posA <- Find r afterA;
  if decide (posA < 0) then Ret (0, false) else
  do posB <- Find r afterB;
  if decide (posB < 0) then Ret (0, false) else
  Ret (isub posB posA, true).

(** [for i < ll { target[i] = curr; i++; if i == r.height { return } }],
    run at most [n = ll - i] times; the boolean is [true] on [return]. *)
Fixpoint rseek_fill (n : nat) (height : nat) (target : list (option ptr))
    (i : nat) (curr : option ptr) : res (bool * list (option ptr) * nat) :=
  match n with
  | O => Ret (false, target, i)
  | S n' =>
    if decide (i < List.length target)%nat then
      let target := <[i := curr]> target in
      if decide (S i = height) then Ret (true, target, S i)
      else rseek_fill n' height target (S i) curr
    else Panic
  end.

Fixpoint rseek_loop (n : nat) (r : ropeImpl) (curr : option ptr)
    (target : list (option ptr)) (i : nat) : res (list (option ptr)) :=
  match n with
  | O => Timeout
  | S n' =>
    do cn <- deref (r_heap r) curr;
    let ll := List.length (n_levels cn) in
    do '(done, target, i) <- rseek_fill (ll - i) (r_height r) target i curr;
    if done then Ret target
    else
      do l <- level_at cn (last_index ll);
      rseek_loop n' r (l_prev l) target i
  end.

Definition rseekNodes (r : ropeImpl) (curr : option ptr)
    (target : list (option ptr)) : res (list (option ptr)) :=
  rseek_loop (fuel r) r curr target 0.

Definition array_at (a : list (option ptr)) (i : nat) : res (option ptr) :=
  match a !! i with Some x => Ret x | None => Panic end.

(** [for i < ll { if curr == anodes[i] { return }; i++ }], run at most
    [n = ll - i] times; the boolean is [true] on [return]. *)
Fixpoint cmp_scan (n : nat) (anodes : list (option ptr)) (curr : option ptr)
    (i : nat) : res (bool * nat) :=
  match n with
  | O => Ret (false, i)
  | S n' =>
    do x <- array_at anodes i;
    if decide (curr = x) then Ret (true, i)
    else cmp_scan n' anodes curr (S i)
  end.

Fixpoint cmp_loop (n : nat) (h : list ropeNode) (anodes : list (option ptr))
    (curr : option ptr) (i : nat) (cmp : Z) : res Z :=
  match n with
  | O => Timeout
  | S n' =>
    do cn <- deref h curr;
    let ll := List.length (n_levels cn) in
    do '(found, i) <- cmp_scan (ll - i) anodes curr i;
    if found then Ret cmp
    else
      let ll := last_index ll in
      do l <- level_at cn ll;
      let curr := l_prev l in
      do x <- match ll with Some k => array_at anodes k | None => Panic end;
      if decide (curr = x) then Ret (ineg cmp)
      else if decide (curr = Some headp) then Ret cmp
      else cmp_loop n' h anodes curr i cmp
  end.

Definition Compare (r : ropeImpl) (a b : Id) : res (Z * bool) :=
  if decide (a = b) then
    Ret (0, bool_decide (is_Some (r_byId r !! a)))
  else
    match r_byId r !! a, r_byId r !! b with
    | Some anode, Some bnode =>
      do an <- deref (r_heap r) (Some anode);
      do bn <- deref (r_heap r) (Some bnode);
      let '(cmp, anode, bnode) :=
        if decide (List.length (n_levels an) < List.length (n_levels bn))%nat
        then (-1, bnode, anode) else (1, anode, bnode) in
      do anodes <- rseekNodes r (Some anode) (replicate maxHeight None);
      do c <- cmp_loop (fuel r) (r_heap r) anodes (Some bnode) 1 cmp;
      Ret (c, true)
    | _, _ => Ret (0, false)
    end.

Definition Less (r : ropeImpl) (a b : Id) : res bool :=
  do '(c, _) <- Compare r a b;
  Ret (bool_decide (c < 0)).

(** ** Iter *)

(** The cursor is attached to [e] before the element is yielded ... *)
Definition iter_attach (h : list ropeNode) (e : ptr) : res (list ropeNode) :=
  do en <- deref h (Some e);
  let ir :=
    match n_iterRef en with
    | None => mkIterRef 1 (Some e)
    | Some ir => mkIterRef (iadd (ir_count ir) 1) (ir_node ir)
    end in
  Ret (<[e := set_iterRef (Some ir) en]> h).

(** ... and released when the consumer comes back; the result is the node
    the iteration goes on from. *)
Definition iter_detach (h : list ropeNode) (e : ptr)
    : res (list ropeNode * option ptr) :=
  do en <- deref h (Some e);
  match n_iterRef en with
  | None => Panic
  | Some ir =>
    let update := ir_node ir in
    let c := isub (ir_count ir) 1 in
    let ir' := if decide (c = 0) then None else Some (mkIterRef c update) in
    Ret (<[e := set_iterRef ir' en]> h, update)
  end.

(** The consumer of an iteration: it sees the rope and the element, may
    change the rope, and says whether to go on. *)
Definition consumer : Type := ropeImpl → Id → DataLen → res (ropeImpl * bool).

Fixpoint Iter_loop (n : nat) (yield : consumer) (r : ropeImpl) (e : option ptr)
    (out : list (Id * DataLen)) : res (ropeImpl * list (Id * DataLen)) :=
  match n with
  | O => Timeout
  | S n' =>
    do en <- deref (r_heap r) e;
    do l <- level en 0;
    match l_next l with
    | None => Ret (r, out)
    | Some e =>
      do h1 <- iter_attach (r_heap r) e;
      do en <- deref h1 (Some e);
      do '(r, shouldContinue) <- yield (with_heap h1 r) (n_id en) (n_dl en);
      do '(h2, update) <- iter_detach (r_heap r) e;
      let r := with_heap h2 r in
      let out := out ++ [(n_id en, n_dl en)] in
      if shouldContinue : bool then Iter_loop n' yield r update out
      else Ret (r, out)
    end
  end.

(** [Iter r afterId] run against a consumer for at most [n] elements: the
    final rope and the elements yielded, in order. *)
Definition Iter (n : nat) (r : ropeImpl) (afterId : Id) (yield : consumer)
    : res (ropeImpl * list (Id * DataLen)) :=
  match r_byId r !! afterId with
  | None => Ret (r, [])
  | Some e => Iter_loop n yield r (Some e) []
  end.

End Rope.

(** * The terms of the specification

    What the claims speak of, defined on the rope itself: the states a
    program can reach, the live entries and their lengths, the entries
    that follow an entry. *)

Section Observe.

Context `{RopeParams}.

(** What [Splice] makes of [deleteUntilId]. *)
Definition del_flag (del : option Id) (afterId : Id) : bool * Id :=
  match del with
  | Some d => if decide (d ≠ afterId) then (true, d) else (false, zeroId)
  | None => (false, zeroId)
  end.

(** The states a program can bring a rope into: it starts from [NewRoot]
    and calls [Splice]; an iteration attaches its cursor to a node and
    releases it later, with any calls of the consumer in between. *)
Inductive reachable : ropeImpl → Prop :=
| reachable_NewRoot root : reachable (NewRoot root)
| reachable_Splice r afterId del ins data rnd r' removed err :
    reachable r →
    Splice r afterId del ins data rnd = Ret (r', removed, err) →
    reachable r'
| reachable_attach r e h :
    reachable r → iter_attach (r_heap r) e = Ret h →
    reachable (with_heap h r)
| reachable_detach r e h u :
    reachable r → iter_detach (r_heap r) e = Ret (h, u) →
    reachable (with_heap h r).

(** The anchor [Splice] accepts. *)
Definition anchor_valid (r : ropeImpl) (afterId : Id) : Prop :=
  is_Some (r_byId r !! afterId) ∨ afterId = zeroId.

(** The length of the entry named [id]. *)
Definition entry_len (r : ropeImpl) (id : Id) : option Z :=
  match r_byId r !! id with
  | Some p =>
    match r_heap r !! p with
    | Some nd => Some (dl_Len (n_dl nd))
    | None => None
    end
  | None => None
  end.

(** The sum of a list of lengths: as an integer, and as Go adds them up in
    an [int]. *)
Definition Zsum (l : list Z) : Z := foldr Z.add 0 l.
Definition int_sum (l : list Z) : Z := foldr iadd 0 l.

(** The lengths of the live entries (those of the identifier index), and
    their sum as an integer. *)
Definition live_lens (r : ropeImpl) : list Z :=
  (λ ip : Id * ptr,
     match r_heap r !! ip.2 with
     | Some nd => dl_Len (n_dl nd)
     | None => 0
     end) <$> map_to_list (r_byId r).

Definition live_sum (r : ropeImpl) : Z := Zsum (live_lens r).

(** The level-0 link of a node, and the records of the entries met by
    following it from [p]. *)
Definition next0 (nd : ropeNode) : option ptr :=
  match n_levels nd !! 0%nat with
  | Some l => l_next l
  | None => None
  end.

Fixpoint chain (n : nat) (h : list ropeNode) (p : option ptr)
    : list Removed :=
  match n, p with
  | S n', Some q =>
    match h !! q with
    | Some nd =>
      mkRemoved (n_id nd) (dl_Len (n_dl nd)) (dl_Data (n_dl nd))
        :: chain n' h (next0 nd)
    | None => []
    end
  | _, _ => []
  end.

(** The entries after the one named [id], in sequence order. *)
Definition successors (r : ropeImpl) (id : Id) : list Removed :=
  match r_byId r !! id with
  | Some p =>
    match r_heap r !! p with
    | Some nd => chain (fuel r) (r_heap r) (next0 nd)
    | None => []
    end
  | None => []
  end.

(** The records of [l] up to and including the one named [X]. *)
Fixpoint through (X : Id) (l : list Removed) : list Removed :=
  match l with
  | [] => []
  | x :: l' => if decide (rm_Id x = X) then [x] else x :: through X l'
  end.

Definition total_len (l : list Removed) : Z := Zsum (rm_Len <$> l).

End Observe.

(** * The representation invariant *)

(** ** Arithmetic of wrapped integers *)

Lemma wrap_range z : int_min ≤ wrap z ≤ int_max.
Proof. unfold wrap, int_min, int_max. Z.div_mod_to_equations. lia. Qed.

Lemma wrap_id z : int_min ≤ z ≤ int_max → wrap z = z.
Proof. unfold wrap, int_min, int_max. intros. Z.div_mod_to_equations. lia. Qed.

Ltac wrap_solve :=
  unfold iadd, isub, ineg, wrap, int_min, int_max in *;
  Z.div_mod_to_equations; lia.

Lemma wrap_wrap z : wrap (wrap z) = wrap z.
Proof. wrap_solve. Qed.

Lemma randomHeight_range w : (1 ≤ randomHeight w ≤ maxHeight)%nat.
Proof.
  unfold randomHeight. case_decide; unfold maxHeight in *; lia.
Qed.

Ltac list_norm :=
  repeat first
    [ rewrite reverse_app | rewrite reverse_cons | rewrite reverse_nil
    | rewrite reverse_involutive | rewrite <- app_assoc ];
  simpl.

Ltac rope_simpl :=
  cbv [with_pool with_heap with_len with_byId with_height with_lastId
       r_heap r_len r_byId r_height r_nodePool r_lastId].

(** ** Computations *)

Lemma bind_Ret {A B} (a : A) (k : A → res B) : bind (Ret a) k = k a.
Proof. reflexivity. Qed.

Lemma bind_Ret_inv {A B} (m : res A) (k : A → res B) b :
  bind m k = Ret b → ∃ a, m = Ret a ∧ k a = Ret b.
Proof. destruct m; simpl; [eauto | discriminate..]. Qed.

Global Arguments upd_level : simpl never.

Section Abstract.

Context `{RopeParams}.

(** ** The sequence a rope stands for

    An abstract entry: the address of its node, its identifier, length and
    payload, and the number of its levels. *)
Record anode : Type := mkA {
  a_ptr : ptr;
  a_id : Id;
  a_len : Z;
  a_data : T;
  a_ht : nat
}.

(** The head is linked at every level. *)
Definition hdA : anode := mkA headp zeroId 0 zeroT maxHeight.

Definition above (j : nat) (x : anode) : bool := bool_decide (j < a_ht x)%nat.

(** The first entry of [l] that has a level [j]. *)
Fixpoint first_above (j : nat) (l : list anode) : option anode :=
  match l with
  | [] => None
  | x :: l' => if above j x then Some x else first_above j l'
  end.

(** The total length of the entries of [l] before that one. *)
Fixpoint seg_len (j : nat) (l : list anode) : Z :=
  match l with
  | [] => 0
  | x :: l' => if above j x then 0 else a_len x + seg_len j l'
  end.

Fixpoint sum_len (l : list anode) : Z :=
  match l with
  | [] => 0
  | x :: l' => a_len x + sum_len l'
  end.

(** The level [j] that the entry [x] must carry when the entries before it
    are [rpre], nearest first, and those after it are [post]. *)
Definition canon (j : nat) (rpre : list anode) (x : anode) (post : list anode)
    : ropeLevel :=
  mkLevel (a_ptr <$> first_above j post)
          (Some (from_option a_ptr (a_ptr x) (first_above j rpre)))
          (wrap (a_len x + seg_len j post)).

(** What the heap says about level [j] of the node at [p], and about the
    rest of that node. *)
Definition lvl (h : list ropeNode) (p : ptr) (j : nat) : option ropeLevel :=
  match h !! p with
  | Some n => n_levels n !! j
  | None => None
  end.

Definition hdr (h : list ropeNode) (p : ptr) : option (Id * DataLen * nat) :=
  match h !! p with
  | Some n => Some (n_id n, n_dl n, length (n_levels n))
  | None => None
  end.

(** Level [j] of the heap [h] links the entries of [F] that have a level
    [j], and counts the lengths between them. *)
Definition lev_rep (h : list ropeNode) (j : nat) (F : list anode) : Prop :=
  ∀ rpre x post,
    F = reverse rpre ++ x :: post → above j x = true →
    lvl h (a_ptr x) j = Some (canon j rpre x post).

Definition entry_ok (r : ropeImpl) (x : anode) : Prop :=
  hdr (r_heap r) (a_ptr x) = Some (a_id x, mkDataLen (a_len x) (a_data x), a_ht x)
  ∧ a_ptr x ≠ headp
  ∧ (1 ≤ a_ht x ≤ r_height r)%nat
  ∧ 0 ≤ a_len x ≤ int_max.

(** [rep r L]: the rope [r] is a well-formed skip list holding the entries
    [L], in this order, after the head. *)
Record rep (r : ropeImpl) (L : list anode) : Prop := mkRep {
  rep_height : (1 ≤ r_height r ≤ maxHeight)%nat;
  rep_head : ∃ d, hdr (r_heap r) headp = Some (zeroId, mkDataLen 0 d, r_height r);
  rep_entries : Forall (entry_ok r) L;
  rep_ptrs : NoDup (a_ptr <$> L);
  rep_ids : NoDup (a_id <$> (hdA :: L));
  rep_byId : ∀ i p,
    r_byId r !! i = Some p ↔ ∃ x, x ∈ hdA :: L ∧ a_id x = i ∧ a_ptr x = p;
  rep_levels : ∀ j, (j < r_height r)%nat → lev_rep (r_heap r) j (hdA :: L);
  rep_len : r_len r = wrap (sum_len L);
  rep_pool :
    NoDup (r_nodePool r) ∧
    ∀ p, p ∈ r_nodePool r →
      p ≠ headp ∧ ¬ p ∈ (a_ptr <$> L) ∧ (p < length (r_heap r))%nat
}.

(** ** Lists of entries *)

Lemma sum_len_app l1 l2 : sum_len (l1 ++ l2) = sum_len l1 + sum_len l2.
Proof. induction l1; simpl; lia. Qed.

Lemma sum_len_reverse l : sum_len (reverse l) = sum_len l.
Proof.
  induction l; [done|]. rewrite reverse_cons, sum_len_app. simpl. lia.
Qed.

Lemma sum_len_nonneg l : Forall (λ x, 0 ≤ a_len x) l → 0 ≤ sum_len l.
Proof. induction 1; simpl; lia. Qed.

Definition below (j : nat) (l : list anode) : Prop :=
  Forall (λ y, above j y = false) l.

Lemma first_above_None j l : first_above j l = None ↔ below j l.
Proof.
  unfold below. induction l as [|x l IH]; simpl.
  - split; [constructor | done].
  - destruct (above j x) eqn:Hx.
    + split; [done|]. inversion 1; congruence.
    + rewrite IH. split; [by constructor | by inversion 1].
Qed.

Lemma first_above_Some j l y :
  first_above j l = Some y →
  ∃ l1 l2, l = l1 ++ y :: l2 ∧ below j l1 ∧ above j y = true.
Proof.
  induction l as [|x l IH]; simpl; [done|].
  destruct (above j x) eqn:Hx.
  - intros [= <-]. exists [], l. split_and!; [done | constructor | done].
  - intros (l1 & l2 & -> & ? & ?)%IH.
    exists (x :: l1), l2. split_and!; [done | by constructor | done].
Qed.

Lemma first_above_below j l1 l2 :
  below j l1 → first_above j (l1 ++ l2) = first_above j l2.
Proof.
  induction 1 as [|x l Hx _ IH]; simpl; [done|]. by rewrite Hx.
Qed.

Lemma first_above_hit j l1 y l2 :
  below j l1 → above j y = true → first_above j (l1 ++ y :: l2) = Some y.
Proof. intros. rewrite first_above_below by done. simpl. by rewrite H1. Qed.

Lemma first_above_app_Some j l1 l2 y :
  first_above j l1 = Some y → first_above j (l1 ++ l2) = Some y.
Proof.
  intros (m1 & m2 & -> & ? & ?)%first_above_Some.
  rewrite <- app_assoc. simpl. by apply first_above_hit.
Qed.

Lemma seg_len_below j l1 l2 :
  below j l1 → seg_len j (l1 ++ l2) = sum_len l1 + seg_len j l2.
Proof.
  induction 1 as [|x l Hx _ IH]; simpl; [done|]. rewrite Hx. lia.
Qed.

Lemma seg_len_hit j l1 y l2 :
  below j l1 → above j y = true → seg_len j (l1 ++ y :: l2) = sum_len l1.
Proof. intros. rewrite seg_len_below by done. simpl. rewrite H1. lia. Qed.

Lemma seg_len_app_Some j l1 l2 y :
  first_above j l1 = Some y → seg_len j (l1 ++ l2) = seg_len j l1.
Proof.
  intros (m1 & m2 & -> & ? & ?)%first_above_Some.
  rewrite <- app_assoc. simpl. by rewrite !seg_len_hit.
Qed.

Lemma seg_len_all j l : below j l → seg_len j l = sum_len l.
Proof.
  intros. rewrite <- (app_nil_r l) at 1. rewrite seg_len_below by done.
  simpl. lia.
Qed.

Lemma below_app j l1 l2 : below j (l1 ++ l2) ↔ below j l1 ∧ below j l2.
Proof. apply Forall_app. Qed.

Lemma below_reverse j l : below j (reverse l) ↔ below j l.
Proof. apply Forall_reverse. Qed.

Lemma below_mono j k l : (j ≤ k)%nat → below j l → below k l.
Proof.
  intros Hjk Hl. eapply Forall_impl; [exact Hl|]. intros x. unfold above.
  rewrite !bool_decide_eq_false. lia.
Qed.

Lemma above_mono j k x : (j ≤ k)%nat → above k x = true → above j x = true.
Proof. unfold above. rewrite !bool_decide_eq_true. lia. Qed.

Lemma above_hdA j : (j < maxHeight)%nat → above j hdA = true.
Proof. intros. unfold above. by rewrite bool_decide_eq_true. Qed.

Lemma above_lt j x : above j x = true ↔ (j < a_ht x)%nat.
Proof. unfold above. by rewrite bool_decide_eq_true. Qed.

Lemma above_ge j x : above j x = false ↔ (a_ht x ≤ j)%nat.
Proof. unfold above. rewrite bool_decide_eq_false. lia. Qed.

End Abstract.

Section Heap.

Context `{RopeParams}.

(** ** Reading and writing the heap *)

Lemma deref_ok h p n : h !! p = Some n → deref h (Some p) = Ret n.
Proof. intros Hp. simpl. by rewrite Hp. Qed.

Lemma level_ok n j l : n_levels n !! j = Some l → level n j = Ret l.
Proof. intros Hj. unfold level. by rewrite Hj. Qed.

Lemma lvl_inv h p j l :
  lvl h p j = Some l → ∃ n, h !! p = Some n ∧ n_levels n !! j = Some l.
Proof. unfold lvl. destruct (h !! p); [eauto | done]. Qed.

Lemma lvl_eq h p n j : h !! p = Some n → lvl h p j = n_levels n !! j.
Proof. intros Hp. unfold lvl. by rewrite Hp. Qed.

Lemma hdr_inv h p i d k :
  hdr h p = Some (i, d, k) →
  ∃ n, h !! p = Some n ∧ n_id n = i ∧ n_dl n = d ∧ length (n_levels n) = k.
Proof.
  unfold hdr. destruct (h !! p) as [n|]; [|done].
  intros [= <- <- <-]. eauto.
Qed.

Lemma upd_level_ok h p j f l :
  lvl h p j = Some l →
  ∃ h', upd_level h (Some p) j f = Ret h'
    ∧ length h' = length h
    ∧ (∀ q, hdr h' q = hdr h q)
    ∧ lvl h' p j = Some (f l)
    ∧ (∀ q k, (q, k) ≠ (p, j) → lvl h' q k = lvl h q k).
Proof.
  intros (n & Hp & Hj)%lvl_inv.
  assert (p < length h)%nat by (by eapply lookup_lt_Some).
  assert (j < length (n_levels n))%nat by (by eapply lookup_lt_Some).
  eexists. split_and!.
  - unfold upd_level. rewrite (deref_ok _ _ _ Hp). simpl.
    rewrite (level_ok _ _ _ Hj). simpl. reflexivity.
  - by rewrite length_insert.
  - intros q. unfold hdr. destruct (decide (q = p)) as [->|].
    + rewrite list_lookup_insert_eq by done. rewrite Hp. simpl.
      by rewrite length_insert.
    + by rewrite list_lookup_insert_ne.
  - unfold lvl. rewrite list_lookup_insert_eq by done. simpl.
    by rewrite list_lookup_insert_eq.
  - intros q k Hne. unfold lvl. destruct (decide (q = p)) as [->|].
    + rewrite list_lookup_insert_eq by done. rewrite Hp. simpl.
      rewrite list_lookup_insert_ne; [done | congruence].
    + by rewrite list_lookup_insert_ne.
Qed.

(** ** Positions in the sequence *)

Lemma zip_head (L : list anode) rpre x post :
  hdA :: L = reverse rpre ++ x :: post →
  (rpre = [] ∧ x = hdA ∧ post = L)
  ∨ (∃ rp, rpre = rp ++ [hdA] ∧ L = reverse rp ++ x :: post).
Proof.
  destruct rpre as [|y rp _] using rev_ind; list_norm.
  - intros [= <- <-]. by left.
  - intros [= <- ->]. right. eauto.
Qed.

Lemma zip_elem (F : list anode) x :
  x ∈ F → ∃ rpre post, F = reverse rpre ++ x :: post.
Proof.
  intros (l1 & l2 & ->)%list_elem_of_split.
  exists (reverse l1), l2. by rewrite reverse_involutive.
Qed.

Lemma first_above_head j rp :
  (j < maxHeight)%nat → is_Some (first_above j (rp ++ [hdA])).
Proof.
  intros Hj. destruct (first_above j rp) as [y|] eqn:Hrp.
  - rewrite (first_above_app_Some _ _ _ _ Hrp). eauto.
  - apply first_above_None in Hrp. rewrite first_above_below by done.
    simpl. rewrite above_hdA by done. eauto.
Qed.

Lemma rep_F_ptrs r L : rep r L → NoDup (a_ptr <$> (hdA :: L)).
Proof.
  intros Hr. simpl. constructor; [|apply Hr].
  intros (x & Hx & Hin)%list_elem_of_fmap.
  pose proof (rep_entries _ _ Hr) as He.
  rewrite Forall_forall in He. destruct (He x Hin) as (_ & Hne & _).
  by rewrite <- Hx in Hne.
Qed.

(** The node of an entry carries the canonical levels. *)
Lemma rep_node r L rpre x post :
  rep r L → hdA :: L = reverse rpre ++ x :: post →
  ∃ n, r_heap r !! a_ptr x = Some n
    ∧ n_id n = a_id x
    ∧ dl_Len (n_dl n) = a_len x
    ∧ length (n_levels n) = (a_ht x `min` r_height r)%nat
    ∧ (x ∈ L → n_dl n = mkDataLen (a_len x) (a_data x))
    ∧ ∀ j, (j < a_ht x `min` r_height r)%nat →
        n_levels n !! j = Some (canon j rpre x post).
Proof.
  intros Hr HF.
  pose proof (rep_height _ _ Hr) as HH.
  assert (∃ n, r_heap r !! a_ptr x = Some n
    ∧ n_id n = a_id x ∧ dl_Len (n_dl n) = a_len x
    ∧ length (n_levels n) = (a_ht x `min` r_height r)%nat
    ∧ (x ∈ L → n_dl n = mkDataLen (a_len x) (a_data x)))
    as (n & Hn & ? & ? & Hlen & ?).
  { destruct (zip_head _ _ _ _ HF) as [(-> & -> & ->)|(rp & -> & HL)].
    - destruct (rep_head _ _ Hr) as (d & (n & ? & ? & Hd & Hl)%hdr_inv).
      exists n. split_and!; try done.
      + by rewrite Hd.
      + rewrite Hl. change (a_ht hdA) with maxHeight. lia.
      + intros Hin. pose proof (rep_entries _ _ Hr) as He.
        rewrite Forall_forall in He. by destruct (He _ Hin) as (_ & ? & _).
    - pose proof (rep_entries _ _ Hr) as He. rewrite Forall_forall in He.
      destruct (He x) as ((n & ? & ? & Hd & ?)%hdr_inv & ? & ? & ?).
      { rewrite HL. apply elem_of_app. right. left. }
      exists n. split_and!; try done; [by rewrite Hd | lia]. }
  exists n. split_and!; try done.
  intros j Hj. rewrite <- (lvl_eq _ _ _ _ Hn).
  apply (rep_levels _ _ Hr); [lia | done | apply above_lt; lia].
Qed.

(** ** The seek phase *)

(** What [seek[j]] must hold when [ra] lists the anchor and the entries
    before it, nearest first. *)
Definition seek_of (ra : list anode) (j : nat) : ropeSeek :=
  match first_above j ra with
  | Some s => mkSeek (Some (a_ptr s)) (wrap (a_len s + seg_len j ra))
  | None => mkSeek None 0
  end.

Lemma seek_fill_ok n (seek : list ropeSeek) i c :
  (i + n ≤ length seek)%nat →
  ∃ seek', seek_fill n seek i c = Ret seek'
    ∧ length seek' = length seek
    ∧ (∀ j, (i ≤ j < i + n)%nat → seek' !! j = Some c)
    ∧ (∀ j, ¬ (i ≤ j < i + n)%nat → seek' !! j = seek !! j).
Proof.
  revert seek i. induction n as [|n IH]; intros seek i Hlen; simpl.
  - exists seek. split_and!; [done..| intros; lia | done].
  - rewrite decide_True by lia.
    destruct (IH (<[i := c]> seek) (S i)) as (s' & -> & Hl & Hin & Hout).
    { rewrite length_insert. lia. }
    exists s'. rewrite length_insert in Hl. split_and!; [done..| |].
    + intros j Hj. destruct (decide (j = i)) as [->|].
      * rewrite Hout by lia. apply list_lookup_insert_eq. lia.
      * apply Hin. lia.
    + intros j Hj. rewrite Hout by lia. apply list_lookup_insert_ne. lia.
Qed.

Lemma seek_loop_ok r L n rm c rp post seek i :
  rep r L →
  hdA :: L = reverse (rm ++ c :: rp) ++ post →
  below i rm → (i ≤ a_ht c)%nat → (i < r_height r)%nat →
  length seek = r_height r →
  (∀ j, (j < i)%nat → seek !! j = Some (seek_of (rm ++ c :: rp) j)) →
  (length rp < n)%nat →
  ∃ seek',
    seek_loop n r seek (mkSeek (Some (a_ptr c)) (wrap (a_len c + sum_len rm))) i
      = Ret (seek', seek_of (rm ++ c :: rp) (r_height r - 1), r_height r)
    ∧ length seek' = r_height r
    ∧ ∀ j, (j < r_height r)%nat → seek' !! j = Some (seek_of (rm ++ c :: rp) j).
Proof.
  intros Hr. pose proof (rep_height _ _ Hr) as HH.
  revert rm c rp seek i.
  induction n as [|n IH]; intros rm c rp seek i HF Hrm Hic HiH Hlen Hseek Hn;
    [lia|].
  assert (HFc : hdA :: L = reverse rp ++ c :: (reverse rm ++ post)).
  { rewrite HF. by list_norm. }
  destruct (rep_node _ _ _ _ _ Hr HFc) as (nd & Hnd & _ & _ & Hnl & _ & Hlv).
  remember (a_ht c `min` r_height r)%nat as nl eqn:Hnldef.
  assert (Hcur : ∀ j, (i ≤ j < nl)%nat →
    seek_of (rm ++ c :: rp) j = mkSeek (Some (a_ptr c)) (wrap (a_len c + sum_len rm))).
  { intros j Hj. unfold seek_of.
    assert (below j rm) by (eapply below_mono; [|done]; lia).
    assert (above j c = true) by (apply above_lt; lia).
    rewrite first_above_hit, seg_len_hit by done. done. }
  simpl. rewrite Hnd. simpl. rewrite Hnl.
  destruct (seek_fill_ok (nl - i) seek i
    (mkSeek (Some (a_ptr c)) (wrap (a_len c + sum_len rm))))
    as (s1 & -> & Hl1 & Hin1 & Hout1); [lia|].
  simpl. replace (i `max` nl)%nat with nl by lia.
  assert (Hs1 : ∀ j, (j < nl)%nat → s1 !! j = Some (seek_of (rm ++ c :: rp) j)).
  { intros j Hj. destruct (decide (i ≤ j)%nat).
    - rewrite Hin1 by lia. by rewrite Hcur by lia.
    - rewrite Hout1 by lia. apply Hseek. lia. }
  case_decide as Hexit.
  - exists s1. assert (nl = r_height r) as Hnl'.
    { destruct Hexit as [[= Hc]|]; [|done].
      destruct (zip_head _ _ _ _ HFc) as [(_ & -> & _)|(rp' & -> & HL)].
      - rewrite Hnldef. change (a_ht hdA) with maxHeight. lia.
      - exfalso. pose proof (rep_entries _ _ Hr) as He.
        rewrite Forall_forall in He. destruct (He c) as (_ & ? & _); [|done].
        rewrite HL. apply elem_of_app. right. left. }
    split_and!; [|lia|].
    + rewrite Hcur by lia. by rewrite Hnl'.
    + intros j Hj. apply Hs1. lia.
  - assert (a_ptr c ≠ headp) as Hch.
    { intros Hc. apply Hexit. left. simpl. by rewrite Hc. }
    assert (nl ≠ r_height r) as HnlH by (intros ?; apply Hexit; by right).
    assert (nl = a_ht c) as Hnlc by lia.
    assert (1 ≤ nl)%nat as Hnl1.
    { destruct (zip_head _ _ _ _ HFc) as [(_ & -> & _)|(rp' & -> & HL)];
        [done|].
      pose proof (rep_entries _ _ Hr) as He.
      rewrite Forall_forall in He. destruct (He c) as (_ & _ & ? & _); [|lia].
      rewrite HL. apply elem_of_app. right. left. }
    destruct nl as [|k] eqn:Hk; [lia|]. simpl.
    unfold level. rewrite (Hlv k) by lia. simpl.
    destruct (zip_head _ _ _ _ HFc) as [(_ & -> & _)|(rp' & Hrp & HL)];
      [done|].
    destruct (first_above_head k rp') as [c' Hc']; [unfold maxHeight in *; lia|].
    rewrite <- Hrp in Hc'. rewrite Hc'. simpl.
    destruct (first_above_Some _ _ _ Hc') as (rm2 & rp2 & Hrp2 & Hrm2 & Hc'k).
    assert (HFc' : hdA :: L
      = reverse rp2 ++ c' :: (reverse rm2 ++ c :: reverse rm ++ post)).
    { rewrite HFc, Hrp2. by list_norm. }
    destruct (rep_node _ _ _ _ _ Hr HFc') as (nd' & Hnd' & _ & _ & Hnl' & _ & Hlv').
    rewrite Hnd'. simpl. unfold level.
    rewrite (Hlv' k) by (apply above_lt in Hc'k; lia). simpl.
    rewrite seg_len_hit; [|by apply below_reverse | apply above_lt; lia].
    rewrite sum_len_reverse.
    replace (iadd (wrap (a_len c + sum_len rm)) (wrap (a_len c' + sum_len rm2)))
      with (wrap (a_len c' + sum_len (rm ++ c :: rm2))).
    2:{ rewrite sum_len_app. simpl. wrap_solve. }
    destruct (IH (rm ++ c :: rm2) c' rp2 s1 (S k)) as (s2 & Hs2 & ? & ?).
    + rewrite HF, Hrp2. by rewrite <- !app_assoc.
    + apply below_app. split; [eapply below_mono; [|done]; lia|].
      constructor; [apply above_ge; lia|].
      eapply below_mono; [|done]. lia.
    + apply above_lt in Hc'k. lia.
    + lia.
    + congruence.
    + intros j Hj. rewrite <- app_assoc. simpl. rewrite <- Hrp2.
      apply Hs1. lia.
    + rewrite Hrp2, length_app in Hn. simpl in Hn. lia.
    + rewrite <- app_assoc in Hs2. simpl in Hs2. rewrite <- Hrp2 in Hs2.
      exists s2. rewrite <- app_assoc in *. simpl in *. rewrite <- Hrp2 in *.
      done.
Qed.

End Heap.

Section Distinct.

Context `{RopeParams}.

(** ** Entries at different places have different addresses *)

Lemma first_above_elem j l y : first_above j l = Some y → y ∈ l.
Proof.
  intros (l1 & l2 & -> & _)%first_above_Some. apply elem_of_app. right. left.
Qed.

Lemma zip_ptr_ne (rp : list anode) x po y :
  NoDup (a_ptr <$> (reverse rp ++ x :: po)) →
  y ∈ rp ∨ y ∈ po → a_ptr y ≠ a_ptr x.
Proof.
  rewrite fmap_app, fmap_cons.
  intros (_ & Hdisj & [Hx _]%NoDup_cons)%NoDup_app Hy Heq.
  destruct Hy as [Hy|Hy].
  - apply (Hdisj (a_ptr x)); [|left]. rewrite <- Heq.
    apply list_elem_of_fmap_2. by apply elem_of_reverse.
  - apply Hx. rewrite <- Heq. by apply list_elem_of_fmap_2.
Qed.

End Distinct.

(** [ptr_ne Hnd HF Heq]: two entries at different places of a sequence
    without repeated addresses cannot have the same address [Heq]. *)
Ltac mem_simpl :=
  repeat first
    [ rewrite elem_of_app | rewrite elem_of_cons | rewrite elem_of_reverse
    | rewrite elem_of_nil ].

Ltac mem_solve :=
  repeat match goal with
  | H : first_above _ _ = Some _ |- _ => apply first_above_elem in H
  end;
  try subst;
  repeat match goal with
  | H : _ ∈ _ |- _ => revert H
  end;
  mem_simpl; tauto.

Ltac ptr_ne Hnd HF Heq :=
  exfalso; try rewrite HF in Hnd;
  first [ eapply (zip_ptr_ne _ _ _ _ Hnd); [|exact Heq]
        | eapply (zip_ptr_ne _ _ _ _ Hnd); [|symmetry; exact Heq] ];
  mem_solve.

Section Levels.

Context `{RopeParams}.

(** ** Where an entry sits when the sequence is cut in two *)

Lemma app_cons_cases {A} (l1 l2 l3 l4 : list A) x :
  l1 ++ x :: l2 = l3 ++ l4 →
  (∃ m, l3 = l1 ++ x :: m ∧ l2 = m ++ l4)
  ∨ (∃ m, l4 = m ++ x :: l2 ∧ l1 = l3 ++ m).
Proof.
  revert l3. induction l1 as [|a l1 IH]; intros [|b l3]; simpl.
  - intros <-. right. by exists [].
  - intros [= <- ->]. left. by exists l3.
  - intros <-. right. by exists (a :: l1).
  - intros [= <- [(m & -> & ->)|(m & -> & ->)]%IH].
    + left. by exists m.
    + right. by exists m.
Qed.

Lemma zip_app_cases (ra post rp : list anode) x po :
  reverse ra ++ post = reverse rp ++ x :: po →
  (∃ rm, ra = rm ++ x :: rp ∧ po = reverse rm ++ post)
  ∨ (∃ pm, post = pm ++ x :: po ∧ rp = reverse pm ++ ra).
Proof.
  intros HF. symmetry in HF.
  destruct (app_cons_cases _ _ _ _ _ HF) as [(m & Hm & ->)|(m & -> & Hm)].
  - left. exists (reverse m). split; [|by rewrite reverse_involutive].
    rewrite <- (reverse_involutive ra), Hm. by list_norm.
  - right. exists m. split; [done|].
    rewrite <- (reverse_involutive rp), Hm. by list_norm.
Qed.

Lemma zip_app_cons_cases (ra post rp : list anode) e x po :
  reverse ra ++ e :: post = reverse rp ++ x :: po →
  (∃ rm, ra = rm ++ x :: rp ∧ po = reverse rm ++ e :: post)
  ∨ (x = e ∧ rp = ra ∧ po = post)
  ∨ (∃ pm, post = pm ++ x :: po ∧ rp = reverse pm ++ e :: ra).
Proof.
  intros [?|(pm & Hpm & ->)]%zip_app_cases; [by left|right].
  destruct pm as [|e' pm]; simpl in Hpm.
  - injection Hpm as -> ->. by left.
  - injection Hpm as -> ->. right. exists pm. split; [done|]. by list_norm.
Qed.

(** ** The canonical level, seen from either side *)

Lemma canon_post_indep j rp x m l l' :
  first_above j m ≠ None → canon j rp x (m ++ l) = canon j rp x (m ++ l').
Proof.
  destruct (first_above j m) eqn:E; [intros _|done]. unfold canon.
  by rewrite !(first_above_app_Some _ _ _ _ E), !(seg_len_app_Some _ _ _ _ E).
Qed.

Lemma canon_pre_indep j m l l' x po :
  first_above j m ≠ None → canon j (m ++ l) x po = canon j (m ++ l') x po.
Proof.
  destruct (first_above j m) eqn:E; [intros _|done]. unfold canon.
  by rewrite !(first_above_app_Some _ _ _ _ E).
Qed.

Lemma first_above_reverse_None j l :
  first_above j (reverse l) = None ↔ first_above j l = None.
Proof. rewrite !first_above_None. apply below_reverse. Qed.

Lemma first_above_reverse_ne j l :
  first_above j l ≠ None → first_above j (reverse l) ≠ None.
Proof. by rewrite first_above_reverse_None. Qed.

(** ** Unlinking an entry at one level *)

Lemma delete_level_ok h j ra e post seek ie de :
  NoDup (a_ptr <$> (reverse ra ++ e :: post)) →
  lev_rep h j (reverse ra ++ e :: post) →
  is_Some (first_above j ra) →
  seek !! j = Some (seek_of ra j) →
  hdr h (a_ptr e) = Some (ie, mkDataLen (a_len e) de, a_ht e) →
  ∃ h', delete_level j h seek (a_ptr e) = Ret h'
    ∧ length h' = length h
    ∧ (∀ q, hdr h' q = hdr h q)
    ∧ (∀ q k, k ≠ j → lvl h' q k = lvl h q k)
    ∧ lev_rep h' j (reverse ra ++ post).
Proof.
  intros Hnd Hlev [s Hs] Hsk He.
  destruct (first_above_Some _ _ _ Hs) as (rm & rp & Hra & Hrm & Hsj).
  assert (HFs : reverse ra ++ e :: post
    = reverse rp ++ s :: (reverse rm ++ e :: post)).
  { rewrite Hra. by list_norm. }
  pose proof (Hlev _ _ _ HFs Hsj) as Hls.
  destruct (lvl_inv _ _ _ _ Hls) as (ns & Hns & Hnsj).
  destruct (hdr_inv _ _ _ _ _ He) as (en & Hen & _ & Hdl & Hel).
  assert (Hse : a_ptr s ≠ a_ptr e).
  { intros Heq. ptr_ne Hnd HFs Heq. }
  unfold delete_level, seek_at. rewrite Hsk. simpl.
  unfold seek_of. rewrite Hs. simpl. rewrite Hns. simpl.
  rewrite (level_ok _ _ _ Hnsj). simpl. rewrite Hen. simpl.
  rewrite Hel, Hdl. simpl.
  case_decide as Hej.
  - (* [e] has no level [j] *)
    apply above_ge in Hej.
    destruct (upd_level_ok h (a_ptr s) j (sub_sub (a_len e)) _ Hls)
      as (h' & -> & Hlen' & Hhdr' & Hs' & Ho').
    exists h'. split_and!; [done..| |].
    { intros q k Hk. apply Ho'. congruence. }
    intros rp' x po' HF' Hx.
    destruct (zip_app_cases _ _ _ _ _ HF') as
      [(rm' & Hra' & ->)|(pm & Hpost & ->)].
    + assert (HFx : reverse ra ++ e :: post
        = reverse rp' ++ x :: (reverse rm' ++ e :: post)).
      { rewrite Hra'. by list_norm. }
      pose proof (Hlev _ _ _ HFx Hx) as Hlx.
      destruct (first_above j rm') as [u|] eqn:Hu.
      * (* another entry stands between [x] and the anchor *)
        assert (u = s) as ->.
        { rewrite Hra' in Hs. rewrite (first_above_app_Some _ _ _ _ Hu) in Hs.
          congruence. }
        rewrite Ho'.
        2:{ intros [= Heq]. ptr_ne Hnd HFx Heq. }
        rewrite Hlx. f_equal. apply canon_post_indep.
        apply first_above_reverse_ne. congruence.
      * (* [x] is the entry [seek[j]] points to *)
        apply first_above_None in Hu.
        assert (x = s) as ->.
        { rewrite Hra' in Hs. rewrite first_above_hit in Hs by done.
          congruence. }
        rewrite Hs'. rewrite Hls in Hlx. apply (inj Some) in Hlx. rewrite Hlx.
        f_equal. unfold canon, sub_sub, set_sub. simpl.
        apply below_reverse in Hu.
        rewrite !first_above_below, !seg_len_below by done. simpl.
        rewrite Hej. f_equal. wrap_solve.
    + assert (HFx : reverse ra ++ e :: post
        = reverse (reverse pm ++ e :: ra) ++ x :: po').
      { rewrite Hpost. by list_norm. }
      pose proof (Hlev _ _ _ HFx Hx) as Hlx.
      rewrite Ho'.
      2:{ intros [= Heq]. ptr_ne Hnd HFs Heq. }
      rewrite Hlx. f_equal.
      destruct (first_above j (reverse pm)) eqn:Hpm.
      * apply canon_pre_indep. congruence.
      * apply first_above_None in Hpm. unfold canon.
        rewrite !first_above_below by done. simpl. by rewrite Hej.
  - (* [e] is linked at level [j] *)
    assert (above j e = true) as Hej' by (apply above_lt; lia).
    assert (HFe : reverse ra ++ e :: post = reverse ra ++ e :: post) by done.
    pose proof (Hlev _ _ _ HFe Hej') as Hle.
    destruct (lvl_inv _ _ _ _ Hle) as (en' & Hen' & Henj).
    assert (en' = en) as -> by congruence.
    rewrite (level_ok _ _ _ Henj). simpl.
    destruct (upd_level_ok h (a_ptr s) j
      (add_sub (isub (wrap (a_len e + seg_len j post)) (a_len e))) _ Hls)
      as (h1 & -> & Hlen1 & Hhdr1 & Hs1 & Ho1).
    simpl.
    assert (∃ h2,
      match a_ptr <$> first_above j post with
      | Some _ => upd_level h1 (a_ptr <$> first_above j post) j
                    (set_prev (Some (a_ptr s)))
      | None => Ret h1
      end = Ret h2
      ∧ length h2 = length h1
      ∧ (∀ q, hdr h2 q = hdr h1 q)
      ∧ (∀ q k, k ≠ j → lvl h2 q k = lvl h1 q k)
      ∧ lvl h2 (a_ptr s) j = lvl h1 (a_ptr s) j
      ∧ (∀ y pm po, post = pm ++ y :: po → below j pm → above j y = true →
           lvl h2 (a_ptr y) j
           = Some (set_prev (Some (a_ptr s)) (canon j (reverse pm ++ e :: ra) y po)))
      ∧ (∀ q, (∀ y, first_above j post = Some y → q ≠ a_ptr y) →
           lvl h2 q j = lvl h1 q j))
      as (h2 & -> & Hlen2 & Hhdr2 & Hk2 & Hs2 & Hy2 & Ho2).
    { destruct (first_above j post) as [y|] eqn:Hy; simpl.
      - destruct (first_above_Some _ _ _ Hy) as (pm & po & Hpost & Hpm & Hyj).
        assert (HFy : reverse ra ++ e :: post
          = reverse (reverse pm ++ e :: ra) ++ y :: po).
        { rewrite Hpost. by list_norm. }
        pose proof (Hlev _ _ _ HFy Hyj) as Hly.
        assert (Hys : a_ptr y ≠ a_ptr s).
        { intros Heq. ptr_ne Hnd HFy Heq. }
        rewrite <- Ho1 in Hly by congruence.
        destruct (upd_level_ok h1 (a_ptr y) j (set_prev (Some (a_ptr s))) _ Hly)
          as (h2 & -> & ? & ? & Hy' & Ho').
        exists h2. split_and!; [done..| | | |].
        + intros q k Hk. apply Ho'. congruence.
        + apply Ho'. congruence.
        + intros y' pm' po' Hpost' Hpm' Hy'j.
          assert (y' = y) as ->.
          { rewrite Hpost', first_above_hit in Hy by done. congruence. }
          rewrite Hy'. f_equal. f_equal.
          rewrite Hpost' in HFy.
          assert (HFy' : reverse ra ++ e :: post
            = reverse (reverse pm' ++ e :: ra) ++ y :: po').
          { rewrite Hpost'. by list_norm. }
          pose proof (Hlev _ _ _ HFy' Hy'j) as Hly'.
          rewrite <- Ho1 in Hly' by congruence. congruence.
        + intros q Hq. apply Ho'. intros [= Heq]. by eapply Hq.
      - exists h1. split_and!; try done.
        intros y pm po Hpost Hpm Hyj.
        rewrite Hpost, first_above_hit in Hy by done. done. }
    rewrite <- Hs2 in Hs1. rewrite bind_Ret.
    destruct (upd_level_ok h2 (a_ptr s) j
      (set_next (a_ptr <$> first_above j post)) _ Hs1)
      as (h3 & -> & Hlen3 & Hhdr3 & Hs3 & Ho3).
    exists h3. split_and!.
    { done. }
    { congruence. }
    { intros q. by rewrite Hhdr3, Hhdr2, Hhdr1. }
    { intros q k Hk. rewrite Ho3 by congruence. rewrite Hk2 by done.
      apply Ho1. congruence. }
    intros rp' x po' HF' Hx.
    destruct (zip_app_cases _ _ _ _ _ HF') as
      [(rm' & Hra' & ->)|(pm & Hpost & ->)].
    + assert (HFx : reverse ra ++ e :: post
        = reverse rp' ++ x :: (reverse rm' ++ e :: post)).
      { rewrite Hra'. by list_norm. }
      pose proof (Hlev _ _ _ HFx Hx) as Hlx.
      assert (Hxy : ∀ y, first_above j post = Some y → a_ptr x ≠ a_ptr y).
      { intros y Hy Heq. ptr_ne Hnd HFx Heq. }
      destruct (first_above j rm') as [u|] eqn:Hu.
      * assert (u = s) as ->.
        { rewrite Hra' in Hs. rewrite (first_above_app_Some _ _ _ _ Hu) in Hs.
          congruence. }
        rewrite Ho3.
        2:{ intros [= Heq]. ptr_ne Hnd HFx Heq. }
        rewrite Ho2 by done. rewrite Ho1.
        2:{ intros [= Heq]. ptr_ne Hnd HFx Heq. }
        rewrite Hlx. f_equal. apply canon_post_indep.
        apply first_above_reverse_ne. congruence.
      * apply first_above_None in Hu.
        assert (x = s) as ->.
        { rewrite Hra' in Hs. rewrite first_above_hit in Hs by done.
          congruence. }
        rewrite Hs3. rewrite Hls in Hlx. apply (inj Some) in Hlx. rewrite Hlx.
        f_equal. unfold canon, add_sub, set_sub, set_next. simpl.
        apply below_reverse in Hu.
        rewrite !first_above_below, !seg_len_below by done. simpl.
        rewrite Hej'. f_equal. wrap_solve.
    + assert (Hxs : a_ptr x ≠ a_ptr s).
      { intros Heq. ptr_ne Hnd HFs Heq. }
      rewrite Ho3 by congruence.
      destruct (first_above j pm) as [u|] eqn:Hpm.
      * assert (HFx : reverse ra ++ e :: post
          = reverse (reverse pm ++ e :: ra) ++ x :: po').
        { rewrite Hpost. by list_norm. }
        pose proof (Hlev _ _ _ HFx Hx) as Hlx.
        rewrite Ho2.
        2:{ intros y Hy. rewrite Hpost in Hy.
            rewrite (first_above_app_Some _ _ _ _ Hpm) in Hy.
            injection Hy as <-. intros Heq. ptr_ne Hnd HFx Heq. }
        rewrite Ho1 by congruence. rewrite Hlx. f_equal.
        apply canon_pre_indep. apply first_above_reverse_ne. congruence.
      * apply first_above_None in Hpm.
        rewrite (Hy2 _ _ _ Hpost Hpm Hx). f_equal.
        apply below_reverse in Hpm.
        unfold canon, set_prev. simpl.
        rewrite !first_above_below by done. simpl. by rewrite Hs.
Qed.

End Levels.

Section DeleteOk.

Context `{RopeParams}.

(** ** Writes that leave an entry alone *)

Lemma hdr_insert_ne h p n q : q ≠ p → hdr (<[p := n]> h) q = hdr h q.
Proof. intros. unfold hdr. by rewrite list_lookup_insert_ne. Qed.

Lemma lvl_insert_ne h p n q k : q ≠ p → lvl (<[p := n]> h) q k = lvl h q k.
Proof. intros. unfold lvl. by rewrite list_lookup_insert_ne. Qed.

Lemma hdr_set_iterRef h p n ir q :
  h !! p = Some n → hdr (<[p := set_iterRef ir n]> h) q = hdr h q.
Proof.
  intros Hp. unfold hdr. destruct (decide (q = p)) as [->|].
  - rewrite list_lookup_insert_eq by (by eapply lookup_lt_Some).
    by rewrite Hp.
  - by rewrite list_lookup_insert_ne.
Qed.

Lemma lvl_set_iterRef h p n ir q k :
  h !! p = Some n → lvl (<[p := set_iterRef ir n]> h) q k = lvl h q k.
Proof.
  intros Hp. unfold lvl. destruct (decide (q = p)) as [->|].
  - rewrite list_lookup_insert_eq by (by eapply lookup_lt_Some).
    by rewrite Hp.
  - by rewrite list_lookup_insert_ne.
Qed.

Lemma lev_rep_ext h h' k F :
  (∀ x, x ∈ F → lvl h' (a_ptr x) k = lvl h (a_ptr x) k) →
  lev_rep h k F → lev_rep h' k F.
Proof.
  intros Hext Hlev rp x po HF Hx. rewrite Hext; [by apply Hlev|].
  rewrite HF. apply elem_of_app. right. left.
Qed.

(** ** Unlinking an entry at every level *)

Lemma delete_levels_ok n j h ra e post seek ie de :
  NoDup (a_ptr <$> (reverse ra ++ e :: post)) →
  (∀ k, (k < j)%nat → lev_rep h k (reverse ra ++ post)) →
  (∀ k, (j ≤ k < j + n)%nat → lev_rep h k (reverse ra ++ e :: post)) →
  (∀ k, (k < j + n)%nat → is_Some (first_above k ra)) →
  (∀ k, (k < j + n)%nat → seek !! k = Some (seek_of ra k)) →
  hdr h (a_ptr e) = Some (ie, mkDataLen (a_len e) de, a_ht e) →
  ∃ h', delete_levels n j h seek (a_ptr e) = Ret h'
    ∧ length h' = length h
    ∧ (∀ q, hdr h' q = hdr h q)
    ∧ (∀ q k, (j + n ≤ k)%nat → lvl h' q k = lvl h q k)
    ∧ (∀ k, (k < j + n)%nat → lev_rep h' k (reverse ra ++ post)).
Proof.
  intros Hnd. revert j h.
  induction n as [|n IH]; intros j h Hlo Hhi Hfa Hsk He; simpl.
  - exists h. split_and!; try done. intros k Hk. apply Hlo. lia.
  - destruct (delete_level_ok h j ra e post seek ie de)
      as (h1 & -> & Hlen1 & Hhdr1 & Ho1 & Hj1); try done.
    { apply Hhi. lia. } { apply Hfa. lia. } { apply Hsk. lia. }
    rewrite bind_Ret.
    destruct (IH (S j) h1) as (h2 & -> & Hlen2 & Hhdr2 & Ho2 & Hall2).
    + intros k Hk. destruct (decide (k = j)) as [->|]; [done|].
      eapply lev_rep_ext; [|apply Hlo; lia]. intros x _. by apply Ho1.
    + intros k Hk. eapply lev_rep_ext; [|apply Hhi; lia].
      intros x _. apply Ho1. lia.
    + intros k Hk. apply Hfa. lia.
    + intros k Hk. apply Hsk. lia.
    + by rewrite Hhdr1.
    + exists h2. split_and!; [done | congruence | | |].
      * intros q. by rewrite Hhdr2.
      * intros q k Hk. rewrite Ho2 by lia. apply Ho1. lia.
      * intros k Hk. apply Hall2. lia.
Qed.

(** ** The number of entries is bounded by the size of the heap *)

Lemma NoDup_bounded_length (l : list nat) n :
  NoDup l → (∀ x, x ∈ l → (x < n)%nat) → (length l ≤ n)%nat.
Proof.
  intros Hnd Hb. rewrite <- (length_seq n 0).
  apply submseteq_length, NoDup_submseteq; [done|].
  intros x Hx. apply elem_of_seq. specialize (Hb x Hx). lia.
Qed.

Lemma rep_length r L : rep r L → (length L < length (r_heap r))%nat.
Proof.
  intros Hr. pose proof (rep_F_ptrs _ _ Hr) as Hnd.
  apply NoDup_bounded_length with (n := length (r_heap r)) in Hnd.
  - rewrite length_fmap in Hnd. simpl in Hnd. lia.
  - intros p (x & -> & Hx)%list_elem_of_fmap.
    destruct (zip_elem _ _ Hx) as (rp & po & HF).
    destruct (rep_node _ _ _ _ _ Hr HF) as (n & Hn & _).
    by eapply lookup_lt_Some.
Qed.

(** ** Unlinking one entry *)

Definition rec_of (e : anode) : Removed :=
  mkRemoved (a_id e) (a_len e) (a_data e).

Lemma NoDup_fmap_mid {A B} (f : A → B) l1 x l2 :
  NoDup (f <$> (l1 ++ x :: l2)) →
  NoDup (f <$> (l1 ++ l2)) ∧ f x ∉ f <$> (l1 ++ l2).
Proof.
  rewrite <- Permutation_middle. rewrite fmap_cons.
  by intros [? ?]%NoDup_cons.
Qed.

Lemma rep_after_delete r L rp e post h' pool' :
  rep r L → L = reverse rp ++ e :: post →
  length h' = length (r_heap r) →
  (∀ q, q ≠ a_ptr e → hdr h' q = hdr (r_heap r) q) →
  (∀ k, (k < r_height r)%nat → lev_rep h' k (hdA :: reverse rp ++ post)) →
  NoDup pool' →
  (∀ p, p ∈ pool' → p ∈ r_nodePool r ∨ p = a_ptr e) →
  rep (mkRope h' (isub (r_len r) (a_len e)) (delete (a_id e) (r_byId r))
         (r_height r) pool' (r_lastId r))
      (reverse rp ++ post).
Proof.
  intros Hr HL Hlen Hhdr Hlev Hpnd Hpool.
  pose proof (rep_F_ptrs _ _ Hr) as Hnd.
  pose proof (rep_ids _ _ Hr) as Hids.
  pose proof (rep_entries _ _ Hr) as Hent.
  rewrite HL in Hnd, Hids, Hent.
  rewrite app_comm_cons in Hnd, Hids.
  destruct (NoDup_fmap_mid _ _ _ _ Hnd) as [Hnd' Hpe].
  destruct (NoDup_fmap_mid _ _ _ _ Hids) as [Hids' Hie].
  rewrite <- app_comm_cons in Hnd', Hpe, Hids', Hie.
  apply Forall_app in Hent as [Hent1 [Hee Hent2]%Forall_cons].
  destruct Hee as (_ & Hehd & _ & Helen).
  constructor; simpl.
  - apply Hr.
  - destruct (rep_head _ _ Hr) as [d Hd]. exists d. by rewrite Hhdr.
  - assert (Hall : Forall (entry_ok r) (reverse rp ++ post))
      by (apply Forall_app; by split).
    rewrite Forall_forall in Hall. apply Forall_forall.
    intros x Hx. destruct (Hall x Hx) as (Hx1 & ? & ? & ?).
    unfold entry_ok. simpl. split_and!; try done; try lia.
    rewrite Hhdr; [done|]. intros Heq. apply Hpe. rewrite <- Heq.
    rewrite fmap_cons. right. by apply list_elem_of_fmap_2.
  - by apply NoDup_cons in Hnd' as [_ ?].
  - done.
  - intros i p. rewrite lookup_delete_Some, (rep_byId _ _ Hr), HL.
    split.
    + intros (Hne & x & Hx & Hi & Hp). exists x. split; [|done].
      rewrite app_comm_cons in Hx. rewrite app_comm_cons.
      apply elem_of_app in Hx as [?|[->|?]%elem_of_cons].
      * apply elem_of_app. by left.
      * done.
      * apply elem_of_app. by right.
    + intros (x & Hx & Hi & Hp). split.
      * intros Heq. apply Hie. rewrite Heq, <- Hi.
        by apply list_elem_of_fmap_2.
      * exists x. split; [|done]. revert Hx. mem_simpl. tauto.
  - done.
  - rewrite (rep_len _ _ Hr), HL, !sum_len_app. simpl. wrap_solve.
  - split; [done|]. intros p Hp.
    destruct (rep_pool _ _ Hr) as [_ Hpl].
    destruct (Hpool p Hp) as [Hin| ->].
    + destruct (Hpl p Hin) as (? & Hnin & ?). split_and!; [done| |lia].
      intros Hin'. apply Hnin. rewrite HL. revert Hin'.
      rewrite !fmap_app, fmap_cons. mem_simpl. tauto.
    + split_and!; [done| |].
      * intros Hin. apply Hpe. rewrite fmap_cons. by right.
      * rewrite Hlen. destruct (rep_node r L (reverse (hdA :: reverse rp)) e post)
          as (n & Hn & _); [done| |by eapply lookup_lt_Some].
        rewrite HL. by list_norm.
Qed.

Lemma delete_entry_ok r L ra e post seek :
  rep r L → hdA :: L = reverse ra ++ e :: post → ra ≠ [] →
  (∀ k, (k < r_height r)%nat → seek !! k = Some (seek_of ra k)) →
  ∃ r' L', delete_entry r seek (a_ptr e) = Ret (r', a_id e, rec_of e)
    ∧ hdA :: L' = reverse ra ++ post
    ∧ rep r' L'
    ∧ r_height r' = r_height r
    ∧ r_lastId r' = r_lastId r
    ∧ r_len r' = isub (r_len r) (a_len e)
    ∧ r_byId r' = delete (a_id e) (r_byId r)
    ∧ length (r_heap r') = length (r_heap r).
Proof.
  intros Hr HF Hra Hsk.
  destruct (zip_head _ _ _ _ HF) as [(-> & _)|(rp & -> & HL)]; [done|].
  pose proof (rep_height _ _ Hr) as HH.
  pose proof (rep_F_ptrs _ _ Hr) as Hnd. rewrite HF in Hnd.
  assert (He : e ∈ L) by (rewrite HL; mem_solve).
  pose proof (rep_entries _ _ Hr) as Hent. rewrite Forall_forall in Hent.
  destruct (Hent e He) as (Hhdr & Hne & Hht & Hlen).
  destruct (hdr_inv _ _ _ _ _ Hhdr) as (en & Hen & Hid & Hdl & Hlv).
  unfold delete_entry. rewrite (deref_ok _ _ _ Hen). rewrite bind_Ret.
  rewrite Hid, Hdl. simpl dl_Len. simpl dl_Data.
  assert (∃ h1,
    match n_iterRef en with
    | Some ir =>
      do el <- level en 0;
      Ret (<[a_ptr e := set_iterRef
                          (Some (mkIterRef (ir_count ir) (l_prev el))) en]>
             (r_heap r))
    | None => Ret (r_heap r)
    end = Ret h1
    ∧ length h1 = length (r_heap r)
    ∧ (∀ q, hdr h1 q = hdr (r_heap r) q)
    ∧ (∀ q k, lvl h1 q k = lvl (r_heap r) q k))
    as (h1 & -> & Hlen1 & Hhdr1 & Hlvl1).
  { destruct (n_iterRef en) as [ir|].
    - destruct (lookup_lt_is_Some_2 (n_levels en) 0) as [l0 Hl0]; [lia|].
      rewrite (level_ok _ _ _ Hl0). rewrite bind_Ret.
      eexists. split_and!; [done | by rewrite length_insert | |].
      + intros q. by apply hdr_set_iterRef.
      + intros q k. by apply lvl_set_iterRef.
    - by exists (r_heap r). }
  rewrite bind_Ret. simpl.
  destruct (delete_levels_ok (r_height r) 0 h1 (rp ++ [hdA]) e post seek
    (a_id e) (a_data e)) as (h2 & -> & Hlen2 & Hhdr2 & _ & Hlev2).
  { done. }
  { intros k Hk. lia. }
  { intros k Hk. eapply lev_rep_ext; [intros; apply Hlvl1|].
    rewrite <- HF. apply (rep_levels _ _ Hr). lia. }
  { intros k Hk. apply first_above_head. lia. }
  { intros k Hk. apply Hsk. lia. }
  { by rewrite Hhdr1. }
  rewrite bind_Ret. unfold returnToPool. simpl.
  assert (hdr h2 (a_ptr e)
    = Some (a_id e, mkDataLen (a_len e) (a_data e), a_ht e)) as Hhdr2e.
  { by rewrite Hhdr2, Hhdr1. }
  destruct (hdr_inv _ _ _ _ _ Hhdr2e) as (en2 & Hen2 & _ & _ & Hlv2).
  rewrite Hen2. simpl.
  assert (HF' : hdA :: reverse rp ++ post = reverse (rp ++ [hdA]) ++ post)
    by (by list_norm).
  destruct (rep_pool _ _ Hr) as [Hpnd Hpool].
  case_decide as Hp.
  - eexists _, (reverse rp ++ post). split_and!; try done.
    2:{ simpl. congruence. }
    apply (rep_after_delete r L rp e post); try done.
    + congruence.
    + intros q _. by rewrite Hhdr2, Hhdr1.
    + intros k Hk. rewrite HF'. apply Hlev2. lia.
    + intros p ?. by left.
  - eexists _, (reverse rp ++ post). simpl. split_and!; try done.
    2:{ simpl. rewrite length_insert. congruence. }
    rope_simpl.
    apply (rep_after_delete r L rp e post); try done.
    + rewrite length_insert. congruence.
    + intros q Hq. rewrite hdr_insert_ne by done. by rewrite Hhdr2, Hhdr1.
    + intros k Hk. eapply lev_rep_ext; [|rewrite HF'; apply Hlev2; lia].
      intros x Hx. apply lvl_insert_ne. intros Heq.
      apply NoDup_fmap_mid in Hnd as [_ Hnin]. apply Hnin.
      rewrite <- Heq. rewrite HF' in Hx. by apply list_elem_of_fmap_2.
    + apply NoDup_app. split_and!; [done| |apply NoDup_singleton].
      intros p Hin [->|[]%elem_of_nil]%elem_of_cons.
      destruct (Hpool _ Hin) as (_ & Hnin & _). apply Hnin.
      by apply list_elem_of_fmap_2.
    + intros p [?|[->|[]%elem_of_nil]%elem_of_cons]%elem_of_app; auto.
Qed.

(** ** The delete loop *)

(** The entries a delete started after the anchor removes from [post], and
    those it leaves: it stops after the entry named [u], or at the end. *)
Fixpoint until (u : Id) (post : list anode) : list anode * list anode :=
  match post with
  | [] => ([], [])
  | e :: post' =>
    if decide (a_id e = u) then ([e], post')
    else let '(d, k) := until u post' in (e :: d, k)
  end.

Lemma until_app u post : (until u post).1 ++ (until u post).2 = post.
Proof.
  induction post as [|e post IH]; simpl; [done|].
  case_decide; [done|]. destruct (until u post). simpl in *. by rewrite IH.
Qed.

Lemma delete_loop_ok n r L a rpre post seek u removed :
  rep r L → hdA :: L = reverse (a :: rpre) ++ post →
  (∀ k, (k < r_height r)%nat → seek !! k = Some (seek_of (a :: rpre) k)) →
  (length post < n)%nat →
  ∃ r' L',
    delete_loop n r (a_ptr a) seek u removed
      = Ret (r', removed ++ (rec_of <$> (until u post).1))
    ∧ hdA :: L' = reverse (a :: rpre) ++ (until u post).2
    ∧ rep r' L'
    ∧ r_height r' = r_height r
    ∧ r_len r' = wrap (r_len r - sum_len (until u post).1)
    ∧ r_lastId r' =
        (if decide (u ∈ a_id <$> post) then r_lastId r else a_id a)
    ∧ length (r_heap r') = length (r_heap r).
Proof.
  revert r L post removed.
  induction n as [|n IH]; intros r L post removed Hr HF Hsk Hn; [lia|].
  assert (HFa : hdA :: L = reverse rpre ++ a :: post).
  { rewrite HF. by list_norm. }
  destruct (rep_node _ _ _ _ _ Hr HFa) as (an & Han & Hida & _ & Hla & _ & Hlva).
  pose proof (rep_height _ _ Hr) as HH.
  assert (1 ≤ a_ht a)%nat as Hha.
  { destruct (zip_head _ _ _ _ HFa) as [(_ & -> & _)|(rp' & -> & HL)].
    - simpl. unfold maxHeight. lia.
    - pose proof (rep_entries _ _ Hr) as Hent. rewrite Forall_forall in Hent.
      destruct (Hent a) as (_ & _ & ? & _); [|lia]. rewrite HL. mem_solve. }
  simpl. rewrite Han. simpl. unfold level. rewrite (Hlva 0%nat) by lia.
  simpl. destruct post as [|e post]; simpl.
  - exists (with_lastId (n_id an) r), L. rewrite app_nil_r. split_and!; try done.
    + destruct Hr. by constructor.
    + simpl. rewrite Z.sub_0_r. rewrite (rep_len _ _ Hr). by rewrite wrap_wrap.
  - assert (above 0 e = true) as He0.
    { apply above_lt. pose proof (rep_entries _ _ Hr) as Hent.
      rewrite Forall_forall in Hent.
      destruct (zip_head _ _ _ _ HFa) as [(_ & _ & <-)|(rp' & _ & HL)].
      - destruct (Hent e) as (_ & _ & ? & _); [left|lia].
      - destruct (Hent e) as (_ & _ & ? & _); [|lia]. rewrite HL. mem_solve. }
    rewrite He0. simpl.
    destruct (delete_entry_ok r L (a :: rpre) e post seek)
      as (r1 & L1 & -> & HF1 & Hr1 & Hh1 & Hl1 & Hn1 & Hb1 & Hlen1);
      [done..|].
    rewrite bind_Ret. case_decide as Hu.
    + exists r1, L1. split_and!; try done.
      * rewrite Hn1. simpl. unfold isub. f_equal. lia.
      * rewrite decide_True; [done|]. apply elem_of_cons. left. congruence.
    + destruct (IH r1 L1 post (removed ++ [rec_of e]))
        as (r2 & L2 & -> & HF2 & Hr2 & Hh2 & Hn2 & Hl2 & Hlen2); try done.
      * intros k Hk. apply Hsk. lia.
      * simpl in Hn. lia.
      * exists r2, L2. destruct (until u post) as [d k] eqn:Hd. simpl in *.
        split_and!; try done.
        -- by rewrite <- app_assoc.
        -- congruence.
        -- rewrite Hn2, Hn1. wrap_solve.
        -- rewrite Hl2, Hl1. destruct (decide (u ∈ a_id <$> post)).
           ++ rewrite decide_True; [done|]. apply elem_of_cons. by right.
           ++ rewrite decide_False; [done|].
              intros [?|?]%elem_of_cons; [congruence|done].
        -- congruence.
Qed.

End DeleteOk.

Section InsertOk.

Context `{RopeParams}.

(** ** The node of the new entry *)

Lemma take_node_ok r L insertId length data height :
  rep r L →
  ∃ h1 pool1 p,
    take_node r insertId length data height
      = Ret (with_pool pool1 (with_heap h1 r), p)
    ∧ p ≠ headp
    ∧ ¬ p ∈ (a_ptr <$> L)
    ∧ hdr h1 p = Some (insertId, mkDataLen length data, height)
    ∧ (∀ q, q ≠ p → hdr h1 q = hdr (r_heap r) q)
    ∧ (∀ q k, q ≠ p → lvl h1 q k = lvl (r_heap r) q k)
    ∧ (p < List.length h1)%nat
    ∧ (List.length (r_heap r) ≤ List.length h1)%nat
    ∧ NoDup pool1
    ∧ (∀ q, q ∈ pool1 → q ∈ r_nodePool r ∧ q ≠ p).
Proof.
  intros Hr. destruct (rep_pool _ _ Hr) as [Hpnd Hpool].
  unfold take_node. destruct (last (r_nodePool r)) as [p|] eqn:Hlast.
  - apply last_Some in Hlast as [pool' Hpl].
    destruct (Hpool p) as (Hp0 & HpL & Hplt); [rewrite Hpl; mem_solve|].
    destruct (lookup_lt_is_Some_2 _ _ Hplt) as [nn Hnn].
    rewrite (deref_ok _ _ _ Hnn). rewrite bind_Ret.
    rewrite Hpl, length_app. simpl.
    replace (List.length pool' + 1 - 1)%nat with (List.length pool') by lia.
    rewrite take_app_length.
    eexists _, pool', p. split_and!; try done.
    + unfold hdr. rewrite list_lookup_insert_eq by done. simpl.
      do 2 f_equal. rewrite length_take, length_app, length_replicate. lia.
    + intros q Hq. by apply hdr_insert_ne.
    + intros q k Hq. by apply lvl_insert_ne.
    + by rewrite length_insert.
    + by rewrite length_insert.
    + rewrite Hpl in Hpnd. by apply NoDup_app in Hpnd as (? & _ & _).
    + intros q Hq. rewrite Hpl in Hpnd.
      apply NoDup_app in Hpnd as (_ & Hd & _). split; [mem_solve|].
      intros ->. apply (Hd p Hq). left.
  - apply last_None in Hlast. rewrite Hlast in *.
    pose proof (rep_length _ _ Hr) as Hlen.
    eexists _, [], (List.length (r_heap r)). split_and!.
    + unfold with_pool, with_heap. simpl. by rewrite Hlast.
    + unfold headp. lia.
    + intros (x & Hx & Hin)%list_elem_of_fmap.
      destruct (zip_elem (hdA :: L) x) as (rp & po & HF); [by right|].
      destruct (rep_node _ _ _ _ _ Hr HF) as (n & Hn & _).
      apply lookup_lt_Some in Hn. lia.
    + unfold hdr. rewrite lookup_app_r by lia. rewrite Nat.sub_diag. simpl.
      by rewrite length_replicate.
    + intros q Hq. unfold hdr. destruct (decide (q < List.length (r_heap r))%nat).
      * by rewrite lookup_app_l.
      * rewrite !lookup_ge_None_2; [done|lia|]. rewrite length_app. simpl. lia.
    + intros q k Hq. unfold lvl.
      destruct (decide (q < List.length (r_heap r))%nat).
      * by rewrite lookup_app_l.
      * rewrite !lookup_ge_None_2; [done|lia|]. rewrite length_app. simpl. lia.
    + rewrite length_app. simpl. lia.
    + rewrite length_app. simpl. lia.
    + constructor.
    + intros q []%elem_of_nil.
Qed.

(** ** Linking the new entry at a level the list already has *)

Lemma insert_level_low_ok fl i r ra e post seek cseek :
  NoDup (a_ptr <$> (reverse ra ++ e :: post)) →
  lev_rep (r_heap r) i (reverse ra ++ post) →
  above i e = true →
  (i < r_height r)%nat →
  is_Some (first_above i ra) →
  seek !! i = Some (seek_of ra i) →
  is_Some (lvl (r_heap r) (a_ptr e) i) →
  ∃ h', insert_level fl i r seek cseek (a_ptr e) (a_len e)
          = Ret (with_heap h' r, cseek)
    ∧ List.length h' = List.length (r_heap r)
    ∧ (∀ q, hdr h' q = hdr (r_heap r) q)
    ∧ (∀ q k, k ≠ i → lvl h' q k = lvl (r_heap r) q k)
    ∧ lev_rep h' i (reverse ra ++ e :: post).
Proof.
  intros Hnd Hlev Hei HiH [s Hs] Hsk [le Hle].
  set (h := r_heap r) in *.
  destruct (first_above_Some _ _ _ Hs) as (rm & rp & Hra & Hrm & Hsi).
  assert (HFs : reverse ra ++ post = reverse rp ++ s :: (reverse rm ++ post)).
  { rewrite Hra. by list_norm. }
  assert (HFsd : reverse ra ++ e :: post
    = reverse rp ++ s :: (reverse rm ++ e :: post)).
  { rewrite Hra. by list_norm. }
  pose proof (Hlev _ _ _ HFs Hsi) as Hls.
  assert (Hse : a_ptr s ≠ a_ptr e).
  { intros Heq. ptr_ne Hnd HFsd Heq. }
  assert (Hrm' : below i (reverse rm)) by (by apply below_reverse).
  unfold canon in Hls. rewrite first_above_below, seg_len_below in Hls by done.
  rewrite sum_len_reverse in Hls.
  destruct (lvl_inv _ _ _ _ Hls) as (ns & Hns & Hnsi).
  unfold insert_level. rewrite decide_True by done.
  unfold seek_at. rewrite Hsk. simpl. unfold seek_of. rewrite Hs. simpl.
  fold h. rewrite Hns. simpl. rewrite (level_ok _ _ _ Hnsi). simpl.
  assert (∃ h1,
    match a_ptr <$> first_above i post with
    | Some _ => upd_level h (a_ptr <$> first_above i post) i
                  (set_prev (Some (a_ptr e)))
    | None => Ret h
    end = Ret h1
    ∧ List.length h1 = List.length h
    ∧ (∀ q, hdr h1 q = hdr h q)
    ∧ (∀ q k, k ≠ i → lvl h1 q k = lvl h q k)
    ∧ (∀ y pm po, post = pm ++ y :: po → below i pm → above i y = true →
         lvl h1 (a_ptr y) i
         = Some (set_prev (Some (a_ptr e)) (canon i (reverse pm ++ ra) y po)))
    ∧ (∀ q, (∀ y, first_above i post = Some y → q ≠ a_ptr y) →
         lvl h1 q i = lvl h q i))
    as (h1 & -> & Hlen1 & Hhdr1 & Hk1 & Hy1 & Ho1).
  { destruct (first_above i post) as [y|] eqn:Hy; simpl.
    - destruct (first_above_Some _ _ _ Hy) as (pm & po & Hpost & Hpm & Hyi).
      assert (HFy : reverse ra ++ post
        = reverse (reverse pm ++ ra) ++ y :: po).
      { rewrite Hpost. by list_norm. }
      pose proof (Hlev _ _ _ HFy Hyi) as Hly.
      destruct (upd_level_ok h (a_ptr y) i (set_prev (Some (a_ptr e))) _ Hly)
        as (h1 & -> & ? & ? & Hy' & Ho').
      exists h1. split_and!; [done..| | |].
      + intros q k Hk. apply Ho'. congruence.
      + intros y' pm' po' Hpost' Hpm' Hy'i.
        assert (y' = y) as ->.
        { rewrite Hpost', first_above_hit in Hy by done. congruence. }
        rewrite Hy'. do 2 f_equal.
        assert (HFy' : reverse ra ++ post
          = reverse (reverse pm' ++ ra) ++ y :: po').
        { rewrite Hpost'. by list_norm. }
        pose proof (Hlev _ _ _ HFy' Hy'i) as Hly'. congruence.
      + intros q Hq. apply Ho'. intros [= Heq]. by eapply Hq.
    - exists h. split_and!; try done.
      intros y pm po Hpost Hpm Hyi.
      rewrite Hpost, first_above_hit in Hy by done. done. }
  rewrite bind_Ret.
  assert (Hsy : ∀ y, first_above i post = Some y → a_ptr s ≠ a_ptr y).
  { intros y Hy Heq. ptr_ne Hnd HFsd Heq. }
  assert (Hey : ∀ y, first_above i post = Some y → a_ptr e ≠ a_ptr y).
  { intros y Hy Heq.
    assert (HFe : reverse ra ++ e :: post = reverse ra ++ e :: post) by done.
    ptr_ne Hnd HFe Heq. }
  assert (Hls1 : lvl h1 (a_ptr s) i = lvl h (a_ptr s) i) by (by apply Ho1).
  rewrite Hls in Hls1.
  destruct (lvl_inv _ _ _ _ Hls1) as (ns1 & Hns1 & Hns1i).
  rewrite Hns1. simpl. rewrite (level_ok _ _ _ Hns1i). simpl.
  assert (Hle1 : lvl h1 (a_ptr e) i = Some le) by (by rewrite Ho1).
  destruct (upd_level_ok h1 (a_ptr e) i
    (λ _, mkLevel (a_ptr <$> first_above i post) (Some (a_ptr s))
            (isub (iadd (a_len e) (wrap (a_len s + (sum_len rm + seg_len i post))))
               (wrap (a_len s + seg_len i ra)))) _ Hle1)
    as (h2 & -> & Hlen2 & Hhdr2 & He2 & Ho2).
  rewrite bind_Ret.
  assert (Hls2 : lvl h2 (a_ptr s) i = lvl h1 (a_ptr s) i)
    by (apply Ho2; congruence).
  rewrite Hls1 in Hls2.
  destruct (upd_level_ok h2 (a_ptr s) i (set_next (Some (a_ptr e))) _ Hls2)
    as (h3 & -> & Hlen3 & Hhdr3 & Hs3 & Ho3).
  rewrite bind_Ret.
  destruct (upd_level_ok h3 (a_ptr s) i
    (set_sub (wrap (a_len s + seg_len i ra))) _ Hs3)
    as (h4 & -> & Hlen4 & Hhdr4 & Hs4 & Ho4).
  rewrite bind_Ret.
  assert (Hother : ∀ q, q ≠ a_ptr s → q ≠ a_ptr e →
    (∀ y, first_above i post = Some y → q ≠ a_ptr y) →
    lvl h4 q i = lvl h q i).
  { intros q ? ? ?. rewrite Ho4, Ho3, Ho2 by congruence. by apply Ho1. }
  exists h4. split_and!.
  { done. }
  { congruence. }
  { intros q. by rewrite Hhdr4, Hhdr3, Hhdr2, Hhdr1. }
  { intros q k Hk. rewrite Ho4, Ho3, Ho2 by congruence. by apply Hk1. }
  intros rp' x po' HF' Hx.
  destruct (zip_app_cons_cases _ _ _ _ _ _ HF') as
    [(rm' & Hra' & ->)|[(-> & -> & ->)|(pm & Hpost & ->)]].
  - assert (HFx : reverse ra ++ post
      = reverse rp' ++ x :: (reverse rm' ++ post)).
    { rewrite Hra'. by list_norm. }
    pose proof (Hlev _ _ _ HFx Hx) as Hlx.
    destruct (first_above i rm') as [u|] eqn:Hu.
    + assert (u = s) as ->.
      { rewrite Hra' in Hs. rewrite (first_above_app_Some _ _ _ _ Hu) in Hs.
        congruence. }
      rewrite Hother.
      * rewrite Hlx. f_equal. apply canon_post_indep.
        apply first_above_reverse_ne. congruence.
      * intros Heq. ptr_ne Hnd HF' Heq.
      * intros Heq. ptr_ne Hnd HF' Heq.
      * intros y Hy Heq. ptr_ne Hnd HF' Heq.
    + apply first_above_None in Hu.
      assert (x = s) as ->.
      { rewrite Hra' in Hs. rewrite first_above_hit in Hs by done.
        congruence. }
      rewrite Hs4. f_equal.
      unfold canon in Hlx. rewrite Hls in Hlx. apply (inj Some) in Hlx.
      injection Hlx as _ Hprev _.
      unfold canon, set_sub, set_next. simpl. rewrite Hprev.
      apply below_reverse in Hu.
      rewrite !first_above_below, !seg_len_below by done. simpl.
      rewrite Hei. rewrite Hra', seg_len_hit by (done || by apply below_reverse).
      rewrite sum_len_reverse. f_equal. f_equal. lia.
  - rewrite Ho4, Ho3 by congruence. rewrite He2. f_equal.
    unfold canon. rewrite Hs. simpl. f_equal.
    rewrite Hra, seg_len_hit by done. wrap_solve.
  - assert (HFx : reverse ra ++ post
      = reverse (reverse pm ++ ra) ++ x :: po').
    { rewrite Hpost. by list_norm. }
    pose proof (Hlev _ _ _ HFx Hx) as Hlx.
    assert (Hxs : a_ptr x ≠ a_ptr s).
    { intros Heq. ptr_ne Hnd HF' Heq. }
    assert (Hxe : a_ptr x ≠ a_ptr e).
    { intros Heq. ptr_ne Hnd HF' Heq. }
    rewrite Ho4, Ho3, Ho2 by congruence.
    destruct (first_above i pm) as [u|] eqn:Hpm.
    + rewrite Ho1.
      2:{ intros y Hy. rewrite Hpost in Hy.
          rewrite (first_above_app_Some _ _ _ _ Hpm) in Hy.
          injection Hy as <-. intros Heq. ptr_ne Hnd HF' Heq. }
      rewrite Hlx. f_equal.
      apply canon_pre_indep. apply first_above_reverse_ne. congruence.
    + apply first_above_None in Hpm.
      rewrite (Hy1 _ _ _ Hpost Hpm Hx). f_equal.
      apply below_reverse in Hpm.
      unfold canon, set_prev. simpl.
      rewrite !first_above_below by done. simpl. by rewrite Hei.
Qed.

(** ** Adding the new length at a level above the new entry *)

Lemma bump_levels_ok n i h ra e post seek :
  NoDup (a_ptr <$> (reverse ra ++ e :: post)) →
  (∀ k, (i ≤ k < i + n)%nat → lev_rep h k (reverse ra ++ post)) →
  (∀ k, (i ≤ k < i + n)%nat → above k e = false) →
  (∀ k, (i ≤ k < i + n)%nat → is_Some (first_above k ra)) →
  (∀ k, (i ≤ k < i + n)%nat → seek !! k = Some (seek_of ra k)) →
  ∃ h', bump_levels n i h seek (a_len e) = Ret h'
    ∧ List.length h' = List.length h
    ∧ (∀ q, hdr h' q = hdr h q)
    ∧ (∀ q k, ¬ (i ≤ k < i + n)%nat → lvl h' q k = lvl h q k)
    ∧ (∀ k, (i ≤ k < i + n)%nat → lev_rep h' k (reverse ra ++ e :: post)).
Proof.
  intros Hnd. revert i h.
  induction n as [|n IH]; intros i h Hlev Hei Hfa Hsk; simpl.
  { exists h. split_and!; try done. intros k Hk. lia. }
  destruct (Hfa i) as [s Hs]; [lia|].
  destruct (first_above_Some _ _ _ Hs) as (rm & rp & Hra & Hrm & Hsi).
  assert (HFs : reverse ra ++ post = reverse rp ++ s :: (reverse rm ++ post)).
  { rewrite Hra. by list_norm. }
  assert (Hlevi : lev_rep h i (reverse ra ++ post)) by (apply Hlev; lia).
  pose proof (Hlevi _ _ _ HFs Hsi) as Hls.
  unfold seek_at. rewrite Hsk by lia. simpl. unfold seek_of at 1.
  rewrite Hs. simpl.
  destruct (upd_level_ok h (a_ptr s) i (add_sub (a_len e)) _ Hls)
    as (h1 & -> & Hlen1 & Hhdr1 & Hs1 & Ho1).
  rewrite bind_Ret.
  destruct (IH (S i) h1) as (h2 & -> & Hlen2 & Hhdr2 & Ho2 & Hlev2).
  { intros k Hk. eapply lev_rep_ext; [|apply Hlev; lia].
    intros x _. apply Ho1. intros [= _ ?]. lia. }
  { intros k Hk. apply Hei. lia. }
  { intros k Hk. apply Hfa. lia. }
  { intros k Hk. apply Hsk. lia. }
  assert (Hei' : above i e = false) by (apply Hei; lia).
  exists h2. split_and!; [done | congruence | | |].
  { intros q. by rewrite Hhdr2. }
  { intros q k Hk. rewrite Ho2 by lia. apply Ho1. intros [= _ ?]. lia. }
  intros k Hk. destruct (decide (k = i)) as [->|]; [|apply Hlev2; lia].
  eapply lev_rep_ext; [intros x _; apply Ho2; lia|].
  intros rp' x po' HF' Hx.
  destruct (zip_app_cons_cases _ _ _ _ _ _ HF') as
    [(rm' & Hra' & ->)|[(-> & -> & ->)|(pm & Hpost & ->)]].
  - assert (HFx : reverse ra ++ post
      = reverse rp' ++ x :: (reverse rm' ++ post)).
    { rewrite Hra'. by list_norm. }
    pose proof (Hlevi _ _ _ HFx Hx) as Hlx.
    destruct (first_above i rm') as [u|] eqn:Hu.
    + assert (u = s) as ->.
      { rewrite Hra' in Hs. rewrite (first_above_app_Some _ _ _ _ Hu) in Hs.
        congruence. }
      rewrite Ho1.
      2:{ intros [= Heq]. ptr_ne Hnd HF' Heq. }
      rewrite Hlx. f_equal. apply canon_post_indep.
      apply first_above_reverse_ne. congruence.
    + apply first_above_None in Hu.
      assert (x = s) as ->.
      { rewrite Hra' in Hs. rewrite first_above_hit in Hs by done.
        congruence. }
      rewrite Hs1. rewrite Hls in Hlx. apply (inj Some) in Hlx. rewrite Hlx.
      f_equal. unfold canon, add_sub, set_sub. simpl.
      apply below_reverse in Hu.
      rewrite !first_above_below, !seg_len_below by done. simpl.
      rewrite Hei'. f_equal. wrap_solve.
  - congruence.
  - assert (HFx : reverse ra ++ post
      = reverse (reverse pm ++ ra) ++ x :: po').
    { rewrite Hpost. by list_norm. }
    pose proof (Hlevi _ _ _ HFx Hx) as Hlx.
    rewrite Ho1.
    2:{ intros [= Heq]. assert (HFsd : reverse ra ++ e :: post
          = reverse rp ++ s :: (reverse rm ++ e :: post)).
        { rewrite Hra. by list_norm. }
        ptr_ne Hnd HFsd Heq. }
    rewrite Hlx. f_equal.
    destruct (first_above i (reverse pm)) eqn:Hpm.
    + apply canon_pre_indep. congruence.
    + apply first_above_None in Hpm. unfold canon.
      rewrite !first_above_below by done. simpl. by rewrite Hei'.
Qed.

(** ** The walk to the head along one level *)

Lemma climb_ok n h k L rp c po s0 :
  lev_rep h k (hdA :: L) →
  (∀ x, x ∈ L → a_ptr x ≠ headp) →
  (k < maxHeight)%nat →
  hdA :: L = reverse rp ++ c :: po →
  above k c = true →
  (List.length rp < n)%nat →
  climb n h (Some k) (mkSeek (Some (a_ptr c)) (wrap s0))
    = Ret (mkSeek (Some headp) (wrap (s0 + sum_len rp))).
Proof.
  intros Hlev Hne Hk. revert rp c po s0.
  induction n as [|n IH]; intros rp c po s0 HF Hc Hn; [lia|].
  destruct (zip_head _ _ _ _ HF) as [(-> & -> & _)|(rp' & Hrp & HL)].
  - simpl. try rewrite decide_True by done. do 3 f_equal. lia.
  - simpl. rewrite decide_False.
    2:{ intros [= Heq]. apply (Hne c); [|done]. rewrite HL. mem_solve. }
    pose proof (Hlev _ _ _ HF Hc) as Hlc.
    destruct (lvl_inv _ _ _ _ Hlc) as (cn & Hcn & Hcnk).
    rewrite Hcn. simpl. rewrite (level_ok _ _ _ Hcnk). simpl.
    destruct (first_above_head k rp') as [c' Hc']; [done|].
    rewrite <- Hrp in Hc'. rewrite Hc'. simpl.
    destruct (first_above_Some _ _ _ Hc') as (rm2 & rp2 & Hrp2 & Hrm2 & Hc'k).
    assert (HFc' : hdA :: L
      = reverse rp2 ++ c' :: (reverse rm2 ++ c :: po)).
    { rewrite HF, Hrp2. by list_norm. }
    pose proof (Hlev _ _ _ HFc' Hc'k) as Hlc'.
    destruct (lvl_inv _ _ _ _ Hlc') as (cn' & Hcn' & Hcn'k).
    rewrite Hcn'. simpl. rewrite (level_ok _ _ _ Hcn'k). simpl.
    rewrite seg_len_hit by (done || by apply below_reverse).
    rewrite sum_len_reverse.
    replace (iadd (wrap s0) (wrap (a_len c' + sum_len rm2)))
      with (wrap (s0 + a_len c' + sum_len rm2)) by wrap_solve.
    rewrite (IH rp2 c' _ _ HFc' Hc'k).
    + rewrite Hrp2, sum_len_app. simpl. do 3 f_equal. lia.
    + rewrite Hrp2, length_app in Hn. simpl in Hn. lia.
Qed.

(** ** Linking the new entry at a level the head does not have yet *)

Lemma below_not_above i l x : below i l → x ∈ l → above i x = true → False.
Proof.
  intros Hl Hx Hi. unfold below in Hl. rewrite Forall_forall in Hl.
  rewrite (Hl x Hx) in Hi. done.
Qed.

Lemma insert_level_high_ok fl i r ra' e post seek cseek d :
  NoDup (a_ptr <$> (reverse (ra' ++ [hdA]) ++ e :: post)) →
  r_height r = i → above i e = true → (i < maxHeight)%nat →
  below i ra' → below i post →
  hdr (r_heap r) headp = Some (zeroId, mkDataLen 0 d, i) →
  is_Some (lvl (r_heap r) (a_ptr e) i) →
  a_ptr e ≠ headp →
  (∃ cn, deref (r_heap r) (sk_node cseek) = Ret cn
     ∧ climb fl (r_heap r) (last_index (List.length (n_levels cn))) cseek
       = Ret (mkSeek (Some headp) (wrap (sum_len ra')))) →
  r_len r = wrap (sum_len ra' + sum_len post) →
  ∃ h', insert_level fl i r seek cseek (a_ptr e) (a_len e)
          = Ret (with_heap h' (with_height (S i) r),
                 mkSeek (Some headp) (wrap (sum_len ra')))
    ∧ List.length h' = List.length (r_heap r)
    ∧ (∀ q, q ≠ headp → hdr h' q = hdr (r_heap r) q)
    ∧ hdr h' headp = Some (zeroId, mkDataLen 0 d, S i)
    ∧ (∀ q k, k ≠ i → lvl h' q k = lvl (r_heap r) q k)
    ∧ lev_rep h' i (reverse (ra' ++ [hdA]) ++ e :: post).
Proof.
  intros Hnd HH Hei Hi Hra' Hpost Hhd [le Hle] Hne (cn & Hcn & Hcl) Hlen.
  destruct (hdr_inv _ _ _ _ _ Hhd) as (hn & Hhn & Hhid & Hhdl & Hhlv).
  unfold insert_level. rewrite decide_False by lia.
  rewrite Hcn. rewrite bind_Ret. rewrite Hcl. rewrite bind_Ret.
  rewrite (deref_ok _ _ _ Hhn). rewrite bind_Ret.
  cbn [r_heap r_len with_heap with_height sk_sub].
  set (new := mkLevel (Some (a_ptr e)) (Some headp) (wrap (sum_len ra'))).
  set (h1 := <[headp := set_levels (n_levels hn ++ [new]) hn]> (r_heap r)).
  assert (Hh0 : (headp < List.length (r_heap r))%nat)
    by (by eapply lookup_lt_Some).
  assert (Hle1 : lvl h1 (a_ptr e) i = Some le).
  { unfold h1. by rewrite lvl_insert_ne. }
  destruct (upd_level_ok h1 (a_ptr e) i
    (λ _, mkLevel None (Some headp)
            (iadd (isub (r_len r) (wrap (sum_len ra'))) (a_len e))) _ Hle1)
    as (h2 & -> & Hlen2 & Hhdr2 & He2 & Ho2).
  rewrite bind_Ret.
  assert (Hh1hd : ∀ k, lvl h1 headp k = (n_levels hn ++ [new]) !! k).
  { intros k. unfold lvl, h1. by rewrite list_lookup_insert_eq. }
  exists h2. split_and!.
  - rewrite HH. done.
  - rewrite Hlen2. unfold h1. by rewrite length_insert.
  - intros q Hq. rewrite Hhdr2. unfold h1. by apply hdr_insert_ne.
  - rewrite Hhdr2. unfold hdr, h1. rewrite list_lookup_insert_eq by done.
    simpl. rewrite Hhid, Hhdl, length_app, Hhlv. simpl.
    do 3 f_equal. lia.
  - intros q k Hk. rewrite Ho2 by congruence.
    destruct (decide (q = headp)) as [->|].
    + rewrite Hh1hd. unfold lvl. rewrite Hhn.
      destruct (decide (k < i)%nat).
      * apply lookup_app_l. lia.
      * rewrite !lookup_ge_None_2; [done|lia|].
        rewrite length_app. simpl. lia.
    + unfold h1. by apply lvl_insert_ne.
  - intros rp' x po' HF' Hx.
    assert (HF2 : hdA :: (reverse ra' ++ e :: post) = reverse rp' ++ x :: po').
    { rewrite <- HF'. by list_norm. }
    destruct (zip_head _ _ _ _ HF2) as [(-> & -> & ->)|(rp2 & -> & HL)].
    + rewrite Ho2 by (intros [= Heq]; by apply Hne).
      rewrite Hh1hd. rewrite lookup_app_r by lia.
      rewrite Hhlv, Nat.sub_diag. simpl. f_equal.
      unfold canon, new. simpl.
      apply below_reverse in Hra'.
      rewrite first_above_hit, seg_len_hit by done.
      rewrite sum_len_reverse. simpl. done.
    + destruct (zip_app_cons_cases _ _ _ _ _ _ HL) as
        [(rm' & Hra2 & ->)|[(-> & -> & ->)|(pm & Hpost2 & ->)]].
      * exfalso. eapply (below_not_above i ra'); [done| |done].
        rewrite Hra2. mem_solve.
      * rewrite He2. f_equal. unfold canon.
        apply first_above_None in Hpost as Hfp. rewrite Hfp. simpl.
        rewrite first_above_hit by (done || by apply above_hdA).
        simpl. f_equal. rewrite seg_len_all by done. rewrite Hlen.
        wrap_solve.
      * exfalso. eapply (below_not_above i post); [done| |done].
        rewrite Hpost2. mem_solve.
Qed.

Lemma climb_head n h link s :
  climb n h link (mkSeek (Some headp) s) = Ret (mkSeek (Some headp) s).
Proof. by destruct n. Qed.

Lemma hdr_lvl_is_Some h p i d n k :
  hdr h p = Some (i, d, n) → (k < n)%nat → is_Some (lvl h p k).
Proof.
  intros (nd & Hp & _ & _ & Hl)%hdr_inv Hk. unfold lvl. rewrite Hp.
  apply lookup_lt_is_Some. lia.
Qed.

End InsertOk.

(** ** The insert loops *)

Section InsertLoopOk.

Context `{RopeParams}.

Variables (ra' post : list anode) (e : anode) (H0 : nat).
Variables (seek : list ropeSeek) (len0 : Z) (byId0 : gmap Id ptr).
Variables (pool0 : list ptr) (last0 : Id) (d0 : T).

Hypothesis Hnd : NoDup (a_ptr <$> (reverse (ra' ++ [hdA]) ++ e :: post)).
Hypothesis HH0 : (1 ≤ H0 ≤ maxHeight)%nat.
Hypothesis Hhts : ∀ x, x ∈ ra' ++ post → (1 ≤ a_ht x ≤ H0)%nat.
Hypothesis Hhe : (1 ≤ a_ht e ≤ maxHeight)%nat.
Hypothesis Hseek :
  ∀ k, (k < H0)%nat → seek !! k = Some (seek_of (ra' ++ [hdA]) k).
Hypothesis Hlen0 : len0 = wrap (sum_len ra' + sum_len post).
Hypothesis Hne : ∀ x, x ∈ ra' ++ e :: post → a_ptr x ≠ headp.

Definition R (h : list ropeNode) (Hc : nat) : ropeImpl :=
  mkRope h len0 byId0 Hc pool0 last0.

Definition cseek_at (i : nat) : ropeSeek :=
  if decide (i ≤ H0)%nat then seek_of (ra' ++ [hdA]) (H0 - 1)
  else mkSeek (Some headp) (wrap (sum_len ra')).

Definition ins_inv (i : nat) (h : list ropeNode) : Prop :=
  (∀ k, (k < i)%nat → lev_rep h k (reverse (ra' ++ [hdA]) ++ e :: post))
  ∧ (∀ k, (i ≤ k < H0)%nat → lev_rep h k (reverse (ra' ++ [hdA]) ++ post))
  ∧ hdr h headp = Some (zeroId, mkDataLen 0 d0, (H0 `max` i)%nat)
  ∧ (∀ x, x ∈ ra' ++ e :: post →
       hdr h (a_ptr x) = Some (a_id x, mkDataLen (a_len x) (a_data x), a_ht x)).

Lemma below_H0 i x : (H0 ≤ i)%nat → x ∈ ra' ++ post → above i x = false.
Proof. intros Hi Hx. apply above_ge. specialize (Hhts x Hx). lia. Qed.

Lemma insert_levels_ok n i h fl :
  ins_inv i h → (i + n ≤ a_ht e)%nat → (List.length ra' < fl)%nat →
  ∃ h', insert_levels n fl i (R h (H0 `max` i)) seek (cseek_at i)
          (a_ptr e) (a_len e)
        = Ret (R h' (H0 `max` (i + n)), cseek_at (i + n))
    ∧ ins_inv (i + n) h'
    ∧ List.length h' = List.length h.
Proof.
  revert i h. induction n as [|n IH]; intros i h Hinv Hin Hfl; simpl.
  { exists h. rewrite Nat.add_0_r. done. }
  destruct Hinv as (Hlo & Hhi & Hhd & Hhdr).
  assert (Hei : above i e = true) by (apply above_lt; lia).
  assert (Hie : (i < maxHeight)%nat) by lia.
  assert (Hehdr : hdr h (a_ptr e)
    = Some (a_id e, mkDataLen (a_len e) (a_data e), a_ht e)).
  { apply Hhdr. mem_solve. }
  assert (Hslot : is_Some (lvl h (a_ptr e) i)).
  { eapply hdr_lvl_is_Some; [done|lia]. }
  assert (∃ h1, insert_level fl i (R h (H0 `max` i)) seek (cseek_at i)
                  (a_ptr e) (a_len e)
                = Ret (R h1 (H0 `max` S i), cseek_at (S i))
    ∧ ins_inv (S i) h1 ∧ List.length h1 = List.length h)
    as (h1 & -> & Hinv1 & Hlen1).
  { destruct (decide (i < H0)%nat) as [HiH|HiH].
    - destruct (insert_level_low_ok fl i (R h (H0 `max` i)) (ra' ++ [hdA])
        e post seek (cseek_at i)) as (h1 & -> & Hlen1 & Hhdr1 & Ho1 & Hl1);
        try done.
      + by apply Hhi.
      + simpl. lia.
      + by apply first_above_head.
      + by apply Hseek.
      + exists h1. split_and!.
        * unfold cseek_at. rewrite !decide_True by lia.
          replace (H0 `max` S i)%nat with (H0 `max` i)%nat by lia. done.
        * split_and!.
          -- intros k Hk. destruct (decide (k = i)) as [->|]; [done|].
             eapply lev_rep_ext; [|apply Hlo; lia]. intros x _. by apply Ho1.
          -- intros k Hk. eapply lev_rep_ext; [|apply Hhi; lia].
             intros x _. apply Ho1. lia.
          -- rewrite Hhdr1. simpl. rewrite Hhd. do 2 f_equal. lia.
          -- intros x Hx. rewrite Hhdr1. by apply Hhdr.
        * done.
    - assert (Hra' : below i ra').
      { apply Forall_forall. intros x Hx. apply below_H0; [lia|mem_solve]. }
      assert (Hpost : below i post).
      { apply Forall_forall. intros x Hx. apply below_H0; [lia|mem_solve]. }
      destruct (insert_level_high_ok fl i (R h (H0 `max` i)) ra' e post seek
        (cseek_at i) d0) as (h1 & -> & Hlen1 & Hhdr1 & Hhd1 & Ho1 & Hl1);
        try done.
      + simpl. lia.
      + simpl. rewrite Hhd. do 2 f_equal. lia.
      + apply Hne. mem_solve.
      + simpl. unfold cseek_at. case_decide as HiH0.
        * (* the first new level: walk up from the last seek entry *)
          assert (i = H0) as -> by lia.
          destruct (first_above_head (H0 - 1) ra') as [s Hs]; [lia|].
          destruct (first_above_Some _ _ _ Hs) as (rm & rp & Hra & Hrm & Hsk).
          assert (HFs : reverse (ra' ++ [hdA]) ++ e :: post
            = reverse rp ++ s :: (reverse rm ++ e :: post)).
          { rewrite Hra. by list_norm. }
          assert (Hlev : lev_rep h (H0 - 1)
            (reverse (ra' ++ [hdA]) ++ e :: post)) by (apply Hlo; lia).
          pose proof (Hlev _ _ _ HFs Hsk) as Hls.
          destruct (lvl_inv _ _ _ _ Hls) as (cn & Hcn & Hcnk).
          assert (List.length (n_levels cn) = H0) as Hcl.
          { assert (HF2 : hdA :: (reverse ra' ++ e :: post)
              = reverse rp ++ s :: (reverse rm ++ e :: post)).
            { rewrite <- HFs. by list_norm. }
            destruct (zip_head _ _ _ _ HF2) as [(_ & -> & _)|(rp2 & _ & HL)].
            - destruct (hdr_inv _ _ _ _ _ Hhd) as (hn & Hhn & _ & _ & Hhl).
              simpl in Hcn. replace cn with hn by congruence. lia.
            - assert (Hsin : s ∈ ra' ++ e :: post).
              { assert (s ∈ reverse ra' ++ e :: post)
                  by (rewrite HL; mem_solve).
                revert H1. mem_simpl. tauto. }
              destruct (hdr_inv _ _ _ _ _ (Hhdr s Hsin))
                as (sn & Hsn & _ & _ & Hsl).
              replace cn with sn by congruence. rewrite Hsl.
              apply above_lt in Hsk.
              assert (s ∈ ra' ++ post ∨ s = e) as [Hs'| ->]
                by (revert Hsin; mem_simpl; tauto).
              + specialize (Hhts s Hs'). lia.
              + exfalso. assert (HFe : reverse (ra' ++ [hdA]) ++ e :: post
                  = reverse (ra' ++ [hdA]) ++ e :: post) by done.
                assert (a_ptr e = a_ptr e) as Heq by done.
                rewrite HFs in Hnd.
                eapply (zip_ptr_ne _ _ _ e Hnd); [|done]. mem_solve. }
          exists cn. unfold seek_of. rewrite Hs. simpl. rewrite Hcn.
          split; [done|]. rewrite Hcl.
          replace (last_index H0) with (Some (H0 - 1)%nat)
            by (destruct H0; simpl; [lia | f_equal; lia]).
          rewrite (climb_ok fl h (H0 - 1) (reverse ra' ++ e :: post) rp s
            (reverse rm ++ e :: post)).
          -- rewrite Hra, seg_len_hit by done.
             assert (sum_len (ra' ++ [hdA]) = sum_len (rm ++ s :: rp))
               by (by rewrite Hra).
             rewrite !sum_len_app in H1. simpl in H1.
             do 3 f_equal. lia.
          -- assert (hdA :: reverse ra' ++ e :: post
               = reverse (ra' ++ [hdA]) ++ e :: post) as -> by (by list_norm).
             done.
          -- intros x Hx. apply Hne. revert Hx. mem_simpl. tauto.
          -- lia.
          -- rewrite <- HFs. by list_norm.
          -- done.
          -- assert (List.length (ra' ++ [hdA]) = List.length (rm ++ s :: rp))
               by (by rewrite Hra).
             rewrite !length_app in H1. simpl in H1. lia.
        * destruct (hdr_inv _ _ _ _ _ Hhd) as (hn & Hhn & _).
          exists hn. simpl. rewrite Hhn. split; [done|]. apply climb_head.
      + exists h1. split_and!.
        * unfold cseek_at. rewrite (decide_False (P := (S i ≤ H0)%nat)) by lia.
          replace (H0 `max` S i)%nat with (S i) by lia.
          replace (H0 `max` i)%nat with i by lia. done.
        * split_and!.
          -- intros k Hk. destruct (decide (k = i)) as [->|]; [done|].
             eapply lev_rep_ext; [|apply Hlo; lia]. intros x _. by apply Ho1.
          -- intros k Hk. lia.
          -- rewrite Hhd1. do 2 f_equal. lia.
          -- intros x Hx. rewrite Hhdr1; [by apply Hhdr|]. by apply Hne.
        * done. }
  rewrite bind_Ret.
  destruct (IH (S i) h1) as (h2 & -> & Hinv2 & Hlen2); [done|lia|done|].
  exists h2. replace (i + S n)%nat with (S i + n)%nat by lia.
  split_and!; [done|done|congruence].
Qed.

End InsertLoopOk.

Section InsertPhaseOk.

Context `{RopeParams}.

(** ** The insert phase *)

Lemma ra_split (L : list anode) ra post :
  hdA :: L = reverse ra ++ post → ra ≠ [] →
  ∃ ra', ra = ra' ++ [hdA] ∧ L = reverse ra' ++ post.
Proof.
  destruct ra as [|y ra' _] using rev_ind; [done|].
  list_norm. intros [= <- ->] _. eauto.
Qed.

(** The value [lastId] takes at the end of the insert phase. *)
Definition lastId_after_insert (after : ptr) (afterId : Id) (lastId : Id)
    (len' length : Z) (insertId : Id) : Id :=
  if decide (after = headp) then
    if decide (len' = length) then insertId else lastId
  else if decide (lastId = afterId) then insertId else lastId.

Lemma insert_phase_ok r L a rpre post seek insertId length data rnd :
  rep r L → hdA :: L = reverse (a :: rpre) ++ post →
  (∀ k, (k < r_height r)%nat → seek !! k = Some (seek_of (a :: rpre) k)) →
  List.length seek = r_height r →
  r_byId r !! insertId = None →
  0 ≤ length ≤ int_max →
  ∃ r' L' p,
    let e := mkA p insertId length data (randomHeight rnd) in
    insert_phase r (a_ptr a) seek (seek_of (a :: rpre) (r_height r - 1))
      insertId length data rnd = Ret r'
    ∧ hdA :: L' = reverse (a :: rpre) ++ e :: post
    ∧ rep r' L'
    ∧ r_len r' = iadd (r_len r) length
    ∧ r_byId r' = <[insertId := p]> (r_byId r)
    ∧ r_height r' = (r_height r `max` randomHeight rnd)%nat
    ∧ r_lastId r' =
        lastId_after_insert (a_ptr a) (a_id a) (r_lastId r)
          (iadd (r_len r) length) length insertId.
Proof.
  intros Hr HF Hsk Hsl Hfresh Hlen.
  destruct (ra_split _ _ _ HF) as (ra' & Hra & HL); [done|].
  pose proof (rep_height _ _ Hr) as HH.
  pose proof (randomHeight_range rnd) as Hrh.
  pose proof (rep_entries _ _ Hr) as Hent. rewrite Forall_forall in Hent.
  destruct (rep_head _ _ Hr) as [d0 Hhd].
  unfold insert_phase.
  destruct (take_node_ok r L insertId length data (randomHeight rnd) Hr)
    as (h1 & pool1 & p & -> & Hp0 & HpL & Hphdr & Hhdr1 & Hlvl1 & Hplt
        & Hlen1 & Hpnd1 & Hpool1).
  rewrite bind_Ret.
  set (e := mkA p insertId length data (randomHeight rnd)).
  set (H0 := r_height r) in *.
  assert (HinL : ∀ x, x ∈ ra' ++ post → x ∈ L).
  { intros x Hx. rewrite HL. revert Hx. mem_simpl. tauto. }
  assert (HpF : ∀ x, x ∈ hdA :: L → a_ptr x ≠ p).
  { intros x [->|Hx]%elem_of_cons; [done|].
    intros Heq. apply HpL. rewrite <- Heq. by apply list_elem_of_fmap_2. }
  assert (Hnd : NoDup (a_ptr <$> (reverse (ra' ++ [hdA]) ++ e :: post))).
  { pose proof (rep_F_ptrs _ _ Hr) as HndF. rewrite HL in HndF.
    assert (reverse (ra' ++ [hdA]) ++ e :: post
      = (hdA :: reverse ra') ++ e :: post) as -> by (by list_norm).
    rewrite <- Permutation_middle, fmap_cons. apply NoDup_cons. split; [|done].
    intros (x & Hx & Hin)%list_elem_of_fmap. apply (HpF x); [|done].
    rewrite HL. done. }
  assert (Hhts : ∀ x, x ∈ ra' ++ post → (1 ≤ a_ht x ≤ H0)%nat).
  { intros x Hx. by destruct (Hent x (HinL x Hx)) as (_ & _ & ? & _). }
  assert (Hhe : (1 ≤ a_ht e ≤ maxHeight)%nat) by done.
  assert (Hseek' : ∀ k, (k < H0)%nat →
    seek !! k = Some (seek_of (ra' ++ [hdA]) k)).
  { intros k Hk. rewrite <- Hra. by apply Hsk. }
  assert (Hlen0 : r_len r = wrap (sum_len ra' + sum_len post)).
  { rewrite (rep_len _ _ Hr), HL, sum_len_app, sum_len_reverse. done. }
  assert (Hne : ∀ x, x ∈ ra' ++ e :: post → a_ptr x ≠ headp).
  { intros x Hx.
    assert (x ∈ ra' ++ post ∨ x = e) as [Hx'| ->]
      by (revert Hx; mem_simpl; tauto); [|done].
    by destruct (Hent x (HinL x Hx')) as (_ & ? & _). }
  assert (Hinv0 : ins_inv ra' post e H0 d0 0 h1).
  { split_and!.
    - intros k Hk. lia.
    - intros k Hk. eapply lev_rep_ext.
      2:{ rewrite <- Hra, <- HF. apply (rep_levels _ _ Hr). lia. }
      intros x Hx. apply Hlvl1. apply HpF. rewrite HF, Hra. done.
    - rewrite Hhdr1 by done. rewrite Hhd. do 2 f_equal. lia.
    - intros x Hx.
      assert (x ∈ ra' ++ post ∨ x = e) as [Hx'| ->]
        by (revert Hx; mem_simpl; tauto); [|done].
      rewrite Hhdr1 by (apply HpF; right; by apply HinL).
      by destruct (Hent x (HinL x Hx')) as (? & _). }
  destruct (insert_levels_ok ra' post e H0 seek (r_len r)
    (<[insertId := p]> (r_byId r)) pool1 (r_lastId r) d0
    Hnd HH Hhts Hhe Hseek' Hlen0 Hne (randomHeight rnd) 0 h1
    (S (List.length h1))) as (h2 & Hh2 & Hinv2 & Hlen2).
  { done. }
  { simpl. lia. }
  { pose proof (rep_length _ _ Hr) as HlL. rewrite HL in HlL.
    rewrite length_app, length_reverse in HlL. lia. }
  replace (H0 `max` 0)%nat with H0 in Hh2 by lia.
  assert (Hseek0 : cseek_at ra' H0 0 = seek_of (a :: rpre) (H0 - 1)).
  { unfold cseek_at. rewrite decide_True by lia. by rewrite Hra. }
  rewrite Hseek0 in Hh2.
  change (insert_levels (randomHeight rnd) (S (List.length h1)) 0
    (R (r_len r) (<[insertId:=p]> (r_byId r)) pool1 (r_lastId r) h1 H0))
    with (insert_levels (randomHeight rnd)
      (fuel (with_byId (<[insertId:=p]> (r_byId (with_pool pool1 (with_heap h1 r))))
         (with_pool pool1 (with_heap h1 r)))) 0
      (with_byId (<[insertId:=p]> (r_byId (with_pool pool1 (with_heap h1 r))))
         (with_pool pool1 (with_heap h1 r)))) in Hh2.
  change (a_ptr e) with p in Hh2. change (a_len e) with length in Hh2.
  rewrite Hh2. rewrite bind_Ret. simpl Nat.add in *.
  destruct Hinv2 as (Hlo2 & Hhi2 & Hhd2 & Hhdr2).
  cbn [r_heap R].
  destruct (bump_levels_ok (List.length seek - randomHeight rnd)
    (randomHeight rnd) h2 (ra' ++ [hdA]) e post seek)
    as (h3 & Hh3 & Hlen3 & Hhdr3 & Ho3 & Hlev3).
  { done. }
  { intros k Hk. apply Hhi2. lia. }
  { intros k Hk. apply above_ge. simpl. lia. }
  { intros k Hk. apply first_above_head. lia. }
  { intros k Hk. apply Hseek'. lia. }
  change (a_len e) with length in Hh3. rewrite Hh3. rewrite bind_Ret.
  assert (HFa : hdA :: L = reverse rpre ++ a :: post).
  { rewrite HF. by list_norm. }
  assert (Hahdr : ∃ an, h3 !! a_ptr a = Some an ∧ n_id an = a_id a).
  { assert (∃ dd n, hdr h3 (a_ptr a) = Some (a_id a, dd, n))
      as (dd & n & (an & ? & ? & _)%hdr_inv); [|by eauto].
    rewrite Hhdr3.
    destruct (zip_head _ _ _ _ HFa) as [(_ & -> & _)|(rp' & _ & HLa)].
    - change (a_ptr hdA) with headp. rewrite Hhd2. eauto.
    - rewrite Hhdr2; [eauto|]. rewrite HL in HLa.
      assert (a ∈ reverse ra' ++ post) by (rewrite HLa; mem_solve).
      revert H1. mem_simpl. tauto. }
  destruct Hahdr as (an & Han & Hanid).
  set (L' := reverse ra' ++ e :: post).
  assert (HF' : hdA :: L' = reverse (a :: rpre) ++ e :: post).
  { rewrite Hra. unfold L'. by list_norm. }
  assert (Hrep : ∀ lid, rep
    (mkRope h3 (iadd (r_len r) length) (<[insertId := p]> (r_byId r))
       (H0 `max` randomHeight rnd) pool1 lid) L').
  { intros lid. constructor; simpl.
    - lia.
    - exists d0. rewrite Hhdr3, Hhd2. done.
    - apply Forall_forall. intros x Hx.
      assert (Hx2 : x ∈ ra' ++ e :: post)
        by (revert Hx; unfold L'; mem_simpl; tauto).
      unfold entry_ok. simpl. rewrite Hhdr3, (Hhdr2 x Hx2).
      split_and!; [done|by apply Hne|..].
      all: assert (x ∈ ra' ++ post ∨ x = e) as [Hx'| ->]
        by (revert Hx2; mem_simpl; tauto).
      all: try (destruct (Hent x (HinL x Hx')) as (_ & _ & ? & ?)).
      all: simpl; lia.
    - assert (a_ptr <$> (reverse (ra' ++ [hdA]) ++ e :: post)
        = a_ptr hdA :: (a_ptr <$> L')) as Heq by (unfold L'; by list_norm).
      rewrite Heq in Hnd. by apply NoDup_cons in Hnd as [_ ?].
    - pose proof (rep_ids _ _ Hr) as Hids. rewrite HL in Hids.
      change (NoDup (a_id <$> (hdA :: L'))).
      unfold L'. rewrite app_comm_cons, <- Permutation_middle, fmap_cons.
      apply NoDup_cons. split; [|done].
      intros (x & Hx & Hin)%list_elem_of_fmap.
      assert (r_byId r !! insertId = Some (a_ptr x)); [|congruence].
      apply (rep_byId _ _ Hr). exists x. rewrite HL. done.
    - intros i q. rewrite lookup_insert_Some, (rep_byId _ _ Hr). split.
      + intros [[<- <-]|(Hne' & x & Hx & Hi & Hq)].
        * exists e. split; [|done]. unfold L'. mem_solve.
        * exists x. split; [|done]. rewrite HL in Hx. revert Hx.
          unfold L'. mem_simpl. tauto.
      + intros (x & Hx & Hi & Hq).
        assert (x ∈ hdA :: L ∨ x = e) as [Hx'| ->].
        { rewrite HL. revert Hx. unfold L'. mem_simpl. tauto. }
        * right. split; [|eauto]. intros <-.
          assert (r_byId r !! insertId = Some (a_ptr x)); [|congruence].
          apply (rep_byId _ _ Hr). eauto.
        * left. by subst.
    - intros k Hk. rewrite HF', Hra.
      destruct (decide (k < randomHeight rnd)%nat).
      + eapply lev_rep_ext; [|apply Hlo2; lia]. intros x _. apply Ho3. lia.
      + apply Hlev3. lia.
    - rewrite Hlen0. unfold L'. rewrite sum_len_app, sum_len_reverse. simpl.
      wrap_solve.
    - split; [done|]. intros q Hq. destruct (Hpool1 q Hq) as [Hq1 Hq2].
      destruct (rep_pool _ _ Hr) as [_ Hpl].
      destruct (Hpl q Hq1) as (? & HqL & ?). split_and!; [done| |lia].
      unfold L'. rewrite fmap_app, fmap_cons. intros Hin. apply HqL.
      rewrite HL, fmap_app. revert Hin. simpl. mem_simpl. tauto. }
  unfold lastId_after_insert. simpl.
  case_decide as Hhead.
  - case_decide.
    + eexists _, L', p. split_and!; [done|done|apply Hrep|done..].
    + eexists _, L', p. split_and!; [done|done|apply Hrep|done..].
  - rewrite Han. simpl. rewrite Hanid. case_decide.
    + eexists _, L', p. split_and!; [done|done|apply Hrep|done..].
    + eexists _, L', p. split_and!; [done|done|apply Hrep|done..].
Qed.

End InsertPhaseOk.

Section SpliceOk.

Context `{RopeParams}.

(** ** splice *)

Lemma rep_with_lastId r L i : rep r L → rep (with_lastId i r) L.
Proof. intros []. by constructor. Qed.

Lemma rep_with_heap r L h :
  rep r L → List.length h = List.length (r_heap r) →
  (∀ q, hdr h q = hdr (r_heap r) q) →
  (∀ q k, lvl h q k = lvl (r_heap r) q k) →
  rep (with_heap h r) L.
Proof.
  intros [Hht Hhead Hent Hptrs Hids Hby Hlev Hl Hpool] Hlen Hhdr Hlvl.
  constructor; simpl; try done.
  - destruct Hhead as [d ?]. exists d. by rewrite Hhdr.
  - eapply Forall_impl; [done|]. intros x (? & ? & ? & ?).
    unfold entry_ok. simpl. by rewrite Hhdr.
  - intros j Hj. eapply lev_rep_ext; [|by apply Hlev].
    intros x _. apply Hlvl.
  - by rewrite Hlen.
Qed.

(** The entry an identifier of the index stands for. *)
Lemma rep_lookup r L i p :
  rep r L → r_byId r !! i = Some p →
  ∃ a rpre post,
    hdA :: L = reverse rpre ++ a :: post ∧ a_id a = i ∧ a_ptr a = p.
Proof.
  intros Hr (x & Hx & Hi & Hp)%(rep_byId _ _ Hr).
  destruct (zip_elem _ _ Hx) as (rpre & post & HF). eauto 10.
Qed.

Lemma rep_lookup_None r L i x :
  rep r L → r_byId r !! i = None → x ∈ hdA :: L → a_id x ≠ i.
Proof.
  intros Hr Hi Hx Heq.
  assert (r_byId r !! i = Some (a_ptr x)); [|congruence].
  apply (rep_byId _ _ Hr). eauto.
Qed.

Lemma rep_zero r L : rep r L → r_byId r !! zeroId = Some headp.
Proof. intros Hr. apply (rep_byId _ _ Hr). exists hdA. split; [left|done]. Qed.

(** What [splice] removes, and what it leaves after the anchor. *)
Definition removed_of (doDelete : bool) (u : Id) (post : list anode)
    : list anode :=
  if doDelete then (until u post).1 else [].

Definition rest_of (doDelete : bool) (u : Id) (post : list anode)
    : list anode :=
  if doDelete then (until u post).2 else post.

Lemma splice_ok_full r L a rpre post doDelete u doInsert insertId length data
    rnd :
  rep r L → hdA :: L = reverse rpre ++ a :: post →
  (doInsert = true → r_byId r !! insertId = None ∧ 0 ≤ length ≤ int_max) →
  ∃ r' L' p,
    splice r (a_ptr a) doDelete u doInsert insertId length data rnd
      = Ret (r', rec_of <$> removed_of doDelete u post, None)
    ∧ rep r' L'
    ∧ hdA :: L' =
        reverse rpre ++ a ::
          (if doInsert
           then [mkA p insertId length data (randomHeight rnd)] else [])
          ++ rest_of doDelete u post
    ∧ r_len r' =
        (if doInsert
         then iadd (wrap (r_len r - sum_len (removed_of doDelete u post))) length
         else wrap (r_len r - sum_len (removed_of doDelete u post)))
    ∧ (doDelete = false → doInsert = false → r' = r)
    ∧ (doDelete = false → doInsert = true →
       r_lastId r' =
         lastId_after_insert (a_ptr a) (a_id a) (r_lastId r)
           (iadd (r_len r) length) length insertId)
    ∧ (doDelete = true ∨ is_Some (r_byId r !! r_lastId r) →
       is_Some (r_byId r' !! r_lastId r'))
    ∧ (doDelete = true → doInsert = false →
       r_lastId r' =
         if decide (u ∈ a_id <$> post ∧ is_Some (r_byId r' !! r_lastId r))
         then r_lastId r else a_id a).
Proof.
  intros Hr HF Hins.
  pose proof (rep_height _ _ Hr) as HH.
  assert (HFa : hdA :: L = reverse (a :: rpre) ++ post) by (by list_norm).
  destruct (rep_node _ _ _ _ _ Hr HF) as (an & Han & Hida & Hlena & _).
  unfold splice. rewrite decide_False by lia.
  rewrite (deref_ok _ _ _ Han). rewrite bind_Ret. rewrite Hlena.
  destruct (seek_loop_ok r L (fuel r) [] a rpre post
    (replicate (r_height r) (mkSeek None 0)) 0)
    as (seek & Hseek & Hsl & Hsk); try done.
  { constructor. }
  { lia. }
  { lia. }
  { by rewrite length_replicate. }
  { intros j Hj. lia. }
  { pose proof (rep_length _ _ Hr) as Hl.
    assert (List.length (hdA :: L) = List.length (reverse rpre ++ a :: post))
      as Hl2 by (by rewrite HF).
    rewrite length_app, length_reverse in Hl2. simpl in Hl2.
    unfold fuel. lia. }
  simpl sum_len in Hseek. rewrite Z.add_0_r in Hseek.
  replace (wrap (a_len a)) with (a_len a) in Hseek.
  2:{ symmetry. apply wrap_id.
      destruct (zip_head _ _ _ _ HF) as [(_ & -> & _)|(rp & _ & HL)].
      - simpl. unfold int_min, int_max. lia.
      - pose proof (rep_entries _ _ Hr) as Hent.
        rewrite Forall_forall in Hent.
        destruct (Hent a) as (_ & _ & _ & ?); [rewrite HL; mem_solve|].
        unfold int_min. lia. }
  simpl app in Hseek. rewrite Hseek. rewrite bind_Ret.
  (* the delete phase *)
  assert (∃ r1 L1,
    (if doDelete then delete_phase r (a_ptr a) seek u else Ret (r, []))
      = Ret (r1, rec_of <$> removed_of doDelete u post)
    ∧ rep r1 L1
    ∧ hdA :: L1 = reverse (a :: rpre) ++ rest_of doDelete u post
    ∧ r_height r1 = r_height r
    ∧ r_len r1 = wrap (r_len r - sum_len (removed_of doDelete u post))
    ∧ (∀ i, r_byId r !! i = None → r_byId r1 !! i = None)
    ∧ (doDelete = false → r1 = r)
    ∧ (doDelete = true →
       is_Some (r_byId r1 !! r_lastId r1)
       ∧ r_lastId r1 =
           if decide (u ∈ a_id <$> post ∧ is_Some (r_byId r1 !! r_lastId r))
           then r_lastId r else a_id a))
    as (r1 & L1 & -> & Hr1 & HF1 & Hh1 & Hlen1 & Hby1 & Hsame1 & Hdel1).
  { destruct doDelete; simpl.
    - unfold delete_phase.
      destruct (delete_loop_ok (fuel r) r L a rpre post seek u [])
        as (r1 & L1 & -> & HF1 & Hr1 & Hh1 & Hl1 & Hlast1 & _); try done.
      { pose proof (rep_length _ _ Hr) as Hl.
        assert (List.length (hdA :: L) = List.length (reverse rpre ++ a :: post))
          as Hl2 by (by rewrite HF).
        rewrite length_app, length_reverse in Hl2. simpl in Hl2.
        unfold fuel. lia. }
      rewrite bind_Ret. simpl.
      assert (Hby : ∀ i, r_byId r !! i = None → r_byId r1 !! i = None).
      { intros i Hi. destruct (r_byId r1 !! i) as [q|] eqn:Hq; [|done].
        apply (rep_byId _ _ Hr1) in Hq as (x & Hx & Hxi & _).
        exfalso. eapply (rep_lookup_None r L i x Hr Hi); [|done].
        rewrite HFa, <- (until_app u post). rewrite HF1 in Hx.
        revert Hx. mem_simpl. tauto. }
      assert (HF1a : hdA :: L1
        = reverse rpre ++ a :: (until u post).2) by (rewrite HF1; by list_norm).
      assert (Halive : r_byId r1 !! a_id a = Some (a_ptr a)).
      { apply (rep_byId _ _ Hr1). exists a. split; [|done].
        rewrite HF1a. mem_solve. }
      destruct (r_byId r1 !! r_lastId r1) as [q|] eqn:Hq.
      + exists r1, L1. split_and!; try done.
        intros _. split; [by rewrite Hq|].
        destruct (decide (u ∈ a_id <$> post)) as [Hu|Hu].
        * rewrite Hlast1 in Hq |- *.
          rewrite decide_True; [done|]. split; [done|]. by rewrite Hq.
        * rewrite Hlast1. by rewrite decide_False by tauto.
      + destruct (rep_node _ _ _ _ _ Hr1 HF1a) as (an1 & Han1 & Hid1 & _).
        rewrite Han1. simpl.
        exists (with_lastId (n_id an1) r1), L1. split_and!; try done.
        { by apply rep_with_lastId. }
        intros _. simpl. rewrite Hid1. split; [by rewrite Halive|].
        rewrite decide_False; [done|]. intros [Hu [? Hs]].
        destruct (decide (u ∈ a_id <$> post)); [|done].
        rewrite Hlast1 in Hq. congruence.
    - exists r, L. split_and!; try done.
      rewrite Z.sub_0_r. rewrite (rep_len _ _ Hr). by rewrite wrap_wrap. }
  rewrite bind_Ret.
  destruct doInsert; simpl.
  - destruct Hins as [Hfresh Hlen]; [done|].
    destruct (insert_phase_ok r1 L1 a rpre (rest_of doDelete u post) seek
      insertId length data rnd)
      as (r2 & L2 & p & Hr2 & HF2 & Hrep2 & Hl2 & Hby2 & _ & Hlast2);
      try done.
    { intros k Hk. apply Hsk. lia. }
    { congruence. }
    { by apply Hby1. }
    rewrite Hh1 in Hr2. rewrite Hr2. rewrite bind_Ret.
    exists r2, L2, p. split_and!; try done.
    + rewrite HF2. by list_norm.
    + by rewrite Hl2, Hlen1.
    + intros -> _. rewrite Hlast2. by rewrite (Hsame1 eq_refl).
    + intros Hlive. rewrite Hby2, Hlast2.
      assert (is_Some (r_byId r1 !! r_lastId r1)) as Hlive1.
      { destruct doDelete; [by apply Hdel1|].
        rewrite (Hsame1 eq_refl). by destruct Hlive. }
      unfold lastId_after_insert. rewrite !lookup_insert_is_Some.
      repeat case_decide; destruct (decide (insertId = r_lastId r1)); tauto.
  - exists r1, L1, 0%nat. split_and!; try done.
    + rewrite HF1. by list_norm.
    + intros -> _. by rewrite Hsame1.
    + intros Hlive. destruct doDelete; [by apply Hdel1|].
      rewrite (Hsame1 eq_refl). by destruct Hlive.
    + intros -> _. by apply Hdel1.
Qed.

Lemma splice_ok r L a rpre post doDelete u doInsert insertId length data rnd :
  rep r L → hdA :: L = reverse rpre ++ a :: post →
  (doInsert = true → r_byId r !! insertId = None ∧ 0 ≤ length ≤ int_max) →
  ∃ r' L' p,
    splice r (a_ptr a) doDelete u doInsert insertId length data rnd
      = Ret (r', rec_of <$> removed_of doDelete u post, None)
    ∧ rep r' L'
    ∧ hdA :: L' =
        reverse rpre ++ a ::
          (if doInsert
           then [mkA p insertId length data (randomHeight rnd)] else [])
          ++ rest_of doDelete u post
    ∧ r_len r' =
        (if doInsert
         then iadd (wrap (r_len r - sum_len (removed_of doDelete u post))) length
         else wrap (r_len r - sum_len (removed_of doDelete u post)))
    ∧ (doDelete = false → doInsert = false → r' = r)
    ∧ (doDelete = false → doInsert = true →
       r_lastId r' =
         lastId_after_insert (a_ptr a) (a_id a) (r_lastId r)
           (iadd (r_len r) length) length insertId).
Proof.
  intros Hr HF Hins.
  destruct (splice_ok_full r L a rpre post doDelete u doInsert insertId length
    data rnd Hr HF Hins) as (r' & L' & p & ? & ? & ? & ? & ? & ? & _).
  exists r', L', p. by split_and!.
Qed.

End SpliceOk.

Section Reads.

Context `{RopeParams}.

(** ** Find *)

Lemma rep_entry_ht r L rp x po :
  rep r L → hdA :: L = reverse rp ++ x :: po → rp ≠ [] →
  x ∈ L ∧ a_ptr x ≠ headp ∧ (1 ≤ a_ht x ≤ r_height r)%nat
  ∧ 0 ≤ a_len x ≤ int_max.
Proof.
  intros Hr HF Hrp.
  destruct (zip_head _ _ _ _ HF) as [(-> & _)|(rp' & _ & HL)]; [done|].
  assert (x ∈ L) as Hx by (rewrite HL; mem_solve).
  pose proof (rep_entries _ _ Hr) as Hent. rewrite Forall_forall in Hent.
  by destruct (Hent x Hx) as (_ & ? & ? & ?).
Qed.

Lemma Find_loop_ok r L n rp x po s0 :
  rep r L → hdA :: L = reverse rp ++ x :: po → (List.length rp < n)%nat →
  Find_loop n (r_heap r) (Some (a_ptr x)) (wrap s0)
    = Ret (wrap (s0 + sum_len rp)).
Proof.
  intros Hr. pose proof (rep_height _ _ Hr) as HH.
  revert rp x po s0.
  induction n as [|n IH]; intros rp x po s0 HF Hn; [lia|].
  destruct (zip_head _ _ _ _ HF) as [(-> & -> & _)|(rp' & Hrp & HL)].
  - simpl. do 2 f_equal. lia.
  - destruct (rep_entry_ht _ _ _ _ _ Hr HF) as (Hx & Hxh & Hht & _).
    { rewrite Hrp. by destruct rp'. }
    simpl. rewrite decide_False by congruence.
    destruct (rep_node _ _ _ _ _ Hr HF) as (nd & Hnd & _ & _ & Hnl & _ & Hlv).
    rewrite Hnd. simpl. rewrite Hnl.
    replace (a_ht x `min` r_height r)%nat with (S (a_ht x - 1)) in * by lia.
    simpl. unfold level. rewrite (Hlv (a_ht x - 1)%nat) by lia. simpl.
    destruct (first_above_head (a_ht x - 1) rp') as [c Hc]; [lia|].
    rewrite <- Hrp in Hc. rewrite Hc. simpl.
    destruct (first_above_Some _ _ _ Hc) as (rm & rp2 & Hrp2 & Hrm & Hck).
    assert (HFc : hdA :: L = reverse rp2 ++ c :: (reverse rm ++ x :: po)).
    { rewrite HF, Hrp2. by list_norm. }
    destruct (rep_node _ _ _ _ _ Hr HFc) as (nc & Hnc & _ & _ & _ & _ & Hlvc).
    rewrite Hnc. simpl. apply above_lt in Hck.
    rewrite (Hlvc (a_ht x - 1)%nat) by lia. simpl.
    rewrite seg_len_hit; [|by apply below_reverse|apply above_lt; lia].
    rewrite sum_len_reverse.
    replace (iadd (wrap s0) (wrap (a_len c + sum_len rm)))
      with (wrap (s0 + a_len c + sum_len rm)) by wrap_solve.
    rewrite (IH rp2 c _ _ HFc).
    + rewrite Hrp2, sum_len_app. simpl. do 2 f_equal. lia.
    + rewrite Hrp2, length_app in Hn. simpl in Hn. lia.
Qed.

Lemma zip_length r L rp x po :
  rep r L → hdA :: L = reverse rp ++ x :: po →
  (List.length rp + List.length po < List.length (r_heap r))%nat.
Proof.
  intros Hr HF. pose proof (rep_length _ _ Hr) as Hl.
  assert (List.length (hdA :: L) = List.length (reverse rp ++ x :: po))
    as Hl2 by (by rewrite HF).
  rewrite length_app, length_reverse in Hl2. simpl in Hl2. lia.
Qed.

Lemma Find_ok r L rp x po :
  rep r L → hdA :: L = reverse rp ++ x :: po →
  Find r (a_id x) = Ret (wrap (sum_len rp + a_len x)).
Proof.
  intros Hr HF. unfold Find.
  assert (r_byId r !! a_id x = Some (a_ptr x)) as ->.
  { apply (rep_byId _ _ Hr). exists x. split; [|done]. rewrite HF. mem_solve. }
  change 0 with (wrap 0) at 1.
  rewrite (Find_loop_ok r L _ rp x po 0 Hr HF).
  2:{ pose proof (zip_length _ _ _ _ _ Hr HF). unfold fuel. lia. }
  rewrite bind_Ret.
  destruct (rep_node _ _ _ _ _ Hr HF) as (nd & Hnd & _ & Hlen & _).
  rewrite (deref_ok _ _ _ Hnd). rewrite bind_Ret. rewrite Hlen.
  f_equal. wrap_solve.
Qed.

(** ** ByPosition, stopping before zero-length content *)

Definition nonneg (l : list anode) : Prop := Forall (λ y, 0 ≤ a_len y) l.

Lemma rep_nonneg r L : rep r L → nonneg (hdA :: L).
Proof.
  intros Hr. constructor; [done|].
  eapply Forall_impl; [apply (rep_entries _ _ Hr)|].
  by intros x (_ & _ & _ & ? & _).
Qed.

Lemma nonneg_app l1 l2 : nonneg (l1 ++ l2) ↔ nonneg l1 ∧ nonneg l2.
Proof. apply Forall_app. Qed.

Lemma seg_len_bounds j l : nonneg l → 0 ≤ seg_len j l ≤ sum_len l.
Proof.
  induction 1 as [|x l Hx Hl IH]; simpl; [lia|].
  pose proof (sum_len_nonneg l Hl). destruct (above j x); lia.
Qed.

Lemma sum_len_last_pos l t :
  nonneg l → last l = Some t → 0 < a_len t → 0 < sum_len l.
Proof.
  intros Hl [l' ->]%last_Some Ht. apply nonneg_app in Hl as [Hl' _].
  rewrite sum_len_app. simpl. pose proof (sum_len_nonneg l' Hl'). lia.
Qed.

Lemma bp_advance_ok r L m lv rp x seg pt t :
  rep r L → sum_len L ≤ int_max →
  hdA :: L = reverse rp ++ x :: seg ++ pt →
  last (x :: seg) = Some t → 0 < a_len t →
  (lv < a_ht x `min` r_height r)%nat →
  (List.length seg < m)%nat →
  ∃ rp' y seg',
    bp_advance m (r_heap r) lv (a_ptr x) (a_len x + sum_len seg)
      = Ret (false, a_ptr y, a_len y + sum_len seg')
    ∧ hdA :: L = reverse rp' ++ y :: seg' ++ pt
    ∧ last (y :: seg') = Some t
    ∧ below lv seg'
    ∧ (lv < a_ht y `min` r_height r)%nat
    ∧ (List.length seg' ≤ List.length seg)%nat.
Proof.
  intros Hr Hmax. pose proof (rep_nonneg _ _ Hr) as Hnn.
  revert rp x seg.
  induction m as [|m IH]; intros rp x seg HF Hlast Ht Hx Hm; [lia|].
  destruct (rep_node _ _ _ _ _ Hr HF) as (nd & Hnd & _ & _ & _ & _ & Hlv).
  simpl. rewrite Hnd. simpl. unfold level. rewrite (Hlv lv Hx). simpl.
  rewrite HF in Hnn.
  apply nonneg_app in Hnn as [Hnrp [Hnx [Hnseg Hnpt]%nonneg_app]%Forall_cons].
  assert (Htot : sum_len (hdA :: L)
    = sum_len rp + (a_len x + (sum_len seg + sum_len pt))).
  { rewrite HF, sum_len_app, sum_len_reverse. simpl.
    by rewrite sum_len_app. }
  simpl in Htot.
  pose proof (sum_len_nonneg _ Hnseg) as Hs1.
  pose proof (sum_len_nonneg _ Hnpt) as Hs2.
  assert (Hs0 : 0 ≤ sum_len rp).
  { rewrite <- sum_len_reverse. by apply sum_len_nonneg. }
  destruct (first_above lv seg) as [y|] eqn:Hy.
  - (* an entry with a level [lv] stands before the target: step to it *)
    destruct (first_above_Some _ _ _ Hy) as (s1 & s2 & Hseg & Hs1b & Hylv).
    rewrite (first_above_app_Some _ _ _ _ Hy).
    rewrite (seg_len_app_Some _ _ _ _ Hy).
    rewrite Hseg, seg_len_hit by done.
    rewrite Hseg in Hnseg.
    apply nonneg_app in Hnseg as [Hn1 Hn2].
    pose proof (sum_len_nonneg _ Hn1) as Hp1.
    assert (Hlast' : last (y :: s2) = Some t).
    { rewrite Hseg, app_comm_cons, last_app in Hlast.
      destruct (last (y :: s2)) eqn:E; [done|]. by apply last_None in E. }
    pose proof (sum_len_last_pos _ _ Hn2 Hlast' Ht) as Hpos.
    rewrite Hseg, sum_len_app in Htot, Hs1. simpl in Htot, Hpos, Hs1.
    rewrite sum_len_app. simpl.
    rewrite (wrap_id (a_len x + sum_len s1)) by (unfold int_min; lia).
    rewrite decide_True by lia. simpl.
    replace (isub (a_len x + (sum_len s1 + (a_len y + sum_len s2)))
                  (a_len x + sum_len s1))
      with (a_len y + sum_len s2).
    2:{ unfold isub. rewrite wrap_id; [lia|unfold int_min; lia]. }
    assert (HFy : hdA :: L
      = reverse (reverse s1 ++ x :: rp) ++ y :: s2 ++ pt).
    { rewrite HF, Hseg. by list_norm. }
    destruct (IH (reverse s1 ++ x :: rp) y s2 HFy Hlast' Ht)
      as (rp' & z & seg' & -> & ? & ? & ? & ? & ?).
    + apply above_lt in Hylv. lia.
    + rewrite Hseg, length_app in Hm. simpl in Hm. lia.
    + exists rp', z, seg'. split_and!; try done.
      rewrite length_app. simpl. lia.
  - (* no such entry: the loop stops here *)
    apply first_above_None in Hy.
    rewrite seg_len_below by done.
    pose proof (seg_len_bounds lv pt Hnpt) as Hb.
    rewrite wrap_id by (unfold int_min; lia).
    rewrite decide_False by lia.
    exists rp, x, seg. split_and!; try done.
Qed.

Lemma bp_descend_ok r L n fl rp x seg pt t :
  rep r L → sum_len L ≤ int_max →
  hdA :: L = reverse rp ++ x :: seg ++ pt →
  last (x :: seg) = Some t → 0 < a_len t →
  below n seg →
  (n ≤ a_ht x `min` r_height r)%nat →
  (List.length seg < fl)%nat →
  bp_descend n fl (r_heap r) false (a_ptr x) (a_len x + sum_len seg)
    = Ret (a_ptr t, a_len t).
Proof.
  intros Hr Hmax. revert rp x seg.
  induction n as [|n IH]; intros rp x seg HF Hlast Ht Hseg Hx Hfl.
  - assert (seg = []) as ->.
    { destruct seg as [|y seg]; [done|]. exfalso.
      apply Forall_cons in Hseg as [Hy _]. apply above_ge in Hy.
      assert (HFy : hdA :: L = reverse (x :: rp) ++ y :: seg ++ pt).
      { rewrite HF. by list_norm. }
      destruct (rep_entry_ht _ _ _ _ _ Hr HFy) as (_ & _ & ? & _); [done|].
      lia. }
    simpl in *. injection Hlast as ->. do 2 f_equal. lia.
  - simpl.
    destruct (bp_advance_ok r L fl n rp x seg pt t)
      as (rp' & y & seg' & -> & HF' & Hlast' & Hb' & Hy & Hlen');
      [done..|lia|done|].
    rewrite bind_Ret. apply (IH rp' y seg'); try done; lia.
Qed.

Lemma ByPosition_Find_ok r L rp x po :
  rep r L → sum_len L ≤ int_max →
  hdA :: L = reverse rp ++ x :: po → 0 < a_len x →
  ByPosition r (wrap (sum_len rp + a_len x)) false = Ret (a_id x, 0).
Proof.
  intros Hr Hmax HF Hx.
  pose proof (rep_height _ _ Hr) as HH.
  pose proof (rep_nonneg _ _ Hr) as Hnn.
  destruct (zip_head _ _ _ _ HF) as [(_ & -> & _)|(rp' & -> & HL)];
    [simpl in Hx; lia|].
  rewrite HF in Hnn.
  apply nonneg_app in Hnn as [Hnrp [_ Hnpo]%Forall_cons].
  pose proof (sum_len_nonneg _ Hnrp) as Hs1.
  pose proof (sum_len_nonneg _ Hnpo) as Hs2.
  rewrite sum_len_reverse in Hs1.
  assert (Htot : sum_len L = sum_len (rp' ++ [hdA]) + a_len x + sum_len po).
  { rewrite HL, sum_len_app, sum_len_reverse, !sum_len_app. simpl. lia. }
  rewrite wrap_id by (unfold int_min; lia).
  unfold ByPosition. rewrite decide_False by lia.
  rewrite (rep_len _ _ Hr), (wrap_id (sum_len L)).
  2:{ unfold int_min. lia. }
  rewrite decide_False by (intros [?|[? _]]; [lia|done]).
  assert (HF2 : hdA :: L = reverse [] ++ hdA :: (reverse rp' ++ [x]) ++ po).
  { rewrite HL. by list_norm. }
  replace (sum_len (rp' ++ [hdA]) + a_len x)
    with (a_len hdA + sum_len (reverse rp' ++ [x])).
  2:{ rewrite !sum_len_app, sum_len_reverse. simpl. lia. }
  assert (Hd : bp_descend (r_height r) (fuel r) (r_heap r) false headp
    (a_len hdA + sum_len (reverse rp' ++ [x])) = Ret (a_ptr x, a_len x)).
  { apply (bp_descend_ok r L (r_height r) (fuel r) [] hdA
      (reverse rp' ++ [x]) po x Hr Hmax HF2).
    - rewrite app_comm_cons, last_app. done.
    - done.
    - apply Forall_forall. intros y Hy. apply above_ge.
      pose proof (rep_entries _ _ Hr) as Hent. rewrite Forall_forall in Hent.
      destruct (Hent y) as (_ & _ & ? & _); [|lia].
      rewrite HL. revert Hy. mem_simpl. tauto.
    - change (a_ht hdA) with maxHeight. lia.
    - pose proof (rep_length _ _ Hr) as Hl. rewrite HL in Hl.
      rewrite !length_app, length_reverse in *. simpl in *. unfold fuel. lia. }
  rewrite Hd. rewrite bind_Ret.
  destruct (rep_node _ _ _ _ _ Hr HF) as (nd & Hnd & Hid & Hlen & _).
  rewrite (deref_ok _ _ _ Hnd). rewrite bind_Ret. rewrite Hid, Hlen.
  do 2 f_equal. unfold isub. rewrite Z.sub_diag. done.
Qed.

End Reads.

Section CompareWalk.

Context `{RopeParams}.

(** ** rseekNodes *)

Lemma rseek_fill_ok n height (target : list (option ptr)) i curr :
  (i < height)%nat → (i + n ≤ List.length target)%nat →
  ∃ target',
    rseek_fill n height target i curr
      = Ret (bool_decide (height ≤ i + n)%nat, target', ((i + n) `min` height)%nat)
    ∧ List.length target' = List.length target
    ∧ (∀ j, (i ≤ j < (i + n) `min` height)%nat → target' !! j = Some curr)
    ∧ (∀ j, ¬ (i ≤ j < (i + n) `min` height)%nat → target' !! j = target !! j).
Proof.
  revert target i. induction n as [|n IH]; intros target i Hi Hlen; simpl.
  - exists target. rewrite bool_decide_eq_false_2 by lia.
    replace ((i + 0) `min` height)%nat with i by lia.
    split_and!; [done..| |done]. intros j Hj. lia.
  - rewrite decide_True by lia. case_decide as Hh.
    + exists (<[i := curr]> target). rewrite bool_decide_eq_true_2 by lia.
      replace ((i + S n) `min` height)%nat with (S i) by lia.
      split_and!; [done|by rewrite length_insert| |].
      * intros j Hj. assert (j = i) as -> by lia.
        apply list_lookup_insert_eq. lia.
      * intros j Hj. apply list_lookup_insert_ne. lia.
    + destruct (IH (<[i := curr]> target) (S i)) as (t' & -> & Hl & Hin & Hout).
      { lia. } { rewrite length_insert. lia. }
      exists t'. rewrite length_insert in Hl.
      replace (S i + n)%nat with (i + S n)%nat by lia.
      split_and!; [done..| |].
      * intros j Hj. destruct (decide (j = i)) as [->|].
        -- rewrite Hout by lia. apply list_lookup_insert_eq. lia.
        -- apply Hin. lia.
      * intros j Hj. rewrite Hout by lia. apply list_lookup_insert_ne. lia.
Qed.

(** What the array filled by [rseekNodes] holds for the entry at the head
    of [ra]. *)
Definition anodes_ok (r : ropeImpl) (ra : list anode)
    (anodes : list (option ptr)) : Prop :=
  List.length anodes = maxHeight
  ∧ ∀ j, (j < r_height r)%nat →
      anodes !! j = Some (a_ptr <$> first_above j ra).

Lemma rseek_loop_ok r L n rm c rp post target i :
  rep r L →
  hdA :: L = reverse (rm ++ c :: rp) ++ post →
  below i rm → (i ≤ a_ht c)%nat → (i < r_height r)%nat →
  List.length target = maxHeight →
  (∀ j, (j < i)%nat →
     target !! j = Some (a_ptr <$> first_above j (rm ++ c :: rp))) →
  (List.length rp < n)%nat →
  ∃ target',
    rseek_loop n r (Some (a_ptr c)) target i = Ret target'
    ∧ anodes_ok r (rm ++ c :: rp) target'.
Proof.
  intros Hr. pose proof (rep_height _ _ Hr) as HH.
  revert rm c rp target i.
  induction n as [|n IH]; intros rm c rp target i HF Hrm Hic HiH Hlen Htg Hn;
    [lia|].
  assert (HFc : hdA :: L = reverse rp ++ c :: (reverse rm ++ post)).
  { rewrite HF. by list_norm. }
  destruct (rep_node _ _ _ _ _ Hr HFc) as (nd & Hnd & _ & _ & Hnl & _ & Hlv).
  remember (a_ht c `min` r_height r)%nat as nl eqn:Hnldef.
  assert (Hcur : ∀ j, (i ≤ j < nl)%nat →
    a_ptr <$> first_above j (rm ++ c :: rp) = Some (a_ptr c)).
  { intros j Hj.
    assert (below j rm) by (eapply below_mono; [|done]; lia).
    assert (above j c = true) by (apply above_lt; lia).
    by rewrite first_above_hit. }
  simpl. rewrite Hnd. simpl. rewrite Hnl.
  destruct (rseek_fill_ok (nl - i) (r_height r) target i (Some (a_ptr c)))
    as (t1 & -> & Hl1 & Hin1 & Hout1); [lia|lia|].
  rewrite bind_Ret.
  replace ((i + (nl - i)) `min` r_height r)%nat with nl in * by lia.
  assert (Ht1 : ∀ j, (j < nl)%nat →
    t1 !! j = Some (a_ptr <$> first_above j (rm ++ c :: rp))).
  { intros j Hj. destruct (decide (i ≤ j)%nat).
    - rewrite Hin1 by lia. by rewrite Hcur by lia.
    - rewrite Hout1 by lia. apply Htg. lia. }
  case_bool_decide as Hdone.
  - exists t1. split; [done|]. split; [congruence|].
    intros j Hj. apply Ht1. lia.
  - assert (nl < r_height r)%nat as HnlH by lia.
    assert (rp ≠ []) as Hrp.
    { intros ->. destruct (zip_head _ _ _ _ HFc) as [(_ & -> & _)|(rp' & ? & _)].
      - rewrite Hnldef in HnlH. change (a_ht hdA) with maxHeight in HnlH. lia.
      - by destruct rp'. }
    destruct (rep_entry_ht _ _ _ _ _ Hr HFc Hrp) as (_ & _ & Hcht & _).
    assert (nl = a_ht c) as Hnlc by lia.
    destruct nl as [|k] eqn:Hk; [lia|]. simpl.
    unfold level. rewrite (Hlv k) by lia. simpl.
    destruct (zip_head _ _ _ _ HFc) as [(-> & _)|(rp' & Hrp' & HL)]; [done|].
    destruct (first_above_head k rp') as [c' Hc']; [lia|].
    rewrite <- Hrp' in Hc'. rewrite Hc'. simpl.
    destruct (first_above_Some _ _ _ Hc') as (rm2 & rp2 & Hrp2 & Hrm2 & Hc'k).
    destruct (IH (rm ++ c :: rm2) c' rp2 t1 (S k)) as (t2 & Ht2 & Hok).
    + rewrite HF, Hrp2. by rewrite <- !app_assoc.
    + apply below_app. split; [eapply below_mono; [|done]; lia|].
      constructor; [apply above_ge; lia|].
      eapply below_mono; [|done]. lia.
    + apply above_lt in Hc'k. lia.
    + lia.
    + congruence.
    + intros j Hj. rewrite <- app_assoc. simpl. rewrite <- Hrp2.
      apply Ht1. lia.
    + rewrite Hrp2, length_app in Hn. simpl in Hn. lia.
    + rewrite <- app_assoc in Hok. simpl in Hok.
      rewrite <- Hrp2 in Hok. by exists t2.
Qed.

Lemma rseekNodes_ok r L rp x po :
  rep r L → hdA :: L = reverse rp ++ x :: po →
  ∃ anodes,
    rseekNodes r (Some (a_ptr x)) (replicate maxHeight None) = Ret anodes
    ∧ anodes_ok r (x :: rp) anodes.
Proof.
  intros Hr HF. pose proof (rep_height _ _ Hr) as HH.
  pose proof (zip_length _ _ _ _ _ Hr HF).
  apply (rseek_loop_ok r L (fuel r) [] x rp po);
    first [done | lia | by list_norm | by constructor
          | by rewrite length_replicate | unfold fuel; lia].
Qed.

(** ** The walk of Compare *)

Lemma cmp_scan_ok n (anodes : list (option ptr)) curr i :
  (i + n ≤ List.length anodes)%nat →
  (∃ i', cmp_scan n anodes curr i = Ret (true, i'))
  ∨ (cmp_scan n anodes curr i = Ret (false, (i + n)%nat)
     ∧ ∀ j, (i ≤ j < i + n)%nat → anodes !! j ≠ Some curr).
Proof.
  revert i. induction n as [|n IH]; intros i Hlen; simpl.
  - right. rewrite Nat.add_0_r. split; [done|]. intros j Hj. lia.
  - destruct (lookup_lt_is_Some_2 anodes i) as [x Hx]; [lia|].
    unfold array_at. rewrite Hx. simpl. case_decide as Hc.
    + left. eauto.
    + destruct (IH (S i)) as [?|[-> Hno]]; [lia|by left|].
      right. replace (S i + n)%nat with (i + S n)%nat by lia.
      split; [done|]. intros j Hj. destruct (decide (j = i)) as [->|].
      * rewrite Hx. congruence.
      * apply Hno. lia.
Qed.

Lemma cmp_scan_none n (anodes : list (option ptr)) curr i :
  (i + n ≤ List.length anodes)%nat →
  (∀ j, (i ≤ j < i + n)%nat → anodes !! j ≠ Some curr) →
  cmp_scan n anodes curr i = Ret (false, (i + n)%nat).
Proof.
  intros Hlen Hno.
  destruct (cmp_scan_ok n anodes curr i Hlen) as [[i' Hf]|[? _]]; [|done].
  exfalso. revert i Hlen Hno Hf.
  induction n as [|n IH]; intros i Hlen Hno; simpl; [done|].
  destruct (lookup_lt_is_Some_2 anodes i) as [x Hx]; [lia|].
  unfold array_at. rewrite Hx. simpl. case_decide as Hc.
  - intros _. apply (Hno i); [lia|]. by rewrite Hx, Hc.
  - apply IH; [lia|]. intros j Hj. apply Hno. lia.
Qed.

(** The walk starts after the entry the array was filled for: it ends by
    stepping up into that entry's tree. *)
Lemma cmp_loop_after r L n anodes rpA A mc c po i cmp :
  rep r L →
  hdA :: L = reverse rpA ++ A :: reverse mc ++ c :: po →
  anodes_ok r (A :: rpA) anodes →
  (i ≤ r_height r)%nat → (List.length mc < n)%nat →
  cmp_loop n (r_heap r) anodes (Some (a_ptr c)) i cmp = Ret (ineg cmp).
Proof.
  intros Hr. pose proof (rep_height _ _ Hr) as HH.
  pose proof (rep_F_ptrs _ _ Hr) as Hnd.
  revert mc c po i.
  induction n as [|n IH]; intros mc c po i HF [Hal Han] Hi Hn; [lia|].
  assert (HFc : hdA :: L = reverse (mc ++ A :: rpA) ++ c :: po).
  { rewrite HF. by list_norm. }
  destruct (rep_entry_ht _ _ _ _ _ Hr HFc) as (_ & Hch & Hcht & _).
  { by destruct mc. }
  destruct (rep_node _ _ _ _ _ Hr HFc) as (nd & Hnd' & _ & _ & Hnl & _ & Hlv).
  replace (a_ht c `min` r_height r)%nat with (a_ht c) in * by lia.
  assert (Hfa : ∀ j, (j < r_height r)%nat →
    ∃ u, first_above j (A :: rpA) = Some u ∧ u ∈ A :: rpA).
  { intros j Hj.
    assert (HFA : hdA :: L = reverse rpA ++ A :: (reverse mc ++ c :: po))
      by done.
    destruct (zip_head _ _ _ _ HFA) as [(-> & -> & _)|(rp' & -> & _)].
    - exists hdA. split; [|left]. simpl. rewrite above_hdA by lia. done.
    - destruct (first_above_head j (A :: rp')) as [u Hu]; [lia|].
      exists u. split; [done|]. by eapply first_above_elem. }
  assert (Hcu : ∀ u, u ∈ A :: rpA → a_ptr u ≠ a_ptr c).
  { intros u Hu Heq. ptr_ne Hnd HFc Heq. }
  simpl. rewrite Hnd'. simpl. rewrite Hnl.
  rewrite cmp_scan_none.
  2:{ unfold maxHeight in *. lia. }
  2:{ intros j Hj. rewrite Han by lia.
      destruct (Hfa j) as (u & -> & Hu); [lia|]. simpl.
      intros [= Heq]. by apply (Hcu u). }
  rewrite bind_Ret.
  destruct (a_ht c) as [|k] eqn:Hk; [lia|]. simpl.
  unfold level. rewrite (Hlv k) by lia. simpl.
  unfold array_at. rewrite Han by lia. simpl.
  destruct (Hfa k) as (u & Hu & Huin); [lia|].
  pose proof Hu as Hu'. simpl in Hu'.
  destruct (first_above k mc) as [c'|] eqn:Hc'.
  - rewrite (first_above_app_Some _ _ _ _ Hc'). rewrite Hu'. simpl.
    destruct (first_above_Some _ _ _ Hc') as (m1 & m2 & Hmc & Hm1 & Hc'k).
    assert (HFc' : hdA :: L
      = reverse (m2 ++ A :: rpA) ++ c' :: (reverse m1 ++ c :: po)).
    { rewrite HF, Hmc. by list_norm. }
    rewrite decide_False.
    2:{ intros [= Heq]. ptr_ne Hnd HFc' Heq. }
    rewrite decide_False.
    2:{ intros [= Heq].
        destruct (rep_entry_ht _ _ _ _ _ Hr HFc') as (_ & ? & _); [|done].
        by destruct m2. }
    apply (IH m2 c' (reverse m1 ++ c :: po)).
    + rewrite HF, Hmc. by list_norm.
    + done.
    + lia.
    + rewrite Hmc, length_app in Hn. simpl in Hn. lia.
  - apply first_above_None in Hc'.
    rewrite first_above_below by done. rewrite Hu, Hu'. simpl.
    by rewrite decide_True.
Qed.

(** The walk starts before that entry: it ends on meeting the entry's
    tree from the left, or at the head. *)
Lemma cmp_loop_before r L n anodes rp c m A poA i cmp :
  rep r L →
  hdA :: L = reverse rp ++ c :: m ++ A :: poA → rp ≠ [] →
  anodes_ok r (A :: reverse m ++ c :: rp) anodes →
  (i ≤ r_height r)%nat → (List.length rp < n)%nat →
  cmp_loop n (r_heap r) anodes (Some (a_ptr c)) i cmp = Ret cmp.
Proof.
  intros Hr. pose proof (rep_height _ _ Hr) as HH.
  pose proof (rep_F_ptrs _ _ Hr) as Hnd.
  revert rp c m i.
  induction n as [|n IH]; intros rp c m i HF Hrp [Hal Han] Hi Hn; [lia|].
  destruct (rep_entry_ht _ _ _ _ _ Hr HF Hrp) as (_ & Hch & Hcht & _).
  destruct (rep_node _ _ _ _ _ Hr HF) as (nd & Hnd' & _ & _ & Hnl & _ & Hlv).
  replace (a_ht c `min` r_height r)%nat with (a_ht c) in * by lia.
  simpl. rewrite Hnd'. simpl. rewrite Hnl.
  destruct (cmp_scan_ok (a_ht c - i) anodes (Some (a_ptr c)) i)
    as [[i' ->]|[-> Hno]].
  { unfold maxHeight in *. lia. }
  { by rewrite bind_Ret. }
  rewrite bind_Ret.
  destruct (a_ht c) as [|k] eqn:Hk; [lia|]. simpl.
  unfold level. rewrite (Hlv k) by lia. simpl.
  unfold array_at. rewrite Han by lia. simpl.
  destruct (zip_head _ _ _ _ HF) as [(-> & _)|(rp' & Hrp' & HL)]; [done|].
  destruct (first_above_head k rp') as [c' Hc']; [lia|].
  rewrite <- Hrp' in Hc'. rewrite Hc'. simpl.
  destruct (first_above_Some _ _ _ Hc') as (rm2 & rp2 & Hrp2 & Hrm2 & Hc'k).
  assert (HFc' : hdA :: L
    = reverse rp2 ++ c' :: (reverse rm2 ++ c :: m) ++ A :: poA).
  { rewrite HF, Hrp2. by list_norm. }
  assert (Hck : above k c = true) by (apply above_lt; lia).
  assert (∃ u, first_above k (A :: reverse m ++ c :: rp) = Some u
    ∧ u ∈ A :: reverse m ++ [c]) as (u & Hu & Huin).
  { change (A :: reverse m ++ c :: rp) with ((A :: reverse m) ++ c :: rp).
    destruct (first_above k (A :: reverse m)) as [u|] eqn:Hu.
    - exists u. rewrite (first_above_app_Some _ _ _ _ Hu). split; [done|].
      apply first_above_elem in Hu. revert Hu. mem_simpl. tauto.
    - apply first_above_None in Hu. rewrite first_above_hit by done.
      exists c. split; [done|]. mem_solve. }
  simpl in Hu. rewrite Hu. simpl.
  rewrite decide_False.
  2:{ intros [= Heq]. ptr_ne Hnd HFc' Heq. }
  case_decide as Hhd; [done|].
  assert (rp2 ≠ []) as Hrp2ne.
  { intros ->. destruct (zip_head _ _ _ _ HFc') as [(_ & -> & _)|(? & ? & _)].
    - by apply Hhd.
    - by destruct x. }
  apply (IH rp2 c' (reverse rm2 ++ c :: m)); try done.
  - split; [done|]. intros j Hj. rewrite Han by done. do 2 f_equal.
    rewrite Hrp2. by list_norm.
  - lia.
  - rewrite Hrp2, length_app in Hn. simpl in Hn. lia.
Qed.

(** The walk starts at the head. *)
Lemma cmp_loop_head r L n anodes m A poA cmp :
  rep r L → hdA :: L = hdA :: m ++ A :: poA →
  anodes_ok r (A :: reverse m ++ [hdA]) anodes →
  cmp_loop (S n) (r_heap r) anodes (Some headp) 1 cmp = Ret cmp.
Proof.
  intros Hr HF [Hal Han]. pose proof (rep_height _ _ Hr) as HH.
  assert (HF0 : hdA :: L = reverse [] ++ hdA :: m ++ A :: poA) by done.
  destruct (rep_node _ _ _ _ _ Hr HF0) as (nd & Hnd & _ & _ & Hnl & _ & Hlv).
  change (a_ptr hdA) with headp in Hnd.
  replace (a_ht hdA `min` r_height r)%nat with (r_height r) in *
    by (change (a_ht hdA) with maxHeight; lia).
  simpl. rewrite Hnd. simpl. rewrite Hnl.
  destruct (cmp_scan_ok (r_height r - 1) anodes (Some headp) 1)
    as [[i' ->]|[-> Hno]].
  { unfold maxHeight in *. lia. }
  { by rewrite bind_Ret. }
  rewrite bind_Ret.
  destruct (r_height r) as [|k] eqn:Hk; [lia|]. simpl.
  unfold level. rewrite (Hlv k) by lia. simpl.
  unfold array_at. rewrite Han by lia. simpl.
  assert (HFA : hdA :: L = reverse (reverse m ++ [hdA]) ++ A :: poA).
  { rewrite HF. by list_norm. }
  destruct (first_above_head k (A :: reverse m)) as [u Hu]; [lia|].
  simpl in Hu. simpl. rewrite Hu. simpl.
  rewrite decide_False.
  2:{ intros [= Heq]. destruct (decide (k = 0)%nat) as [->|].
      - destruct (rep_entry_ht _ _ _ _ _ Hr HFA) as (_ & HA & HAh & _).
        { by destruct (reverse m). }
        rewrite (proj2 (above_lt 0 A)) in Hu by lia.
        injection Hu as <-. done.
      - apply (Hno k); [lia|]. rewrite Han by lia. simpl. rewrite Hu.
        simpl. by rewrite <- Heq. }
  done.
Qed.

End CompareWalk.

Section CompareOk.

Context `{RopeParams}.

(** ** Compare *)

Lemma rep_live r L x :
  rep r L → x ∈ hdA :: L → r_byId r !! a_id x = Some (a_ptr x).
Proof. intros Hr Hx. apply (rep_byId _ _ Hr). eauto. Qed.

Lemma zip_ids_ne r L rp x m y po :
  rep r L → hdA :: L = reverse rp ++ x :: m ++ y :: po → a_id x ≠ a_id y.
Proof.
  intros Hr HF Heq. pose proof (rep_ids _ _ Hr) as Hnd.
  rewrite HF in Hnd. rewrite fmap_app, fmap_cons, fmap_app, fmap_cons in Hnd.
  apply NoDup_app in Hnd as (_ & _ & Hnd).
  apply NoDup_cons in Hnd as (Hnd & _). apply Hnd.
  rewrite Heq. mem_solve.
Qed.

(** [x] comes before [y]; the array was filled for [x], the walk starts
    at [y]. *)
Lemma cmp_walk_fwd r L rp x m y po anodes cmp :
  rep r L → hdA :: L = reverse rp ++ x :: m ++ y :: po →
  anodes_ok r (x :: rp) anodes →
  cmp_loop (fuel r) (r_heap r) anodes (Some (a_ptr y)) 1 cmp = Ret (ineg cmp).
Proof.
  intros Hr HF Han. pose proof (rep_height _ _ Hr) as HH.
  apply (cmp_loop_after r L (fuel r) anodes rp x (reverse m) y po); try done.
  - by rewrite reverse_involutive.
  - lia.
  - pose proof (rep_length _ _ Hr) as Hl.
    assert (List.length (hdA :: L)
      = List.length (reverse rp ++ x :: m ++ y :: po)) as Hl2 by (by rewrite HF).
    rewrite length_app, length_reverse in Hl2. simpl in Hl2.
    rewrite length_app in Hl2. simpl in Hl2.
    rewrite length_reverse. unfold fuel. lia.
Qed.

(** [x] comes before [y]; the array was filled for [y], the walk starts
    at [x]. *)
Lemma cmp_walk_bwd r L rp x m y po anodes cmp :
  rep r L → hdA :: L = reverse rp ++ x :: m ++ y :: po →
  anodes_ok r (y :: reverse m ++ x :: rp) anodes →
  cmp_loop (fuel r) (r_heap r) anodes (Some (a_ptr x)) 1 cmp = Ret cmp.
Proof.
  intros Hr HF Han. pose proof (rep_height _ _ Hr) as HH.
  destruct (decide (rp = [])) as [->|Hrp].
  - assert (HF0 : hdA :: L = reverse [] ++ x :: (m ++ y :: po)) by done.
    destruct (zip_head _ _ _ _ HF0) as [(_ & -> & HL)|(rp' & ? & _)].
    2:{ by destruct rp'. }
    unfold fuel. change (a_ptr hdA) with headp.
    by apply (cmp_loop_head r L _ anodes m y po).
  - apply (cmp_loop_before r L (fuel r) anodes rp x m y po); try done.
    + lia.
    + pose proof (zip_length _ _ _ _ _ Hr HF). unfold fuel. lia.
Qed.

Lemma Compare_before r L rp x m y po :
  rep r L → hdA :: L = reverse rp ++ x :: m ++ y :: po →
  Compare r (a_id x) (a_id y) = Ret (-1, true)
  ∧ Compare r (a_id y) (a_id x) = Ret (1, true).
Proof.
  intros Hr HF.
  pose proof (zip_ids_ne _ _ _ _ _ _ _ Hr HF) as Hne.
  assert (HFx : hdA :: L = reverse rp ++ x :: (m ++ y :: po)) by done.
  assert (HFy : hdA :: L = reverse (reverse m ++ x :: rp) ++ y :: po).
  { rewrite HF. by list_norm. }
  assert (Hx : r_byId r !! a_id x = Some (a_ptr x)).
  { apply (rep_live _ _ _ Hr). rewrite HFx. mem_solve. }
  assert (Hy : r_byId r !! a_id y = Some (a_ptr y)).
  { apply (rep_live _ _ _ Hr). rewrite HFy. mem_solve. }
  destruct (rep_node _ _ _ _ _ Hr HFx) as (nx & Hnx & _).
  destruct (rep_node _ _ _ _ _ Hr HFy) as (ny & Hny & _).
  destruct (rseekNodes_ok _ _ _ _ _ Hr HFx) as (ax & Hax & Hxok).
  destruct (rseekNodes_ok _ _ _ _ _ Hr HFy) as (ay & Hay & Hyok).
  unfold Compare. rewrite !decide_False by congruence.
  rewrite Hx, Hy. rewrite (deref_ok _ _ _ Hnx), (deref_ok _ _ _ Hny).
  rewrite !bind_Ret. split.
  - case_decide.
    + rewrite Hay, bind_Ret.
      rewrite (cmp_walk_bwd _ _ _ _ _ _ _ _ _ Hr HF Hyok). done.
    + rewrite Hax, bind_Ret.
      rewrite (cmp_walk_fwd _ _ _ _ _ _ _ _ _ Hr HF Hxok). done.
  - case_decide.
    + rewrite Hax, bind_Ret.
      rewrite (cmp_walk_fwd _ _ _ _ _ _ _ _ _ Hr HF Hxok). done.
    + rewrite Hay, bind_Ret.
      rewrite (cmp_walk_bwd _ _ _ _ _ _ _ _ _ Hr HF Hyok). done.
Qed.

Lemma Compare_same r a :
  Compare r a a = Ret (0, bool_decide (is_Some (r_byId r !! a))).
Proof. unfold Compare. by rewrite decide_True. Qed.

Lemma Compare_absent r a b :
  r_byId r !! a = None ∨ r_byId r !! b = None →
  Compare r a b = Ret (0, false).
Proof.
  intros Hab. unfold Compare. case_decide as Heq.
  - subst b. rewrite bool_decide_eq_false_2; [done|].
    intros [? ?]. destruct Hab; congruence.
  - destruct Hab as [-> | ->]; [done|]. by destruct (r_byId r !! a).
Qed.

(** Two different live entries are one before the other. *)
Lemma zip_two (F : list anode) x y :
  x ∈ F → y ∈ F → x ≠ y →
  (∃ rp m po, F = reverse rp ++ x :: m ++ y :: po)
  ∨ (∃ rp m po, F = reverse rp ++ y :: m ++ x :: po).
Proof.
  intros (l1 & l2 & ->)%list_elem_of_split Hy Hne.
  apply elem_of_app in Hy as [Hy|Hy].
  - apply list_elem_of_split in Hy as (l3 & l4 & ->). right.
    exists (reverse l3), l4, l2. rewrite reverse_involutive.
    by rewrite <- app_assoc.
  - apply elem_of_cons in Hy as [->|Hy]; [done|].
    apply list_elem_of_split in Hy as (l3 & l4 & ->). left.
    exists (reverse l1), l3, l4. by rewrite reverse_involutive.
Qed.

Lemma Compare_live r L a b :
  rep r L → is_Some (r_byId r !! a) → is_Some (r_byId r !! b) →
  ∃ c, Compare r a b = Ret (c, true) ∧ Compare r b a = Ret (- c, true)
    ∧ (c = -1 ∨ c = 0 ∨ c = 1) ∧ (c = 0 ↔ a = b).
Proof.
  intros Hr [pa Ha] [pb Hb].
  destruct (decide (a = b)) as [->|Hne].
  - exists 0. rewrite Compare_same, bool_decide_eq_true_2 by eauto.
    split_and!; try done. by right; left.
  - apply (rep_byId _ _ Hr) in Ha as (x & Hx & <- & <-).
    apply (rep_byId _ _ Hr) in Hb as (y & Hy & <- & <-).
    destruct (zip_two _ _ _ Hx Hy) as [(rp & m & po & HF)|(rp & m & po & HF)].
    { congruence. }
    + destruct (Compare_before _ _ _ _ _ _ _ Hr HF) as [-> ->].
      exists (-1). split_and!; [done|done|by left|split; [lia|done]].
    + destruct (Compare_before _ _ _ _ _ _ _ Hr HF) as [-> ->].
      exists 1. split_and!; [done|done|by right; right|split; [lia|congruence]].
Qed.

End CompareOk.

Section Reach.

Context `{RopeParams}.

(** ** Every reachable rope is well formed *)

Lemma data_len_range data : int_min ≤ data_len data ≤ int_max.
Proof. unfold data_len. destruct (sizer data); [apply wrap_range|]. done. Qed.

Lemma NewRoot_rep root : rep (NewRoot root) [].
Proof.
  constructor; simpl.
  - unfold maxHeight. lia.
  - by exists root.
  - constructor.
  - constructor.
  - apply NoDup_singleton.
  - intros i p. rewrite lookup_singleton_Some. split.
    + intros [<- <-]. exists hdA. split; [left|done].
    + intros (x & ->%list_elem_of_singleton & <- & <-). done.
  - intros j Hj rpre x post HF _.
    assert (j = 0)%nat as -> by lia.
    destruct (zip_head _ _ _ _ HF) as [(-> & -> & ->)|(rp & _ & Hnil)].
    + done.
    + by destruct (reverse rp).
  - done.
  - split; [constructor|]. intros p Hp. by apply elem_of_nil in Hp.
Qed.

Lemma Splice_success r L a rpre post del ins data rnd :
  rep r L → hdA :: L = reverse rpre ++ a :: post →
  match ins with
  | Some iid => r_byId r !! iid = None ∧ 0 ≤ data_len data
  | None => True
  end →
  let dd := del_flag del (a_id a) in
  ∃ r' L' p,
    Splice r (a_id a) del ins data rnd
      = Ret (r', rec_of <$> removed_of dd.1 dd.2 post, None)
    ∧ rep r' L'
    ∧ hdA :: L' =
        reverse rpre ++ a ::
          match ins with
          | Some iid => [mkA p iid (data_len data) data (randomHeight rnd)]
          | None => []
          end ++ rest_of dd.1 dd.2 post
    ∧ r_len r' =
        match ins with
        | Some _ =>
          iadd (wrap (r_len r - sum_len (removed_of dd.1 dd.2 post)))
               (data_len data)
        | None => wrap (r_len r - sum_len (removed_of dd.1 dd.2 post))
        end
    ∧ (dd.1 = false → ins = None → r' = r)
    ∧ (∀ iid, dd.1 = false → ins = Some iid →
       r_lastId r' =
         lastId_after_insert (a_ptr a) (a_id a) (r_lastId r)
           (iadd (r_len r) (data_len data)) (data_len data) iid).
Proof.
  intros Hr HF Hins dd.
  assert (Ha : r_byId r !! a_id a = Some (a_ptr a)).
  { apply (rep_live _ _ _ Hr). rewrite HF. mem_solve. }
  pose proof (data_len_range data) as Hrange.
  unfold Splice. rewrite Ha.
  fold (del_flag del (a_id a)). fold dd. destruct dd as [doDelete u] eqn:Hdd.
  simpl. destruct ins as [iid|].
  - destruct Hins as [Hfresh Hpos].
    rewrite decide_False by (rewrite Hfresh; by intros [? ?]).
    rewrite decide_False by lia.
    destruct (splice_ok r L a rpre post doDelete u true iid (data_len data)
      data rnd Hr HF) as (r' & L' & p & Hs & Hr' & HF' & Hlen & _ & Hlast).
    { intros _. split; [done|lia]. }
    exists r', L', p. split_and!; try done.
    intros ? ? [= <-]. by apply Hlast.
  - destruct (splice_ok r L a rpre post doDelete u false zeroId 0
      data rnd Hr HF) as (r' & L' & p & Hs & Hr' & HF' & Hlen & Hsame & _).
    { done. }
    exists r', L', p. split_and!; try done.
    intros ? _. by apply Hsame.
Qed.

(** The four ways a call of [Splice] goes. *)
Lemma Splice_cases r L afterId del ins data rnd :
  rep r L →
  (r_byId r !! afterId = None ∧ afterId ≠ zeroId
   ∧ Splice r afterId del ins data rnd = Ret (r, [], Some ErrBadAnchor))
  ∨ (is_Some (r_byId r !! afterId)
     ∧ ∃ iid, ins = Some iid ∧ is_Some (r_byId r !! iid)
       ∧ Splice r afterId del ins data rnd = Ret (r, [], Some ErrIdExists))
  ∨ (is_Some (r_byId r !! afterId)
     ∧ ∃ iid, ins = Some iid ∧ r_byId r !! iid = None ∧ data_len data < 0
       ∧ Splice r afterId del ins data rnd
           = Ret (r, [], Some ErrNegativeLength))
  ∨ (∃ a rpre post,
       hdA :: L = reverse rpre ++ a :: post ∧ a_id a = afterId
       ∧ match ins with
         | Some iid => r_byId r !! iid = None ∧ 0 ≤ data_len data
         | None => True
         end).
Proof.
  intros Hr.
  destruct (r_byId r !! afterId) as [p|] eqn:Hp.
  - destruct (rep_lookup _ _ _ _ Hr Hp) as (a & rpre & post & HF & Ha & <-).
    destruct ins as [iid|].
    + destruct (r_byId r !! iid) as [q|] eqn:Hq.
      { right; left. split; [by eauto|]. exists iid. split_and!; [done|by eauto|].
        unfold Splice. rewrite Hp.
        destruct del as [d|]; [case_decide|]; simpl;
          rewrite Hq; by rewrite decide_True by eauto. }
      destruct (decide (data_len data < 0)) as [Hneg|Hpos].
      { right; right; left. split; [by eauto|]. exists iid. split_and!; try done.
        unfold Splice. rewrite Hp.
        destruct del as [d|]; [case_decide|]; simpl; rewrite Hq;
          (rewrite decide_False by (by intros [? ?]));
          by rewrite decide_True. }
      right; right; right. exists a, rpre, post. split_and!; try done. lia.
    + right; right; right. exists a, rpre, post. by split_and!.
  - left. assert (afterId ≠ zeroId) as Hz.
    { intros ->. rewrite (rep_zero _ _ Hr) in Hp. done. }
    split_and!; try done.
    unfold Splice. rewrite Hp. by rewrite decide_False.
Qed.

(** Every call of [Splice] on a well-formed rope returns, and leaves a
    well-formed rope. *)
Lemma Splice_rep r L afterId del ins data rnd :
  rep r L →
  ∃ r' removed err L',
    Splice r afterId del ins data rnd = Ret (r', removed, err) ∧ rep r' L'.
Proof.
  intros Hr.
  destruct (Splice_cases r L afterId del ins data rnd Hr)
    as [(_ & _ & Hs)|[(_ & iid & _ & _ & Hs)|[(_ & iid & _ & _ & _ & Hs)
       |(a & rpre & post & HF & <- & Hins)]]]; [by eauto 10..|].
  destruct (Splice_success r L a rpre post del ins data rnd Hr HF Hins)
    as (r' & L' & p & Hs & Hr' & _).
  eauto 10.
Qed.

Lemma iter_attach_rep r L e h :
  rep r L → iter_attach (r_heap r) e = Ret h → rep (with_heap h r) L.
Proof.
  intros Hr. unfold iter_attach. simpl.
  destruct (r_heap r !! e) as [en|] eqn:He; [|done]. simpl.
  intros [= <-]. apply rep_with_heap; [done|..].
  - by rewrite length_insert.
  - intros q. by apply hdr_set_iterRef.
  - intros q k. by apply lvl_set_iterRef.
Qed.

Lemma iter_detach_rep r L e h u :
  rep r L → iter_detach (r_heap r) e = Ret (h, u) → rep (with_heap h r) L.
Proof.
  intros Hr. unfold iter_detach. simpl.
  destruct (r_heap r !! e) as [en|] eqn:He; [|done]. simpl.
  destruct (n_iterRef en) as [ir|]; [|done].
  intros [= <- <-]. apply rep_with_heap; [done|..].
  - by rewrite length_insert.
  - intros q. by apply hdr_set_iterRef.
  - intros q k. by apply lvl_set_iterRef.
Qed.

Lemma reachable_rep r : reachable r → ∃ L, rep r L.
Proof.
  induction 1 as [root|r afterId del ins data rnd r' removed err _ [L Hr] Hs
                  |r e h _ [L Hr] Hh|r e h u _ [L Hr] Hh].
  - exists []. apply NewRoot_rep.
  - destruct (Splice_rep r L afterId del ins data rnd Hr)
      as (r1 & rm1 & e1 & L' & Hs1 & Hr1).
    rewrite Hs in Hs1. injection Hs1 as <- _ _. eauto.
  - exists L. by eapply iter_attach_rep.
  - exists L. by eapply iter_detach_rep.
Qed.

(** An iteration whose consumer stays among the reachable states ends in
    one. *)
Lemma Iter_loop_reachable n (yield : consumer) r e out r' out' :
  (∀ s i d s' b, reachable s → yield s i d = Ret (s', b) → reachable s') →
  reachable r → Iter_loop n yield r e out = Ret (r', out') → reachable r'.
Proof.
  intros Hy. revert r e out.
  induction n as [|n IH]; intros r e out Hr Hrun; [done|].
  cbn [Iter_loop] in Hrun.
  apply bind_Ret_inv in Hrun as (en & _ & Hrun).
  apply bind_Ret_inv in Hrun as (l & _ & Hrun).
  destruct (l_next l) as [e1|]; [|by injection Hrun as <- _].
  apply bind_Ret_inv in Hrun as (h1 & Hat & Hrun).
  apply bind_Ret_inv in Hrun as (en1 & _ & Hrun).
  apply bind_Ret_inv in Hrun as ([r2 b] & Hyd & Hrun).
  apply bind_Ret_inv in Hrun as ([h2 u] & Hdt & Hrun).
  assert (reachable (with_heap h2 r2)) as Hr2.
  { eapply reachable_detach; [|done]. eapply Hy; [|done].
    by eapply reachable_attach. }
  destruct b.
  - by eapply IH.
  - by injection Hrun as <- _.
Qed.

Lemma Iter_reachable n (yield : consumer) r afterId r' out :
  (∀ s i d s' b, reachable s → yield s i d = Ret (s', b) → reachable s') →
  reachable r → Iter n r afterId yield = Ret (r', out) → reachable r'.
Proof.
  intros Hy Hr. unfold Iter. destruct (r_byId r !! afterId) as [e|].
  - by apply Iter_loop_reachable.
  - by intros [= <- _].
Qed.

End Reach.

Section ObserveOk.

Context `{RopeParams}.

(** ** The live entries and the successors of a well-formed rope *)

Lemma Zsum_Permutation l1 l2 : l1 ≡ₚ l2 → Zsum l1 = Zsum l2.
Proof. unfold Zsum. induction 1; simpl in *; lia. Qed.

Lemma int_sum_wrap l : int_sum l = wrap (Zsum l).
Proof.
  unfold int_sum, Zsum. induction l as [|x l IH]; simpl; [done|].
  rewrite IH. wrap_solve.
Qed.

Lemma Zsum_a_len l : Zsum (a_len <$> l) = sum_len l.
Proof. unfold Zsum. induction l as [|x l IH]; csimpl; [done|]. rewrite IH. done. Qed.

Lemma total_len_rec_of (l : list anode) : total_len (rec_of <$> l) = sum_len l.
Proof.
  unfold total_len. rewrite <- list_fmap_compose. apply Zsum_a_len.
Qed.

Lemma ids_rec_of (l : list anode) : rm_Id <$> (rec_of <$> l) = a_id <$> l.
Proof. by rewrite <- list_fmap_compose. Qed.

Lemma through_until X post :
  through X (rec_of <$> post) = rec_of <$> (until X post).1.
Proof.
  induction post as [|e post IH]; csimpl; [done|].
  case_decide; [done|]. rewrite IH. by destruct (until X post).
Qed.

Lemma until_elem X post : X ∈ a_id <$> post → X ∈ a_id <$> (until X post).1.
Proof.
  induction post as [|e post IH]; csimpl.
  - by intros ?%elem_of_nil.
  - case_decide as He.
    + intros _. simpl. rewrite He. left.
    + intros [?|Hin]%elem_of_cons; [congruence|].
      specialize (IH Hin). destruct (until X post). simpl in *. by right.
Qed.

Lemma rep_index r L :
  rep r L →
  map_to_list (r_byId r) ≡ₚ (λ x, (a_id x, a_ptr x)) <$> (hdA :: L).
Proof.
  intros Hr. apply NoDup_Permutation.
  - apply NoDup_map_to_list.
  - apply (NoDup_fmap_1 fst). rewrite <- list_fmap_compose.
    apply (rep_ids _ _ Hr).
  - intros [i p]. rewrite elem_of_map_to_list, (rep_byId _ _ Hr).
    rewrite list_elem_of_fmap. split.
    + intros (x & Hx & <- & <-). eauto.
    + intros (x & [= -> ->] & Hx). eauto.
Qed.

Lemma live_sum_rep r L : rep r L → live_sum r = sum_len L.
Proof.
  intros Hr. unfold live_sum, live_lens.
  rewrite (Zsum_Permutation _ (a_len <$> (hdA :: L))).
  { by rewrite Zsum_a_len. }
  rewrite (rep_index _ _ Hr). rewrite <- list_fmap_compose.
  rewrite (Forall_fmap_ext_1 _ a_len (hdA :: L)); [done|].
  apply Forall_forall. intros x Hx. destruct (zip_elem _ _ Hx) as (rp & po & HF).
  destruct (rep_node _ _ _ _ _ Hr HF) as (nd & Hnd & _ & Hlen & _).
  simpl. by rewrite Hnd.
Qed.

Lemma live_sum_bounds r L :
  rep r L → live_sum r ≤ int_max → 0 ≤ sum_len L ≤ int_max.
Proof.
  intros Hr. rewrite (live_sum_rep _ _ Hr).
  pose proof (rep_nonneg _ _ Hr) as Hnn. apply Forall_cons in Hnn as [_ Hnn].
  pose proof (sum_len_nonneg _ Hnn). lia.
Qed.

Lemma entry_len_rep r L rp x po :
  rep r L → hdA :: L = reverse rp ++ x :: po →
  entry_len r (a_id x) = Some (a_len x).
Proof.
  intros Hr HF. unfold entry_len.
  rewrite (rep_live _ _ x Hr) by (rewrite HF; mem_solve).
  destruct (rep_node _ _ _ _ _ Hr HF) as (nd & -> & _ & -> & _). done.
Qed.

Lemma first_above_0 r L rp x po :
  rep r L → hdA :: L = reverse rp ++ x :: po →
  first_above 0 po = head po.
Proof.
  intros Hr HF. destruct po as [|e po]; [done|]. simpl.
  assert (HFe : hdA :: L = reverse (x :: rp) ++ e :: po) by (by list_norm).
  destruct (rep_entry_ht _ _ _ _ _ Hr HFe) as (_ & _ & Hht & _); [done|].
  by rewrite (proj2 (above_lt 0 e)) by lia.
Qed.

Lemma next0_rep r L rp x po nd :
  rep r L → hdA :: L = reverse rp ++ x :: po →
  r_heap r !! a_ptr x = Some nd → next0 nd = a_ptr <$> head po.
Proof.
  intros Hr HF Hnd. pose proof (rep_height _ _ Hr) as HH.
  destruct (rep_node _ _ _ _ _ Hr HF) as (nd' & Hnd' & _ & _ & _ & _ & Hlv).
  assert (nd' = nd) as -> by congruence.
  unfold next0. rewrite (Hlv 0%nat).
  - simpl. by rewrite (first_above_0 _ _ _ _ _ Hr HF).
  - destruct (decide (rp = [])) as [->|Hrp].
    + destruct (zip_head _ _ _ _ HF) as [(_ & -> & _)|(rp' & ? & _)].
      * change (a_ht hdA) with maxHeight. unfold maxHeight. lia.
      * by destruct rp'.
    + destruct (rep_entry_ht _ _ _ _ _ Hr HF Hrp) as (_ & _ & ? & _). lia.
Qed.

Lemma chain_rep r L n rp x po :
  rep r L → hdA :: L = reverse rp ++ x :: po →
  (List.length po < n)%nat →
  chain n (r_heap r) (a_ptr <$> head po) = rec_of <$> po.
Proof.
  intros Hr. revert rp x po.
  induction n as [|n IH]; intros rp x po HF Hn; [lia|].
  destruct po as [|e po]; [done|].
  assert (HFe : hdA :: L = reverse (x :: rp) ++ e :: po) by (by list_norm).
  destruct (rep_node _ _ _ _ _ Hr HFe) as (nd & Hnd & Hid & Hlen & _ & Hdl & _).
  destruct (rep_entry_ht _ _ _ _ _ Hr HFe) as (HeL & _); [done|].
  simpl. rewrite Hnd. rewrite (next0_rep _ _ _ _ _ _ Hr HFe Hnd).
  rewrite (IH _ _ _ HFe) by (simpl in Hn; lia).
  unfold rec_of at 2. by rewrite Hid, (Hdl HeL).
Qed.

Lemma successors_rep r L rp x po :
  rep r L → hdA :: L = reverse rp ++ x :: po →
  successors r (a_id x) = rec_of <$> po.
Proof.
  intros Hr HF. unfold successors.
  rewrite (rep_live _ _ x Hr) by (rewrite HF; mem_solve).
  destruct (rep_node _ _ _ _ _ Hr HF) as (nd & Hnd & _).
  rewrite Hnd. rewrite (next0_rep _ _ _ _ _ _ Hr HF Hnd).
  apply (chain_rep r L _ rp x po Hr HF).
  pose proof (zip_length _ _ _ _ _ Hr HF). unfold fuel. lia.
Qed.

Lemma NoDup_mid_disjoint {A} (l1 d k : list A) x :
  NoDup (l1 ++ d ++ k) → x ∈ d → ¬ x ∈ l1 ++ k.
Proof.
  intros Hnd Hx Hin.
  assert (l1 ++ d ++ k ≡ₚ d ++ (l1 ++ k)) as Hp.
  { rewrite !app_assoc. by rewrite (Permutation_app_comm l1 d). }
  rewrite Hp in Hnd. apply NoDup_app in Hnd as (_ & Hd & _).
  by apply (Hd x).
Qed.

(** ** Deleting a range *)

Lemma Splice_delete_ok r L a rpre post X data rnd :
  rep r L → hdA :: L = reverse rpre ++ a :: post →
  X ≠ a_id a → X ∈ a_id <$> post →
  let removed := through X (successors r (a_id a)) in
  ∃ r', Splice r (a_id a) (Some X) None data rnd = Ret (r', removed, None)
    ∧ X ∈ rm_Id <$> removed
    ∧ (∀ id, id ∈ rm_Id <$> removed → r_byId r' !! id = None)
    ∧ (∀ id, ¬ id ∈ rm_Id <$> removed → r_byId r' !! id = r_byId r !! id)
    ∧ Len r' = isub (Len r) (total_len removed)
    ∧ (live_sum r ≤ int_max → Len r' = Len r - total_len removed).
Proof.
  intros Hr HF HX Hin removed.
  destruct (Splice_success r L a rpre post (Some X) None data rnd Hr HF I)
    as (r' & L' & _ & Hs & Hr' & HF' & Hlen & _).
  unfold del_flag in Hs, HF', Hlen. rewrite decide_True in Hs, HF', Hlen by done.
  simpl in Hs, HF', Hlen.
  assert (Hrem : removed = rec_of <$> (until X post).1).
  { unfold removed. rewrite (successors_rep _ _ _ _ _ Hr HF).
    apply through_until. }
  pose proof (until_app X post) as Hpost.
  pose proof (until_elem X post Hin) as HXd.
  destruct (until X post) as [d k]. simpl in *.
  assert (Hids : rm_Id <$> removed = a_id <$> d).
  { rewrite Hrem. apply ids_rec_of. }
  assert (Htot : total_len removed = sum_len d).
  { rewrite Hrem. apply total_len_rec_of. }
  pose proof (rep_ids _ _ Hr) as Hnd.
  rewrite HF, <- Hpost in Hnd.
  replace (reverse rpre ++ a :: d ++ k)
    with ((reverse rpre ++ [a]) ++ d ++ k) in Hnd by (by rewrite <- app_assoc).
  rewrite (fmap_app a_id (reverse rpre ++ [a]) (d ++ k)),
    (fmap_app a_id d k) in Hnd.
  assert (Hout : ∀ x, x ∈ hdA :: L' → ¬ a_id x ∈ a_id <$> d).
  { intros x Hx Hxd. apply (NoDup_mid_disjoint _ _ _ _ Hnd Hxd).
    rewrite <- fmap_app. apply list_elem_of_fmap_2.
    rewrite HF' in Hx. revert Hx. mem_simpl. tauto. }
  exists r'. rewrite Hrem at 1. split; [done|]. split_and!.
  - by rewrite Hids.
  - intros id Hid. rewrite Hids in Hid.
    destruct (r_byId r' !! id) as [p|] eqn:Hp; [|done].
    apply (rep_byId _ _ Hr') in Hp as (x & Hx & <- & _).
    by destruct (Hout x Hx).
  - intros id Hid. rewrite Hids in Hid. apply option_eq. intros p.
    rewrite (rep_byId _ _ Hr'), (rep_byId _ _ Hr). split.
    + intros (x & Hx & Hi & Hp). exists x. split; [|done].
      rewrite HF, <- Hpost. rewrite HF' in Hx. revert Hx. mem_simpl. tauto.
    + intros (x & Hx & Hi & Hp). exists x. split; [|done].
      rewrite HF'. rewrite HF, <- Hpost in Hx. revert Hx. mem_simpl.
      intros [?|[?|[Hd|?]]]; try tauto.
      destruct Hid. rewrite <- Hi. by apply list_elem_of_fmap_2.
  - unfold Len, isub. by rewrite Hlen, Htot.
  - intros Hmax. unfold Len. rewrite Hlen, Htot.
    destruct (live_sum_bounds _ _ Hr Hmax) as [Hlo Hhi].
    pose proof (rep_len _ _ Hr) as HrL. rewrite HrL.
    pose proof (rep_nonneg _ _ Hr) as Hnn. rewrite HF, <- Hpost in Hnn.
    assert (sum_len (hdA :: L) = sum_len L) as HsF by done.
    rewrite HF, <- Hpost in HsF.
    change (a :: d ++ k) with ([a] ++ d ++ k) in HsF, Hnn.
    rewrite !sum_len_app in HsF. rewrite !nonneg_app in Hnn.
    destruct Hnn as (Hn1 & Hn2 & Hn3 & Hn4).
    pose proof (sum_len_nonneg _ Hn1). pose proof (sum_len_nonneg _ Hn2).
    pose proof (sum_len_nonneg _ Hn3). pose proof (sum_len_nonneg _ Hn4).
    rewrite (wrap_id (sum_len L)) by (unfold int_min, int_max in *; lia).
    apply wrap_id. unfold int_min, int_max in *. lia.
Qed.

End ObserveOk.

Section Claims.

Context `{RopeParams}.

(** * The properties of the public operations *)

(** C1.  Deleting from after a live anchor through [X], an entry that
    follows the anchor in the level-0 chain: the call succeeds and returns
    the records of the entries after the anchor up to and including [X], in
    sequence order; [X] and the identifiers before it in that range leave
    the index and no other identifier does; [Len] goes down by the sum of
    the removed lengths, in Go's [int] arithmetic, and by exactly that sum
    when the live lengths fit an [int].  A call that deletes nothing (no
    [deleteUntilId], or the anchor itself, or an error) returns an empty
    list. *)
Theorem Splice_delete_range r anchor X data rnd :
  reachable r → is_Some (r_byId r !! anchor) → X ≠ anchor →
  X ∈ rm_Id <$> successors r anchor →
  let removed := through X (successors r anchor) in
  (∃ r', Splice r anchor (Some X) None data rnd = Ret (r', removed, None)
    ∧ X ∈ rm_Id <$> removed
    ∧ (∀ id, id ∈ rm_Id <$> removed → r_byId r' !! id = None)
    ∧ (∀ id, ¬ id ∈ rm_Id <$> removed → r_byId r' !! id = r_byId r !! id)
    ∧ Len r' = isub (Len r) (total_len removed)
    ∧ (live_sum r ≤ int_max → Len r' = Len r - total_len removed))
  ∧ (∀ del ins data' rnd' r' removed' err,
       Splice r anchor del ins data' rnd' = Ret (r', removed', err) →
       del = None ∨ del = Some anchor ∨ err ≠ None → removed' = []).
Proof.
  intros [L Hr]%reachable_rep [p Hp] HX Hin removed. split.
  - destruct (rep_lookup _ _ _ _ Hr Hp) as (a & rpre & post & HF & <- & _).
    apply (Splice_delete_ok r L a rpre post X data rnd Hr HF HX).
    rewrite (successors_rep _ _ _ _ _ Hr HF), ids_rec_of in Hin. done.
  - intros del ins data' rnd' r' removed' err Hs Hno.
    destruct (Splice_cases r L anchor del ins data' rnd' Hr)
      as [(_ & _ & Hs')|[(_ & iid & _ & _ & Hs')|[(_ & iid & _ & _ & _ & Hs')
         |(a & rpre & post & HF & Ha & Hins)]]];
      try (rewrite Hs in Hs'; by injection Hs' as _ -> _).
    destruct (Splice_success r L a rpre post del ins data' rnd' Hr HF Hins)
      as (r1 & L1 & p1 & Hs' & _).
    rewrite Ha, Hs in Hs'. injection Hs' as _ -> ->.
    destruct Hno as [->|[->|?]]; [done| |done].
    unfold del_flag. by rewrite decide_False by (by intros ?).
Qed.

(** The length read off the payload is negative exactly when the payload
    has a [Len] method and that method reports a negative [int]. *)
Lemma data_len_negative data :
  data_len data < 0 ↔ ∃ n, sizer data = Some n ∧ wrap n < 0.
Proof.
  unfold data_len. destruct (sizer data) as [n|].
  - split; [eauto|]. by intros (? & [= <-] & ?).
  - split; [lia|]. by intros (? & ? & _).
Qed.

(** C2.  On a reachable rope [Splice] returns, and it returns
    [ErrBadAnchor] exactly when [afterId] is neither in the index nor the
    zero identifier, [ErrIdExists] exactly when the anchor is valid and
    [insertId] is given and in the index, [ErrNegativeLength] exactly when
    the anchor is valid, [insertId] is given and fresh, and the payload has
    a [Len] method that reports a negative length ([wrap n] being the [int]
    that [Len] hands back); whenever it returns an error the rope is the one
    it was called on and nothing is removed. *)
Theorem Splice_errors r afterId del ins data rnd :
  reachable r →
  ∃ r' removed err,
    Splice r afterId del ins data rnd = Ret (r', removed, err)
    ∧ (err = Some ErrBadAnchor ↔
         r_byId r !! afterId = None ∧ afterId ≠ zeroId)
    ∧ (err = Some ErrIdExists ↔
         anchor_valid r afterId
         ∧ ∃ iid, ins = Some iid ∧ is_Some (r_byId r !! iid))
    ∧ (err = Some ErrNegativeLength ↔
         anchor_valid r afterId
         ∧ ∃ iid, ins = Some iid ∧ r_byId r !! iid = None
           ∧ ∃ n, sizer data = Some n ∧ wrap n < 0)
    ∧ (err ≠ None → r' = r ∧ removed = []).
Proof.
  intros [L Hr]%reachable_rep. unfold anchor_valid.
  pose proof (rep_zero _ _ Hr) as Hz.
  destruct (Splice_cases r L afterId del ins data rnd Hr)
    as [(Hp & Hnz & Hs)|[([p Hp] & iid & -> & [q Hq] & Hs)
       |[([p Hp] & iid & -> & Hq & Hneg & Hs)
       |(a & rpre & post & HF & Ha & Hins)]]].
  - exists r, [], (Some ErrBadAnchor). split; [done|]. split_and!.
    + done.
    + split; [done|]. intros [[[? ?]| ->] _]; congruence.
    + split; [done|]. intros [[[? ?]| ->] _]; congruence.
    + done.
  - exists r, [], (Some ErrIdExists). split; [done|]. split_and!.
    + split; [done|]. intros [? _]. congruence.
    + split; [|done]. intros _. split; [left; eauto|]. eauto.
    + split; [done|]. intros (_ & iid' & [= <-] & ? & _). congruence.
    + done.
  - exists r, [], (Some ErrNegativeLength). split; [done|]. split_and!.
    + split; [done|]. intros [? _]. congruence.
    + split; [done|]. intros (_ & iid' & [= <-] & [? ?]). congruence.
    + split; [|done]. intros _. split; [left; eauto|].
      apply data_len_negative in Hneg. eauto.
    + done.
  - destruct (Splice_success r L a rpre post del ins data rnd Hr HF Hins)
      as (r1 & L1 & p1 & Hs & _).
    rewrite Ha in Hs. eexists _, _, None. split; [done|].
    assert (is_Some (r_byId r !! afterId)) as [p Hp].
    { rewrite <- Ha. rewrite (rep_live _ _ a Hr); [eauto|].
      rewrite HF. mem_solve. }
    split_and!.
    + split; [done|]. intros [? _]. congruence.
    + split; [done|]. intros (_ & iid & -> & [q Hq]).
      destruct Hins. congruence.
    + split; [done|]. intros (_ & iid & -> & _ & Hneg%data_len_negative).
      destruct Hins. lia.
    + done.
Qed.

(** C3.  In every reachable state [Len] is the sum of the lengths of the
    live entries, added up as Go adds [int]s; it is their sum as an integer
    whenever that fits an [int]. *)
Theorem Len_is_live_sum r :
  reachable r →
  Len r = int_sum (live_lens r)
  ∧ (live_sum r ≤ int_max → Len r = live_sum r).
Proof.
  intros [L Hr]%reachable_rep. unfold Len.
  rewrite (rep_len _ _ Hr). split.
  - rewrite int_sum_wrap. fold (live_sum r). by rewrite (live_sum_rep _ _ Hr).
  - intros Hmax. destruct (live_sum_bounds _ _ Hr Hmax).
    rewrite (live_sum_rep _ _ Hr). apply wrap_id. unfold int_min. lia.
Qed.

(** C4, as the code has it.  In a reachable state whose live lengths fit
    an [int], for the zero identifier and for every live identifier whose
    entry has a positive length, [ByPosition (Find X) false] is [(X, 0)]. *)
Theorem ByPosition_Find r X n :
  reachable r → live_sum r ≤ int_max →
  entry_len r X = Some n → 0 < n ∨ X = zeroId →
  ∃ pos, Find r X = Ret pos ∧ ByPosition r pos false = Ret (X, 0).
Proof.
  intros [L Hr]%reachable_rep Hmax Hn HX.
  destruct (live_sum_bounds _ _ Hr Hmax) as [_ Hhi].
  assert (∃ p, r_byId r !! X = Some p) as [p Hp].
  { unfold entry_len in Hn. destruct (r_byId r !! X); [eauto|done]. }
  destruct (rep_lookup _ _ _ _ Hr Hp) as (x & rp & po & HF & <- & _).
  rewrite (entry_len_rep _ _ _ _ _ Hr HF) in Hn. injection Hn as <-.
  exists (wrap (sum_len rp + a_len x)). split; [by eapply Find_ok|].
  destruct (decide (0 < a_len x)) as [Hpos|Hnpos].
  - by eapply ByPosition_Find_ok.
  - destruct HX as [?|Hz]; [done|].
    destruct (zip_head _ _ _ _ HF) as [(-> & -> & _)|(rp' & -> & HL)].
    + change (wrap (sum_len [] + a_len hdA)) with 0.
      unfold ByPosition. by rewrite decide_True by (right; done).
    + exfalso. pose proof (rep_ids _ _ Hr) as Hnd. rewrite HL in Hnd.
      rewrite fmap_cons, fmap_app, fmap_cons in Hnd.
      apply NoDup_cons in Hnd as [Hnd _]. apply Hnd. simpl. rewrite <- Hz.
      mem_solve.
Qed.

(** C5, what the code does.  A successful insertion with the head as
    anchor and no deletion makes the new identifier the last one exactly
    when the total length was zero before, whether or not the rope had
    entries; with another anchor it does so exactly when the anchor was the
    last identifier. *)
Theorem Splice_insert_LastId r afterId iid data rnd r' removed :
  reachable r →
  Splice r afterId None (Some iid) data rnd = Ret (r', removed, None) →
  LastId r' =
    if decide (afterId = zeroId) then
      if decide (Len r' = data_len data) then iid else LastId r
    else if decide (LastId r = afterId) then iid else LastId r.
Proof.
  intros [L Hr]%reachable_rep Hs.
  destruct (Splice_cases r L afterId None (Some iid) data rnd Hr)
    as [(_ & _ & Hs')|[(_ & ? & _ & _ & Hs')|[(_ & ? & _ & _ & _ & Hs')
       |(a & rpre & post & HF & Ha & Hins)]]];
    try (rewrite Hs in Hs'; by injection Hs' as _ _ ?).
  destruct (Splice_success r L a rpre post None (Some iid) data rnd Hr HF Hins)
    as (r1 & L1 & p1 & Hs' & _ & _ & Hlen & _ & Hlast).
  rewrite Ha, Hs in Hs'. injection Hs' as <- _.
  rewrite <- Ha. unfold LastId, Len.
  rewrite (Hlast iid) by done. rewrite Hlen. simpl.
  rewrite Z.sub_0_r, (rep_len _ _ Hr), wrap_wrap, <- (rep_len _ _ Hr).
  unfold lastId_after_insert.
  assert (a_ptr a = headp ↔ a_id a = zeroId) as Hhd.
  { destruct (zip_head _ _ _ _ HF) as [(_ & -> & _)|(rp' & -> & HL)]; [done|].
    split.
    - intros Hp. exfalso.
      destruct (rep_entry_ht _ _ _ _ _ Hr HF) as (_ & ? & _); [|done].
      by destruct rp'.
    - intros Hz. exfalso. pose proof (rep_ids _ _ Hr) as Hnd. rewrite HL in Hnd.
      rewrite fmap_cons, fmap_app, fmap_cons in Hnd.
      apply NoDup_cons in Hnd as [Hnd _]. apply Hnd. simpl. rewrite <- Hz.
      mem_solve. }
  repeat case_decide; try done; tauto.
Qed.

(** C6.  For two live identifiers of a reachable rope, [Compare] returns
    [ok = true] both ways round, with [cmp] one of -1, 0, 1 and the two
    results each other's negation; comparing a live identifier with itself
    gives [(0, true)]. *)
Theorem Compare_negation r a b :
  reachable r → is_Some (r_byId r !! a) → is_Some (r_byId r !! b) →
  ∃ c, Compare r a b = Ret (c, true) ∧ Compare r b a = Ret (- c, true)
    ∧ (c = -1 ∨ c = 0 ∨ c = 1)
    ∧ Compare r a a = Ret (0, true).
Proof.
  intros [L Hr]%reachable_rep Ha Hb.
  destruct (Compare_live r L a b Hr Ha Hb) as (c & H1 & H2 & H3 & _).
  exists c. split_and!; try done.
  by rewrite Compare_same, bool_decide_eq_true_2.
Qed.

(** C7, as the code has it.  In every state [ByPosition] returns the zero
    identifier with offset 0 when [position < 0], or [position = 0] with
    [biasAfter] false; when neither holds, it returns [LastId] with offset
    0 if [position > Len], or [position = Len] with [biasAfter] true.  The
    first rule wins where both apply, which needs a negative [Len]. *)
Theorem ByPosition_guards r position biasAfter :
  (position < 0 ∨ (position = 0 ∧ biasAfter = false) →
   ByPosition r position biasAfter = Ret (zeroId, 0))
  ∧ (¬ (position < 0 ∨ (position = 0 ∧ biasAfter = false)) →
     position > Len r ∨ (position = Len r ∧ biasAfter = true) →
     ByPosition r position biasAfter = Ret (LastId r, 0))
  ∧ (0 ≤ Len r →
     position > Len r ∨ (position = Len r ∧ biasAfter = true) →
     ByPosition r position biasAfter = Ret (LastId r, 0)).
Proof.
  unfold ByPosition, Len, LastId. split_and!.
  - intros Hg. rewrite decide_True; [done|]. tauto.
  - intros Hn Hg. rewrite decide_False by tauto.
    rewrite decide_True; [done|]. tauto.
  - intros Hlen Hg. rewrite decide_False.
    + rewrite decide_True; [done|]. tauto.
    + destruct biasAfter; intros [?|[? ?]]; destruct Hg as [?|[? ?]];
        try done; lia.
Qed.

(** C8.  With [deleteUntilId] equal to a live anchor and nothing to insert,
    [Splice] returns an empty list and no error, and the rope it leaves is
    the rope it was called on, field for field. *)
Theorem Splice_same_anchor r A data rnd :
  reachable r → is_Some (r_byId r !! A) →
  Splice r A (Some A) None data rnd = Ret (r, [], None).
Proof.
  intros [L Hr]%reachable_rep [p Hp].
  destruct (rep_lookup _ _ _ _ Hr Hp) as (a & rpre & post & HF & <- & _).
  destruct (Splice_success r L a rpre post (Some (a_id a)) None data rnd
    Hr HF I) as (r' & L' & _ & Hs & _ & _ & _ & Hsame & _).
  unfold del_flag in Hs, Hsame.
  rewrite decide_False in Hs, Hsame by (by intros ?). simpl in Hs, Hsame.
  by rewrite Hs, Hsame.
Qed.

(** C9.  For an identifier that is not in the index of a reachable rope:
    [Find] returns -1, [Info] returns the zero record, and [Between] and
    [Compare] return [(0, false)] with it on either side.  These
    operations are functions of the rope: they have no result but these
    values, and no rope comes back from them. *)
Theorem absent_reads r id :
  reachable r → r_byId r !! id = None →
  Find r id = Ret (-1)
  ∧ Info_of r id = Ret zeroInfo
  ∧ (∀ other, Between r id other = Ret (0, false)
       ∧ Between r other id = Ret (0, false)
       ∧ Compare r id other = Ret (0, false)
       ∧ Compare r other id = Ret (0, false)).
Proof.
  intros [L Hr]%reachable_rep Hid.
  assert (Hf : Find r id = Ret (-1)) by (unfold Find; by rewrite Hid).
  split_and!.
  - done.
  - unfold Info_of. by rewrite Hid.
  - intros other. split_and!.
    + unfold Between. by rewrite Hf.
    + unfold Between.
      assert (∃ v, Find r other = Ret v) as [v ->].
      { destruct (r_byId r !! other) as [p|] eqn:Hp.
        - destruct (rep_lookup _ _ _ _ Hr Hp) as (x & rp & po & HF & <- & _).
          rewrite (Find_ok _ _ _ _ _ Hr HF). eauto.
        - unfold Find. rewrite Hp. eauto. }
      simpl. case_decide; [done|]. by rewrite Hf.
    + apply Compare_absent. by left.
    + apply Compare_absent. by right.
Qed.

(** C10.  [Iter] from an identifier that is not in the index yields
    nothing: whatever the consumer and however long it may run, the call
    returns, with no element and the rope as it was. *)
Theorem Iter_absent n r afterId yield :
  r_byId r !! afterId = None → Iter n r afterId yield = Ret (r, []).
Proof. intros Hid. unfold Iter. by rewrite Hid. Qed.

End Claims.

(** * The operations on the sequence of entries

    The rest of the development reads every public operation on the
    sequence of entries that the rope holds. *)

Section Sequence.

Context `{RopeParams}.

(** The entries of the rope, in order: those that follow the zero entry. *)
Definition sequence (r : ropeImpl) : list Removed := successors r zeroId.

(** The entries of [s] up to and including the one named [id]; none for
    the zero identifier, which names the head. *)
Definition before (id : Id) (s : list Removed) : list Removed :=
  if decide (id = zeroId) then [] else through id s.

(** The record of the entry [Splice] inserts, if it inserts one. *)
Definition new_record (ins : option Id) (data : T) : list Removed :=
  match ins with
  | Some iid => [mkRemoved iid (data_len data) data]
  | None => []
  end.

(** The entries [Splice] deletes from the successors [s] of the anchor. *)
Definition deleted (del : option Id) (afterId : Id) (s : list Removed)
    : list Removed :=
  match del with
  | Some X => if decide (X ≠ afterId) then through X s else []
  | None => []
  end.

(** The identifier that follows a list of entries, the zero identifier when
    there is none. *)
Definition first_id (s : list Removed) : Id :=
  match s with
  | x :: _ => rm_Id x
  | [] => zeroId
  end.

(** ** Lists of records *)

Lemma through_split X (l1 : list anode) a l2 :
  a_id a = X → ¬ X ∈ a_id <$> l1 →
  through X (rec_of <$> (l1 ++ a :: l2)) = rec_of <$> (l1 ++ [a]).
Proof.
  intros Ha. induction l1 as [|y l1 IH]; csimpl; intros Hn.
  - by rewrite decide_True.
  - rewrite decide_False.
    + rewrite IH; [done|]. intros ?. apply Hn. by right.
    + intros Hy. apply Hn. rewrite <- Hy. left.
Qed.

Lemma through_all X (l : list Removed) :
  ¬ X ∈ rm_Id <$> l → through X l = l.
Proof.
  induction l as [|y l IH]; csimpl; intros Hn; [done|].
  rewrite decide_False.
  - rewrite IH; [done|]. intros ?. apply Hn. by right.
  - intros Hy. apply Hn. rewrite <- Hy. left.
Qed.

Lemma through_prefix X (l : list Removed) :
  ∃ k, l = through X l ++ k.
Proof.
  induction l as [|y l [k IH]]; simpl.
  - by exists [].
  - case_decide.
    + by exists l.
    + exists k. simpl. by f_equal.
Qed.

Lemma until_length u (post : list anode) :
  (List.length (until u post).1 + List.length (until u post).2
    = List.length post)%nat.
Proof. rewrite <- (until_app u post) at 3. by rewrite length_app. Qed.

(** ** The sequence of a well-formed rope *)

Lemma sequence_rep r L : rep r L → sequence r = rec_of <$> L.
Proof.
  intros Hr. unfold sequence.
  by apply (successors_rep r L [] hdA L Hr).
Qed.

(** Only the head carries the zero identifier. *)
Lemma rep_zero_head r L rp x po :
  rep r L → hdA :: L = reverse rp ++ x :: po →
  a_id x = zeroId → rp = [] ∧ x = hdA ∧ po = L.
Proof.
  intros Hr HF Hz.
  destruct (zip_head _ _ _ _ HF) as [?|(rp' & -> & HL)]; [done|].
  exfalso. pose proof (rep_ids _ _ Hr) as Hnd. rewrite HL in Hnd.
  rewrite fmap_cons, fmap_app, fmap_cons in Hnd.
  apply NoDup_cons in Hnd as [Hnd _]. apply Hnd. simpl. rewrite <- Hz.
  mem_solve.
Qed.

(** The entries up to an entry. *)
Lemma rep_before r L rp x po :
  rep r L → hdA :: L = reverse rp ++ x :: po →
  ∃ l1, hdA :: l1 = reverse rp ++ [x] ∧ L = l1 ++ po
    ∧ before (a_id x) (sequence r) = rec_of <$> l1.
Proof.
  intros Hr HF. rewrite (sequence_rep _ _ Hr). unfold before.
  destruct (zip_head _ _ _ _ HF) as [(-> & -> & ->)|(rp' & -> & HL)].
  - exists []. split_and!; try done. by rewrite decide_True.
  - exists (reverse rp' ++ [x]). split_and!.
    + by list_norm.
    + rewrite HL. by rewrite <- app_assoc.
    + pose proof (rep_ids _ _ Hr) as Hnd. rewrite HL in Hnd.
      rewrite fmap_cons, fmap_app, fmap_cons in Hnd.
      apply NoDup_cons in Hnd as [Hz Hnd].
      rewrite decide_False.
      2:{ intros Hx. apply Hz. simpl. rewrite <- Hx. mem_solve. }
      rewrite HL. apply through_split; [done|].
      apply NoDup_app in Hnd as (_ & Hd & _). intros Hin.
      apply (Hd _ Hin). left.
Qed.

Lemma sequence_split r L rp x po :
  rep r L → hdA :: L = reverse rp ++ x :: po →
  sequence r = before (a_id x) (sequence r) ++ successors r (a_id x).
Proof.
  intros Hr HF.
  destruct (rep_before _ _ _ _ _ Hr HF) as (l1 & _ & HL & ->).
  rewrite (successors_rep _ _ _ _ _ Hr HF), (sequence_rep _ _ Hr).
  by rewrite HL, fmap_app.
Qed.

(** The index holds the zero identifier and the identifiers of the
    sequence, each once. *)
Lemma rep_index_sequence r L id :
  rep r L →
  is_Some (r_byId r !! id) ↔ id = zeroId ∨ id ∈ rm_Id <$> sequence r.
Proof.
  intros Hr. rewrite (sequence_rep _ _ Hr), ids_rec_of. split.
  - intros [p (x & Hx & <- & _)%(rep_byId _ _ Hr)].
    apply elem_of_cons in Hx as [->|Hx]; [by left|].
    right. by apply list_elem_of_fmap_2.
  - intros [->|(x & -> & Hx)%list_elem_of_fmap].
    + rewrite (rep_zero _ _ Hr). eauto.
    + rewrite (rep_live _ _ x Hr); [eauto|]. by right.
Qed.

Lemma rep_size r L : rep r L → size (r_byId r) = S (List.length L).
Proof.
  intros Hr. rewrite <- length_map_to_list, (rep_index _ _ Hr).
  by rewrite length_fmap.
Qed.

End Sequence.

Section SpliceSequence.

Context `{RopeParams}.

(** ** Splice, Insert and Delete on the sequence *)

Lemma deleted_rep del afterId (post : list anode) :
  deleted del afterId (rec_of <$> post)
    = rec_of <$> removed_of (del_flag del afterId).1 (del_flag del afterId).2
                   post.
Proof.
  unfold deleted, del_flag, removed_of. destruct del as [X|]; [|done].
  case_decide; [|done]. simpl. apply through_until.
Qed.

Lemma rest_rep del afterId (post : list anode) :
  drop (List.length (deleted del afterId (rec_of <$> post))) (rec_of <$> post)
    = rec_of <$> rest_of (del_flag del afterId).1 (del_flag del afterId).2 post.
Proof.
  rewrite deleted_rep. unfold del_flag, removed_of, rest_of.
  destruct del as [X|]; [case_decide|]; simpl; try done.
  rewrite <- (until_app X post) at 2. rewrite fmap_app.
  by rewrite drop_app_length.
Qed.

Lemma Splice_success_full r L a rpre post del ins data rnd :
  rep r L → hdA :: L = reverse rpre ++ a :: post →
  match ins with
  | Some iid => r_byId r !! iid = None ∧ 0 ≤ data_len data
  | None => True
  end →
  let dd := del_flag del (a_id a) in
  ∃ r' L' p,
    Splice r (a_id a) del ins data rnd
      = Ret (r', rec_of <$> removed_of dd.1 dd.2 post, None)
    ∧ rep r' L'
    ∧ hdA :: L' =
        reverse rpre ++ a ::
          match ins with
          | Some iid => [mkA p iid (data_len data) data (randomHeight rnd)]
          | None => []
          end ++ rest_of dd.1 dd.2 post
    ∧ (dd.1 = true ∨ is_Some (r_byId r !! r_lastId r) →
       is_Some (r_byId r' !! r_lastId r'))
    ∧ (dd.1 = true → ins = None →
       r_lastId r' =
         if decide (dd.2 ∈ a_id <$> post ∧ is_Some (r_byId r' !! r_lastId r))
         then r_lastId r else a_id a).
Proof.
  intros Hr HF Hins dd.
  assert (Ha : r_byId r !! a_id a = Some (a_ptr a)).
  { apply (rep_live _ _ _ Hr). rewrite HF. mem_solve. }
  pose proof (data_len_range data) as Hrange.
  unfold Splice. rewrite Ha.
  fold (del_flag del (a_id a)). fold dd. destruct dd as [doDelete u] eqn:Hdd.
  simpl. destruct ins as [iid|].
  - destruct Hins as [Hfresh Hpos].
    rewrite decide_False by (rewrite Hfresh; by intros [? ?]).
    rewrite decide_False by lia.
    destruct (splice_ok_full r L a rpre post doDelete u true iid
      (data_len data) data rnd Hr HF)
      as (r' & L' & p & Hs & Hr' & HF' & _ & _ & _ & Hlive & _).
    { intros _. split; [done|lia]. }
    exists r', L', p. split_and!; try done.
  - destruct (splice_ok_full r L a rpre post doDelete u false zeroId 0
      data rnd Hr HF)
      as (r' & L' & p & Hs & Hr' & HF' & _ & _ & _ & Hlive & Hlast).
    { done. }
    exists r', L', p. split_and!; try done.
    intros ? _. by apply Hlast.
Qed.

(** How a successful [Splice] rewrites the sequence: the entries up to the
    anchor stay; after the anchor come the new entry, if any, and the old
    successors without those deleted, which are returned. *)
Theorem Splice_sequence r afterId del ins data rnd :
  reachable r → is_Some (r_byId r !! afterId) →
  match ins with
  | Some iid => r_byId r !! iid = None ∧ 0 ≤ data_len data
  | None => True
  end →
  let s := successors r afterId in
  let gone := deleted del afterId s in
  ∃ r',
    Splice r afterId del ins data rnd = Ret (r', gone, None)
    ∧ sequence r = before afterId (sequence r) ++ s
    ∧ successors r' afterId
        = new_record ins data ++ drop (List.length gone) s
    ∧ sequence r'
        = before afterId (sequence r) ++ new_record ins data
            ++ drop (List.length gone) s.
Proof.
  intros [L Hr]%reachable_rep [p Hp] Hins s gone.
  destruct (rep_lookup _ _ _ _ Hr Hp) as (a & rpre & post & HF & <- & _).
  destruct (Splice_success r L a rpre post del ins data rnd Hr HF Hins)
    as (r' & L' & q & Hs & Hr' & HF' & _).
  assert (Hsucc : s = rec_of <$> post) by apply (successors_rep _ _ _ _ _ Hr HF).
  assert (Hsucc' : successors r' (a_id a)
    = new_record ins data ++ drop (List.length gone) s).
  { rewrite (successors_rep _ _ _ _ _ Hr' HF'). unfold gone.
    rewrite Hsucc, rest_rep, fmap_app. by destruct ins. }
  exists r'. split_and!.
  - unfold gone. by rewrite Hsucc, deleted_rep.
  - by apply (sequence_split _ _ _ _ _ Hr HF).
  - done.
  - rewrite (sequence_split _ _ _ _ _ Hr' HF'), Hsucc'. f_equal.
    destruct (rep_before _ _ _ _ _ Hr HF) as (l1 & Hl1 & _ & ->).
    destruct (rep_before _ _ _ _ _ Hr' HF') as (l1' & Hl1' & _ & ->).
    rewrite <- Hl1 in Hl1'. by injection Hl1' as ->.
Qed.

Lemma Len_sequence r L :
  rep r L → Len r = int_sum (rm_Len <$> sequence r).
Proof.
  intros Hr. rewrite int_sum_wrap. fold (total_len (sequence r)).
  rewrite (sequence_rep _ _ Hr), total_len_rec_of. apply (rep_len _ _ Hr).
Qed.

Lemma Count_sequence r L :
  rep r L → Count r = Z.of_nat (List.length (sequence r)).
Proof.
  intros Hr. unfold Count.
  rewrite (rep_size _ _ Hr), (sequence_rep _ _ Hr), length_fmap. lia.
Qed.

(** The index and the list linked at level 0 hold the same entries: in a
    reachable rope the identifiers of the sequence are distinct and none is
    the zero identifier, the index holds them and the zero identifier and
    nothing else, [Count] is the number of entries, every length is
    between 0 and the largest [int], and [Len] is their sum as Go adds
    them. *)
Theorem index_is_sequence r :
  reachable r →
  NoDup (rm_Id <$> sequence r)
  ∧ ¬ zeroId ∈ rm_Id <$> sequence r
  ∧ (∀ id, is_Some (r_byId r !! id) ↔
       id = zeroId ∨ id ∈ rm_Id <$> sequence r)
  ∧ Count r = Z.of_nat (List.length (sequence r))
  ∧ Forall (λ x, 0 ≤ rm_Len x ≤ int_max) (sequence r)
  ∧ Len r = int_sum (rm_Len <$> sequence r).
Proof.
  intros [L Hr]%reachable_rep.
  pose proof (rep_ids _ _ Hr) as Hnd. rewrite fmap_cons in Hnd.
  apply NoDup_cons in Hnd as [Hz Hnd].
  split_and!.
  - by rewrite (sequence_rep _ _ Hr), ids_rec_of.
  - by rewrite (sequence_rep _ _ Hr), ids_rec_of.
  - intros id. by apply (rep_index_sequence r L).
  - by eapply Count_sequence.
  - rewrite (sequence_rep _ _ Hr). apply Forall_fmap.
    eapply Forall_impl; [apply (rep_entries _ _ Hr)|].
    by intros x (_ & _ & _ & ?).
  - by eapply Len_sequence.
Qed.

(** [Insert] with a live anchor, a fresh identifier and a payload of
    length at least 0 succeeds: the new entry comes right after the
    anchor and nothing else moves; the index gains the new identifier
    alone; [Len] grows by the length and [Count] by one. *)
Theorem Insert_after r afterId newId data rnd :
  reachable r → is_Some (r_byId r !! afterId) →
  r_byId r !! newId = None → 0 ≤ data_len data →
  let e := mkRemoved newId (data_len data) data in
  ∃ r',
    Insert r afterId newId data rnd = Ret (r', None)
    ∧ sequence r'
        = before afterId (sequence r) ++ e :: successors r afterId
    ∧ successors r' newId = successors r afterId
    ∧ (∀ id, is_Some (r_byId r' !! id) ↔
         id = newId ∨ is_Some (r_byId r !! id))
    ∧ entry_len r' newId = Some (data_len data)
    ∧ Len r' = iadd (Len r) (data_len data)
    ∧ Count r' = Count r + 1.
Proof.
  intros Hreach [p Hp] Hfresh Hlen e.
  destruct (reachable_rep _ Hreach) as [L Hr].
  destruct (rep_lookup _ _ _ _ Hr Hp) as (a & rpre & post & HF & <- & _).
  destruct (Splice_success r L a rpre post None (Some newId) data rnd Hr HF)
    as (r' & L' & q & Hs & Hr' & HF' & Hl & _); [done|].
  simpl in Hs, HF', Hl.
  set (x := mkA q newId (data_len data) data (randomHeight rnd)) in *.
  assert (HFx : hdA :: L' = reverse (a :: rpre) ++ x :: post).
  { rewrite HF'. by list_norm. }
  pose proof (sequence_split _ _ _ _ _ Hr HF) as Hseq.
  assert (Hseq' : sequence r'
    = before (a_id a) (sequence r) ++ e :: successors r (a_id a)).
  { rewrite (sequence_split _ _ _ _ _ Hr' HF').
    rewrite (successors_rep _ _ _ _ _ Hr' HF').
    rewrite (successors_rep _ _ _ _ _ Hr HF). f_equal.
    destruct (rep_before _ _ _ _ _ Hr HF) as (l1 & Hl1 & _ & ->).
    destruct (rep_before _ _ _ _ _ Hr' HF') as (l1' & Hl1' & _ & ->).
    rewrite <- Hl1 in Hl1'. by injection Hl1' as ->. }
  exists r'. split_and!.
  - unfold Insert. by rewrite Hs.
  - done.
  - rewrite (successors_rep _ _ _ _ _ Hr HF).
    apply (successors_rep _ _ _ _ _ Hr' HFx).
  - intros id. rewrite (rep_index_sequence r' L' id Hr'), Hseq'.
    rewrite (rep_index_sequence r L id Hr).
    remember (before (a_id a) (sequence r)) as B eqn:HB. rewrite Hseq.
    rewrite !fmap_app, fmap_cons. subst e. simpl.
    rewrite !elem_of_app, elem_of_cons. tauto.
  - apply (entry_len_rep _ _ _ _ _ Hr' HFx).
  - unfold Len. rewrite Hl. rewrite Z.sub_0_r, (rep_len _ _ Hr).
    by rewrite wrap_wrap.
  - rewrite (Count_sequence _ _ Hr'), (Count_sequence _ _ Hr), Hseq'.
    remember (before (a_id a) (sequence r)) as B eqn:HB. rewrite Hseq.
    rewrite !length_app. simpl. lia.
Qed.

Lemma reachable_lastId r : reachable r → is_Some (r_byId r !! r_lastId r).
Proof.
  induction 1 as [root|r afterId del ins data rnd r' removed err Hreach IH Hs
                  |r e h _ IH _|r e h u _ IH _]; try done.
  - simpl. rewrite lookup_singleton_eq. eauto.
  - destruct (reachable_rep _ Hreach) as [L Hr].
    destruct (Splice_cases r L afterId del ins data rnd Hr)
      as [(_ & _ & Hs')|[(_ & iid & _ & _ & Hs')|[(_ & iid & _ & _ & _ & Hs')
         |(a & rpre & post & HF & Ha & Hins)]]];
      try (rewrite Hs in Hs'; by injection Hs' as -> _ _).
    destruct (Splice_success_full r L a rpre post del ins data rnd Hr HF Hins)
      as (r1 & L1 & p1 & Hs' & _ & _ & Hlive & _).
    rewrite Ha, Hs in Hs'. injection Hs' as -> _ _. apply Hlive. by right.
Qed.

(** [LastId] always names a live entry: the zero entry or an entry of the
    sequence. *)
Theorem LastId_live r :
  reachable r →
  is_Some (r_byId r !! LastId r)
  ∧ (LastId r = zeroId ∨ LastId r ∈ rm_Id <$> sequence r).
Proof.
  intros Hreach. pose proof (reachable_lastId r Hreach) as Hl.
  split; [done|]. destruct (reachable_rep _ Hreach) as [L Hr].
  by apply (rep_index_sequence r L).
Qed.

(** [Delete] from after a live anchor: the entries after the anchor are
    removed up to and including [untilId], and all of them when [untilId]
    is not among them.  [LastId] stays if [untilId] was found and the last
    identifier was not removed; otherwise it becomes the anchor. *)
Theorem Delete_range r afterId untilId rnd :
  reachable r → is_Some (r_byId r !! afterId) → untilId ≠ afterId →
  let s := successors r afterId in
  let gone := through untilId s in
  ∃ r',
    Delete r afterId untilId rnd = Ret (r', gone, None)
    ∧ sequence r'
        = before afterId (sequence r) ++ drop (List.length gone) s
    ∧ LastId r'
        = (if decide (untilId ∈ rm_Id <$> s ∧ ¬ LastId r ∈ rm_Id <$> gone)
           then LastId r else afterId)
    ∧ (¬ untilId ∈ rm_Id <$> s →
       gone = s ∧ successors r' afterId = [] ∧ LastId r' = afterId).
Proof.
  intros Hreach [p Hp] Hne s gone.
  destruct (reachable_rep _ Hreach) as [L Hr].
  pose proof (reachable_lastId _ Hreach) as Hlive.
  destruct (rep_lookup _ _ _ _ Hr Hp) as (a & rpre & post & HF & <- & _).
  destruct (Splice_success_full r L a rpre post (Some untilId) None zeroT rnd
    Hr HF I) as (r' & L' & q & Hs & Hr' & HF' & _ & Hlast).
  unfold del_flag in Hs, HF', Hlast.
  rewrite decide_True in Hs, HF', Hlast by done. simpl in Hs, HF', Hlast.
  specialize (Hlast eq_refl eq_refl).
  assert (Hsucc : s = rec_of <$> post) by apply (successors_rep _ _ _ _ _ Hr HF).
  assert (Hgone : gone = rec_of <$> (until untilId post).1).
  { unfold gone. rewrite Hsucc. apply through_until. }
  pose proof (until_app untilId post) as Hpost.
  destruct (until untilId post) as [d k] eqn:Hdk. simpl in *.
  assert (Hdrop : drop (List.length gone) s = rec_of <$> k).
  { rewrite Hgone, Hsucc, <- Hpost, fmap_app. by rewrite drop_app_length. }
  assert (Hsucc' : successors r' (a_id a) = rec_of <$> k)
    by apply (successors_rep _ _ _ _ _ Hr' HF').
  assert (Hseq' : sequence r'
    = before (a_id a) (sequence r) ++ drop (List.length gone) s).
  { rewrite (sequence_split _ _ _ _ _ Hr' HF'), Hsucc', Hdrop. f_equal.
    destruct (rep_before _ _ _ _ _ Hr HF) as (l1 & Hl1 & _ & ->).
    destruct (rep_before _ _ _ _ _ Hr' HF') as (l1' & Hl1' & _ & ->).
    rewrite <- Hl1 in Hl1'. by injection Hl1' as ->. }
  assert (Hkeep : is_Some (r_byId r' !! r_lastId r)
    ↔ ¬ r_lastId r ∈ rm_Id <$> gone).
  { rewrite Hgone, ids_rec_of.
    pose proof (rep_ids _ _ Hr) as Hnd. rewrite HF, <- Hpost in Hnd.
    replace (reverse rpre ++ a :: d ++ k)
      with ((reverse rpre ++ [a]) ++ d ++ k) in Hnd
      by (by rewrite <- app_assoc).
    rewrite (fmap_app a_id (reverse rpre ++ [a]) (d ++ k)),
      (fmap_app a_id d k) in Hnd.
    destruct Hlive as [pl Hpl].
    apply (rep_byId _ _ Hr) in Hpl as (x & Hx & Hxi & _).
    rewrite HF, <- Hpost in Hx. split.
    - intros [p' (y & Hy & Hyi & _)%(rep_byId _ _ Hr')] Hin.
      apply (NoDup_mid_disjoint _ _ _ _ Hnd Hin).
      rewrite <- fmap_app, <- Hyi. apply list_elem_of_fmap_2.
      rewrite HF' in Hy. revert Hy. mem_simpl. tauto.
    - intros Hnin. rewrite <- Hxi, (rep_live _ _ x Hr'); [eauto|].
      rewrite HF'. revert Hx. mem_simpl.
      intros [?|[?|[Hd|?]]]; try tauto.
      destruct Hnin. rewrite <- Hxi. by apply list_elem_of_fmap_2. }
  assert (Hfound : untilId ∈ a_id <$> post ↔ untilId ∈ rm_Id <$> s).
  { by rewrite Hsucc, ids_rec_of. }
  exists r'. split_and!.
  - unfold Delete. by rewrite Hs, Hgone.
  - done.
  - unfold LastId. rewrite Hlast.
    repeat case_decide; try done; tauto.
  - intros Hnot.
    assert (gone = s) as Hall by (by apply through_all).
    split; [done|]. split.
    + rewrite Hsucc', <- Hdrop, Hall. apply drop_all.
    + unfold LastId. rewrite Hlast. rewrite decide_False; [done|]. tauto.
Qed.

(** Inserting an entry and deleting it again: [Delete] returns the record
    of that entry alone, and the sequence, the index, [Len] and [Count] are
    what they were. *)
Theorem Insert_Delete r afterId newId data rnd rnd' :
  reachable r → is_Some (r_byId r !! afterId) →
  r_byId r !! newId = None → 0 ≤ data_len data →
  ∃ r1 r2,
    Insert r afterId newId data rnd = Ret (r1, None)
    ∧ Delete r1 afterId newId rnd'
        = Ret (r2, [mkRemoved newId (data_len data) data], None)
    ∧ sequence r2 = sequence r
    ∧ (∀ id, is_Some (r_byId r2 !! id) ↔ is_Some (r_byId r !! id))
    ∧ Len r2 = Len r
    ∧ Count r2 = Count r.
Proof.
  intros Hreach [p Hp] Hfresh Hlen.
  destruct (reachable_rep _ Hreach) as [L Hr].
  destruct (rep_lookup _ _ _ _ Hr Hp) as (a & rpre & post & HF & <- & _).
  assert (Hne : newId ≠ a_id a).
  { intros ->. rewrite (rep_live _ _ a Hr) in Hfresh; [done|].
    rewrite HF. mem_solve. }
  destruct (Splice_success r L a rpre post None (Some newId) data rnd Hr HF)
    as (r1 & L1 & q & Hs1 & Hr1 & HF1 & _); [done|].
  simpl in Hs1, HF1.
  set (x := mkA q newId (data_len data) data (randomHeight rnd)) in *.
  destruct (Splice_success r1 L1 a rpre (x :: post) (Some newId) None zeroT
    rnd' Hr1 HF1 I) as (r2 & L2 & _ & Hs2 & Hr2 & HF2 & _).
  unfold del_flag in Hs2, HF2. rewrite decide_True in Hs2, HF2 by done.
  simpl in Hs2, HF2. rewrite decide_True in Hs2, HF2 by done.
  simpl in Hs2, HF2.
  assert (L2 = L) as -> by (rewrite <- HF in HF2; by injection HF2).
  assert (Hseq : sequence r2 = sequence r).
  { by rewrite (sequence_rep _ _ Hr2), (sequence_rep _ _ Hr). }
  exists r1, r2. split_and!.
  - unfold Insert. by rewrite Hs1.
  - unfold Delete. by rewrite Hs2.
  - done.
  - intros id. rewrite (rep_index_sequence r2 L id Hr2).
    by rewrite (rep_index_sequence r L id Hr), Hseq.
  - by rewrite (Len_sequence _ _ Hr2), (Len_sequence _ _ Hr), Hseq.
  - by rewrite (Count_sequence _ _ Hr2), (Count_sequence _ _ Hr), Hseq.
Qed.

End SpliceSequence.

Section ReadSequence.

Context `{RopeParams}.

(** ** Find and Between *)

Lemma sum_len_before r L rp x po l1 :
  rep r L → hdA :: L = reverse rp ++ x :: po →
  hdA :: l1 = reverse rp ++ [x] → sum_len l1 = sum_len rp + a_len x.
Proof.
  intros Hr HF Hl1.
  assert (sum_len (hdA :: l1) = sum_len (reverse rp ++ [x])) as Hs
    by (by rewrite Hl1).
  rewrite sum_len_app, sum_len_reverse in Hs. simpl in Hs. lia.
Qed.

Lemma Find_before r L rp x po :
  rep r L → hdA :: L = reverse rp ++ x :: po →
  Find r (a_id x) = Ret (wrap (total_len (before (a_id x) (sequence r))))
  ∧ 0 ≤ total_len (before (a_id x) (sequence r)) ≤ sum_len L.
Proof.
  intros Hr HF.
  destruct (rep_before _ _ _ _ _ Hr HF) as (l1 & Hl1 & HL & ->).
  rewrite total_len_rec_of, (sum_len_before _ _ _ _ _ _ Hr HF Hl1).
  split; [by eapply Find_ok|].
  rewrite <- (sum_len_before _ _ _ _ _ _ Hr HF Hl1).
  pose proof (rep_nonneg _ _ Hr) as Hnn. apply Forall_cons in Hnn as [_ Hnn].
  rewrite HL in Hnn |- *. apply nonneg_app in Hnn as [Hn1 Hn2].
  pose proof (sum_len_nonneg _ Hn1). pose proof (sum_len_nonneg _ Hn2).
  rewrite sum_len_app. lia.
Qed.

(** [Find] gives the position after an entry: the sum of the lengths of
    the entries up to and including it, as Go adds them; 0 for the zero
    identifier.  When the live lengths fit an [int] it is that sum itself
    and lies between 0 and [Len]. *)
Theorem Find_is_running_total r X :
  reachable r → is_Some (r_byId r !! X) →
  Find r X = Ret (int_sum (rm_Len <$> before X (sequence r)))
  ∧ (live_sum r ≤ int_max →
     Find r X = Ret (total_len (before X (sequence r)))
     ∧ 0 ≤ total_len (before X (sequence r)) ≤ Len r).
Proof.
  intros [L Hr]%reachable_rep [p Hp].
  destruct (rep_lookup _ _ _ _ Hr Hp) as (x & rp & po & HF & <- & _).
  destruct (Find_before _ _ _ _ _ Hr HF) as [Hf Hb]. split.
  - by rewrite int_sum_wrap.
  - intros Hmax. destruct (live_sum_bounds _ _ Hr Hmax) as [Hlo Hhi].
    unfold Len. rewrite (rep_len _ _ Hr), (wrap_id (sum_len L)).
    2:{ unfold int_min. lia. }
    split; [|done]. rewrite Hf. f_equal. apply wrap_id. unfold int_min. lia.
Qed.

(** An entry that follows another. *)
Lemma successors_split r L rp x po b :
  rep r L → hdA :: L = reverse rp ++ x :: po →
  b ∈ rm_Id <$> successors r (a_id x) →
  ∃ m y po', po = m ++ y :: po' ∧ a_id y = b
    ∧ through b (successors r (a_id x)) = rec_of <$> (m ++ [y]).
Proof.
  intros Hr HF. rewrite (successors_rep _ _ _ _ _ Hr HF), ids_rec_of.
  intros (y & -> & (m & po' & ->)%list_elem_of_split)%list_elem_of_fmap.
  exists m, y, po'. split_and!; try done.
  apply through_split; [done|].
  pose proof (rep_ids _ _ Hr) as Hnd. rewrite HF in Hnd.
  rewrite fmap_app, fmap_cons, fmap_app, fmap_cons in Hnd.
  apply NoDup_app in Hnd as (_ & _ & Hnd).
  apply NoDup_cons in Hnd as [_ Hnd].
  apply NoDup_app in Hnd as (_ & Hd & _).
  intros Hin. apply (Hd _ Hin). left.
Qed.

(** [Between] two live entries, the second after the first, when the live
    lengths fit an [int]: the distance is the sum of the lengths of the
    entries after the first up to and including the second; the other way
    round it is the negation; from an entry to itself it is 0. *)
Theorem Between_distance r a b :
  reachable r → live_sum r ≤ int_max →
  b ∈ rm_Id <$> successors r a →
  let d := total_len (through b (successors r a)) in
  Between r a b = Ret (d, true)
  ∧ Between r b a = Ret (- d, true)
  ∧ Between r a a = Ret (0, true)
  ∧ 0 ≤ d ≤ Len r.
Proof.
  intros [L Hr]%reachable_rep Hmax Hb d.
  destruct (live_sum_bounds _ _ Hr Hmax) as [Hlo Hhi].
  assert (is_Some (r_byId r !! a)) as [p Hp].
  { unfold successors in Hb. destruct (r_byId r !! a); [eauto|].
    by apply elem_of_nil in Hb. }
  destruct (rep_lookup _ _ _ _ Hr Hp) as (x & rp & po & HF & <- & _).
  destruct (successors_split _ _ _ _ _ _ Hr HF Hb)
    as (m & y & po' & -> & <- & Hthr).
  assert (HFy : hdA :: L = reverse (reverse m ++ x :: rp) ++ y :: po').
  { rewrite HF. by list_norm. }
  pose proof (Find_ok _ _ _ _ _ Hr HF) as Hfa.
  pose proof (Find_ok _ _ _ _ _ Hr HFy) as Hfb.
  rewrite sum_len_app, sum_len_reverse in Hfb. simpl in Hfb.
  assert (Hd : d = sum_len m + a_len y).
  { unfold d. rewrite Hthr, total_len_rec_of, sum_len_app. simpl. lia. }
  pose proof (rep_nonneg _ _ Hr) as Hnn. rewrite HF in Hnn.
  apply nonneg_app in Hnn
    as [Hnrp [Hnx [Hnm [Hny Hnpo]%Forall_cons]%nonneg_app]%Forall_cons].
  pose proof (sum_len_nonneg _ Hnrp) as Hs1. rewrite sum_len_reverse in Hs1.
  pose proof (sum_len_nonneg _ Hnm) as Hs2.
  pose proof (sum_len_nonneg _ Hnpo) as Hs3.
  assert (Htot : sum_len (hdA :: L)
    = sum_len rp + (a_len x + (sum_len m + (a_len y + sum_len po')))).
  { rewrite HF, sum_len_app, sum_len_reverse. simpl. rewrite sum_len_app.
    simpl. lia. }
  simpl in Htot.
  rewrite wrap_id in Hfa by (unfold int_min; lia).
  rewrite wrap_id in Hfb by (unfold int_min; lia).
  unfold Between, Len. rewrite Hfa, Hfb, (rep_len _ _ Hr), Hd. simpl.
  rewrite (wrap_id (sum_len L)) by (unfold int_min; lia).
  rewrite !decide_False by lia.
  split_and!; try lia; do 2 f_equal; unfold isub; rewrite wrap_id;
    unfold int_min, int_max in *; lia.
Qed.

(** ** Compare and Less *)

Lemma successors_ids r L rp x po :
  rep r L → hdA :: L = reverse rp ++ x :: po →
  rm_Id <$> successors r (a_id x) = a_id <$> po.
Proof.
  intros Hr HF. by rewrite (successors_rep _ _ _ _ _ Hr HF), ids_rec_of.
Qed.

Lemma successors_absent r a : r_byId r !! a = None → successors r a = [].
Proof. intros Ha. unfold successors. by rewrite Ha. Qed.

(** An entry is not among its own successors, and of two entries at most
    one follows the other. *)
Lemma successors_order r L rp x m y po :
  rep r L → hdA :: L = reverse rp ++ x :: m ++ y :: po →
  a_id y ∈ rm_Id <$> successors r (a_id x)
  ∧ ¬ a_id x ∈ rm_Id <$> successors r (a_id y)
  ∧ ¬ a_id x ∈ rm_Id <$> successors r (a_id x)
  ∧ ∀ c, c ∈ rm_Id <$> successors r (a_id y) →
      c ∈ rm_Id <$> successors r (a_id x).
Proof.
  intros Hr HF.
  assert (HFx : hdA :: L = reverse rp ++ x :: (m ++ y :: po)) by done.
  assert (HFy : hdA :: L = reverse (reverse m ++ x :: rp) ++ y :: po).
  { rewrite HF. by list_norm. }
  rewrite (successors_ids _ _ _ _ _ Hr HFx), (successors_ids _ _ _ _ _ Hr HFy).
  pose proof (rep_ids _ _ Hr) as Hnd. rewrite HF in Hnd.
  rewrite fmap_app, fmap_cons in Hnd.
  apply NoDup_app in Hnd as (_ & _ & Hnd).
  apply NoDup_cons in Hnd as [Hx _].
  rewrite fmap_app, fmap_cons in Hx |- *. split_and!.
  - mem_solve.
  - intros Hin. apply Hx. mem_solve.
  - done.
  - intros c Hc. mem_solve.
Qed.

Lemma order_cases r L a b :
  rep r L → is_Some (r_byId r !! a) → is_Some (r_byId r !! b) →
  (a = b ∧ ¬ a ∈ rm_Id <$> successors r a)
  ∨ (a ≠ b ∧ b ∈ rm_Id <$> successors r a ∧ ¬ a ∈ rm_Id <$> successors r b
     ∧ Compare r a b = Ret (-1, true) ∧ Compare r b a = Ret (1, true))
  ∨ (a ≠ b ∧ a ∈ rm_Id <$> successors r b ∧ ¬ b ∈ rm_Id <$> successors r a
     ∧ Compare r a b = Ret (1, true) ∧ Compare r b a = Ret (-1, true)).
Proof.
  intros Hr [pa Ha] [pb Hb].
  apply (rep_byId _ _ Hr) in Ha as (x & Hx & <- & _).
  apply (rep_byId _ _ Hr) in Hb as (y & Hy & <- & _).
  destruct (decide (a_id x = a_id y)) as [Heq|Hne].
  - left. split; [done|].
    destruct (zip_elem _ _ Hx) as (rp & po & HF).
    rewrite (successors_ids _ _ _ _ _ Hr HF).
    pose proof (rep_ids _ _ Hr) as Hnd. rewrite HF in Hnd.
    rewrite fmap_app, fmap_cons in Hnd.
    apply NoDup_app in Hnd as (_ & _ & Hnd).
    by apply NoDup_cons in Hnd as [? _].
  - right.
    destruct (zip_two _ _ _ Hx Hy) as [(rp & m & po & HF)|(rp & m & po & HF)].
    { congruence. }
    + left. destruct (Compare_before _ _ _ _ _ _ _ Hr HF) as [-> ->].
      destruct (successors_order _ _ _ _ _ _ _ Hr HF) as (? & ? & _).
      by split_and!.
    + right. destruct (Compare_before _ _ _ _ _ _ _ Hr HF) as [-> ->].
      destruct (successors_order _ _ _ _ _ _ _ Hr HF) as (? & ? & _).
      by split_and!.
Qed.

(** [Compare] of two live identifiers tells their order in the sequence:
    it is -1 exactly when the second follows the first, 1 exactly when the
    first follows the second, and 0 exactly when they are equal. *)
Theorem Compare_is_order r a b :
  reachable r → is_Some (r_byId r !! a) → is_Some (r_byId r !! b) →
  (Compare r a b = Ret (-1, true) ↔ b ∈ rm_Id <$> successors r a)
  ∧ (Compare r a b = Ret (1, true) ↔ a ∈ rm_Id <$> successors r b)
  ∧ (Compare r a b = Ret (0, true) ↔ a = b).
Proof.
  intros [L Hr]%reachable_rep Ha Hb.
  destruct (order_cases r L a b Hr Ha Hb)
    as [[<- Hn]|[(Hne & Hab & Hba & Hc & _)|(Hne & Hba & Hab & Hc & _)]].
  - rewrite Compare_same, bool_decide_eq_true_2 by done.
    split_and!; (split; [by intros [=]|done]) || done.
  - rewrite Hc. split_and!; split; try done; by intros [=].
  - rewrite Hc. split_and!; split; try done; by intros [=].
Qed.

Lemma Less_ok r L a b :
  rep r L →
  Less r a b = Ret (bool_decide (b ∈ rm_Id <$> successors r a)).
Proof.
  intros Hr. unfold Less.
  destruct (r_byId r !! a) as [pa|] eqn:Ha.
  - destruct (r_byId r !! b) as [pb|] eqn:Hb.
    + destruct (order_cases r L a b Hr)
        as [[<- Hn]|[(Hne & Hab & Hba & Hc & _)|(Hne & Hba & Hab & Hc & _)]];
        [by eauto..| | |].
      * rewrite Compare_same. simpl. by rewrite bool_decide_eq_false_2.
      * rewrite Hc. simpl. by rewrite bool_decide_eq_true_2.
      * rewrite Hc. simpl. by rewrite bool_decide_eq_false_2.
    + rewrite Compare_absent by (by right). simpl.
      rewrite bool_decide_eq_false_2; [done|]. intros Hin.
      assert (is_Some (r_byId r !! b)) as [? ?]; [|congruence].
      destruct (rep_lookup _ _ _ _ Hr Ha) as (x & rp & po & HF & <- & _).
      rewrite (successors_ids _ _ _ _ _ Hr HF) in Hin.
      apply list_elem_of_fmap in Hin as (y & -> & Hy).
      rewrite (rep_live _ _ y Hr); [eauto|]. rewrite HF. mem_solve.
  - rewrite Compare_absent by (by left). simpl.
    rewrite (successors_absent _ _ Ha).
    rewrite bool_decide_eq_false_2; [done|]. by intros ?%elem_of_nil.
Qed.

(** [Less] is the strict order of the sequence: it holds exactly when the
    second identifier names an entry after the first, so it is
    irreflexive, asymmetric and transitive, and it relates any two
    different live identifiers one way or the other. *)
Theorem Less_is_strict_order r :
  reachable r →
  (∀ a b, Less r a b = Ret (bool_decide (b ∈ rm_Id <$> successors r a)))
  ∧ (∀ a, Less r a a = Ret false)
  ∧ (∀ a b, Less r a b = Ret true → Less r b a = Ret false)
  ∧ (∀ a b c, Less r a b = Ret true → Less r b c = Ret true →
       Less r a c = Ret true)
  ∧ (∀ a b, is_Some (r_byId r !! a) → is_Some (r_byId r !! b) → a ≠ b →
       Less r a b = Ret true ∨ Less r b a = Ret true).
Proof.
  intros [L Hr]%reachable_rep.
  assert (Hlive : ∀ a b, b ∈ rm_Id <$> successors r a →
    is_Some (r_byId r !! a) ∧ is_Some (r_byId r !! b)).
  { intros a b Hin. destruct (r_byId r !! a) as [pa|] eqn:Ha.
    - split; [eauto|].
      destruct (rep_lookup _ _ _ _ Hr Ha) as (x & rp & po & HF & <- & _).
      rewrite (successors_ids _ _ _ _ _ Hr HF) in Hin.
      apply list_elem_of_fmap in Hin as (y & -> & Hy).
      rewrite (rep_live _ _ y Hr); [eauto|]. rewrite HF. mem_solve.
    - rewrite (successors_absent _ _ Ha) in Hin. by apply elem_of_nil in Hin. }
  split; [intros a b; by apply (Less_ok r L)|].
  split_and!.
  - intros a. rewrite (Less_ok r L) by done. f_equal.
    apply bool_decide_eq_false_2. intros Hin.
    destruct (Hlive _ _ Hin) as [Ha _].
    destruct (order_cases r L a a Hr Ha Ha) as [[_ ?]|[(? & _)|(? & _)]]; done.
  - intros a b. rewrite !(Less_ok r L) by done.
    intros [= Hab%bool_decide_eq_true_1]. f_equal.
    apply bool_decide_eq_false_2. intros Hba.
    destruct (Hlive _ _ Hab) as [Ha Hb].
    destruct (order_cases r L a b Hr Ha Hb)
      as [[<- ?]|[(_ & _ & ? & _)|(_ & _ & ? & _)]]; done.
  - intros a b c. rewrite !(Less_ok r L) by done.
    intros [= Hab%bool_decide_eq_true_1] [= Hbc%bool_decide_eq_true_1].
    f_equal. apply bool_decide_eq_true_2.
    destruct (Hlive _ _ Hab) as [[pa Ha] _].
    destruct (rep_lookup _ _ _ _ Hr Ha) as (x & rp & po & HF & <- & _).
    destruct (successors_split _ _ _ _ _ _ Hr HF Hab)
      as (m & y & po' & -> & <- & _).
    by apply (successors_order _ _ _ _ _ _ _ Hr HF).
  - intros a b Ha Hb Hne. rewrite !(Less_ok r L) by done.
    destruct (order_cases r L a b Hr Ha Hb)
      as [[? ?]|[(_ & ? & _)|(_ & ? & _)]]; [done| |].
    + left. f_equal. by apply bool_decide_eq_true_2.
    + right. f_equal. by apply bool_decide_eq_true_2.
Qed.

(** ** Info *)

Lemma first_above_0_pre r L rp x po :
  rep r L → hdA :: L = reverse rp ++ x :: po →
  first_above 0 rp = head rp.
Proof.
  intros Hr HF. destruct rp as [|p rp]; [done|]. simpl.
  assert (HFp : hdA :: L = reverse rp ++ p :: x :: po).
  { rewrite HF. by list_norm. }
  destruct (zip_head _ _ _ _ HFp) as [(_ & -> & _)|(rp' & -> & _)]; [done|].
  destruct (rep_entry_ht _ _ _ _ _ Hr HFp) as (_ & _ & Hht & _).
  { by destruct rp'. }
  by rewrite (proj2 (above_lt 0 p)) by lia.
Qed.

Lemma rep_level0 r L rp x po :
  rep r L → hdA :: L = reverse rp ++ x :: po →
  ∃ nd, r_heap r !! a_ptr x = Some nd ∧ n_id nd = a_id x
    ∧ dl_Len (n_dl nd) = a_len x
    ∧ (x ∈ L → n_dl nd = mkDataLen (a_len x) (a_data x))
    ∧ n_levels nd !! 0%nat
        = Some (mkLevel (a_ptr <$> head po)
                  (Some (from_option a_ptr (a_ptr x) (head rp)))
                  (a_len x)).
Proof.
  intros Hr HF. pose proof (rep_height _ _ Hr) as HH.
  destruct (rep_node _ _ _ _ _ Hr HF) as (nd & Hnd & Hid & Hlen & _ & Hdl & Hlv).
  exists nd. split_and!; try done.
  rewrite (Hlv 0%nat).
  - unfold canon. rewrite (first_above_0 _ _ _ _ _ Hr HF).
    rewrite (first_above_0_pre _ _ _ _ _ Hr HF). do 2 f_equal.
    assert (seg_len 0 po = 0) as ->.
    { destruct po as [|y po]; [done|]. simpl.
      assert (HFy : hdA :: L = reverse (x :: rp) ++ y :: po).
      { rewrite HF. by list_norm. }
      destruct (rep_entry_ht _ _ _ _ _ Hr HFy) as (_ & _ & ? & _); [done|].
      by rewrite (proj2 (above_lt 0 y)) by lia. }
    rewrite Z.add_0_r. apply wrap_id.
    destruct (zip_head _ _ _ _ HF) as [(_ & -> & _)|(rp' & -> & _)].
    + simpl. unfold int_min, int_max. lia.
    + destruct (rep_entry_ht _ _ _ _ _ Hr HF) as (_ & _ & _ & ?).
      { by destruct rp'. }
      unfold int_min. lia.
  - destruct (zip_head _ _ _ _ HF) as [(_ & -> & _)|(rp' & -> & _)].
    + change (a_ht hdA) with maxHeight. unfold maxHeight. lia.
    + destruct (rep_entry_ht _ _ _ _ _ Hr HF) as (_ & _ & ? & _).
      { by destruct rp'. }
      lia.
Qed.

Lemma Info_ok r L rp x po :
  rep r L → hdA :: L = reverse rp ++ x :: po →
  ∃ nd, r_heap r !! a_ptr x = Some nd
    ∧ Info_of r (a_id x)
        = Ret (mkInfo (a_id x) (first_id (rec_of <$> po))
                 (from_option a_id zeroId (head rp)) (n_dl nd)).
Proof.
  intros Hr HF.
  destruct (rep_level0 _ _ _ _ _ Hr HF) as (nd & Hnd & Hid & _ & _ & Hl0).
  exists nd. split; [done|]. unfold Info_of.
  rewrite (rep_live _ _ x Hr) by (rewrite HF; mem_solve).
  rewrite (deref_ok _ _ _ Hnd), bind_Ret. unfold level. rewrite Hl0. simpl.
  assert (∃ pn, r_heap r !! from_option a_ptr (a_ptr x) (head rp) = Some pn
    ∧ n_id pn = from_option a_id zeroId (head rp)) as (pn & Hpn & Hpid).
  { destruct rp as [|p rp]; simpl.
    - exists nd. split; [done|].
      destruct (zip_head _ _ _ _ HF) as [(_ & -> & _)|(rp' & ? & _)];
        [by rewrite Hid|by destruct rp'].
    - assert (HFp : hdA :: L = reverse rp ++ p :: x :: po).
      { rewrite HF. by list_norm. }
      destruct (rep_node _ _ _ _ _ Hr HFp) as (pn & Hpn & Hpid & _).
      by exists pn. }
  rewrite Hpn. simpl. rewrite Hid, Hpid. destruct po as [|y po]; simpl; [done|].
  assert (HFy : hdA :: L = reverse (x :: rp) ++ y :: po).
  { rewrite HF. by list_norm. }
  destruct (rep_node _ _ _ _ _ Hr HFy) as (yn & Hyn & Hyid & _).
  rewrite Hyn. simpl. by rewrite Hyid.
Qed.

(** [Info] on a live identifier: the record carries the identifier, the
    length of the entry, and the identifier of the next entry (the zero
    identifier when there is none).  Next and Prev are inverse: the record
    of the next entry names this one as its Prev, and carries the length
    and payload that the sequence shows.  The zero entry is its own
    Prev. *)
Theorem Info_links r X :
  reachable r → is_Some (r_byId r !! X) →
  ∃ i,
    Info_of r X = Ret i
    ∧ in_Id i = X
    ∧ in_Next i = first_id (successors r X)
    ∧ entry_len r X = Some (dl_Len (in_DataLen i))
    ∧ (X = zeroId → in_Prev i = zeroId)
    ∧ (∀ y s', successors r X = y :: s' →
         Info_of r (rm_Id y)
           = Ret (mkInfo (rm_Id y) (first_id s') X
                    (mkDataLen (rm_Len y) (rm_Data y)))).
Proof.
  intros [L Hr]%reachable_rep [p Hp].
  destruct (rep_lookup _ _ _ _ Hr Hp) as (x & rp & po & HF & <- & _).
  destruct (Info_ok _ _ _ _ _ Hr HF) as (nd & Hnd & Hi).
  destruct (rep_level0 _ _ _ _ _ Hr HF) as (nd' & Hnd' & _ & Hlen & _).
  assert (nd' = nd) as -> by congruence.
  rewrite (successors_rep _ _ _ _ _ Hr HF).
  eexists. split; [exact Hi|]. simpl. split_and!; try done.
  - by rewrite (entry_len_rep _ _ _ _ _ Hr HF), Hlen.
  - intros Hz. by destruct (rep_zero_head _ _ _ _ _ Hr HF Hz) as (-> & _).
  - intros y s' Hs. destruct po as [|e po]; [done|].
    injection Hs as <- <-.
    assert (HFe : hdA :: L = reverse (x :: rp) ++ e :: po).
    { rewrite HF. by list_norm. }
    destruct (Info_ok _ _ _ _ _ Hr HFe) as (en & Hen & Hie).
    simpl. rewrite Hie. simpl.
    destruct (rep_level0 _ _ _ _ _ Hr HFe) as (en' & Hen' & _ & _ & Hdl & _).
    assert (en' = en) as -> by congruence.
    rewrite Hdl; [done|].
    by destruct (rep_entry_ht _ _ _ _ _ Hr HFe) as (? & _).
Qed.

End ReadSequence.

Section ByPositionOk.

Context `{RopeParams}.

(** ** ByPosition at any position

    The descent looks for the entry [t], the last of [x :: seg], and for the
    place [off] before its end. *)

Lemma sum_len_last_ge l t :
  nonneg l → last l = Some t → a_len t ≤ sum_len l.
Proof.
  intros Hl [l' ->]%last_Some. apply nonneg_app in Hl as [Hl' _].
  rewrite sum_len_app. simpl. pose proof (sum_len_nonneg l' Hl'). lia.
Qed.

Lemma bp_advance_at r L m lv rp x seg pt t off :
  rep r L → sum_len L ≤ int_max →
  hdA :: L = reverse rp ++ x :: seg ++ pt →
  last (x :: seg) = Some t → 0 ≤ off ≤ a_len t →
  (lv < a_ht x `min` r_height r)%nat →
  (List.length seg < m)%nat →
  ∃ rp' y seg',
    bp_advance m (r_heap r) lv (a_ptr x) (a_len x + sum_len seg - off)
      = Ret (false, a_ptr y, a_len y + sum_len seg' - off)
    ∧ hdA :: L = reverse rp' ++ y :: seg' ++ pt
    ∧ last (y :: seg') = Some t
    ∧ (lv < a_ht y `min` r_height r)%nat
    ∧ (List.length seg' ≤ List.length seg)%nat
    ∧ (off < a_len t → below lv seg').
Proof.
  intros Hr Hmax. pose proof (rep_nonneg _ _ Hr) as Hnn.
  revert rp x seg.
  induction m as [|m IH]; intros rp x seg HF Hlast Ht Hx Hm; [lia|].
  destruct (rep_node _ _ _ _ _ Hr HF) as (nd & Hnd & _ & _ & _ & _ & Hlv).
  simpl. rewrite Hnd. simpl. unfold level. rewrite (Hlv lv Hx). simpl.
  rewrite HF in Hnn.
  apply nonneg_app in Hnn as [Hnrp [Hnx [Hnseg Hnpt]%nonneg_app]%Forall_cons].
  assert (Htot : sum_len (hdA :: L)
    = sum_len rp + (a_len x + (sum_len seg + sum_len pt))).
  { rewrite HF, sum_len_app, sum_len_reverse. simpl.
    by rewrite sum_len_app. }
  simpl in Htot.
  pose proof (sum_len_nonneg _ Hnseg) as Hs1.
  pose proof (sum_len_nonneg _ Hnpt) as Hs2.
  assert (Hs0 : 0 ≤ sum_len rp).
  { rewrite <- sum_len_reverse. by apply sum_len_nonneg. }
  assert (Hxs : nonneg (x :: seg)) by (by constructor).
  pose proof (sum_len_last_ge _ _ Hxs Hlast) as Hge. simpl in Hge.
  destruct (first_above lv seg) as [y|] eqn:Hy.
  - (* an entry with a level [lv] stands between [x] and the target *)
    destruct (first_above_Some _ _ _ Hy) as (s1 & s2 & Hseg & Hs1b & Hylv).
    rewrite (first_above_app_Some _ _ _ _ Hy).
    rewrite (seg_len_app_Some _ _ _ _ Hy).
    rewrite Hseg, seg_len_hit by done.
    rewrite Hseg in Hnseg.
    apply nonneg_app in Hnseg as [Hn1 Hn2].
    pose proof (sum_len_nonneg _ Hn1) as Hp1.
    assert (Hlast' : last (y :: s2) = Some t).
    { rewrite Hseg, app_comm_cons, last_app in Hlast.
      destruct (last (y :: s2)) eqn:E; [done|]. by apply last_None in E. }
    pose proof (sum_len_last_ge _ _ Hn2 Hlast') as Hge'.
    rewrite Hseg, sum_len_app in Htot, Hs1. simpl in Htot, Hge', Hs1.
    rewrite sum_len_app. simpl.
    rewrite (wrap_id (a_len x + sum_len s1)) by (unfold int_min; lia).
    case_decide as Hgt.
    + simpl.
      replace (isub (a_len x + (sum_len s1 + (a_len y + sum_len s2)) - off)
                    (a_len x + sum_len s1))
        with (a_len y + sum_len s2 - off).
      2:{ unfold isub. rewrite wrap_id; [lia|unfold int_min; lia]. }
      assert (HFy : hdA :: L
        = reverse (reverse s1 ++ x :: rp) ++ y :: s2 ++ pt).
      { rewrite HF, Hseg. by list_norm. }
      destruct (IH (reverse s1 ++ x :: rp) y s2 HFy Hlast' Ht)
        as (rp' & z & seg' & -> & ? & ? & ? & ? & ?).
      * apply above_lt in Hylv. lia.
      * rewrite Hseg, length_app in Hm. simpl in Hm. lia.
      * exists rp', z, seg'. split_and!; try done.
        rewrite length_app. simpl. lia.
    + (* the target starts exactly here: only the second loop goes on *)
      exists rp, x, (s1 ++ y :: s2). rewrite sum_len_app. simpl.
      split_and!; try done.
      * by rewrite HF, Hseg.
      * rewrite <- Hlast. by rewrite Hseg.
      * intros ?. lia.
  - (* no such entry: the loop stops here *)
    apply first_above_None in Hy.
    rewrite seg_len_below by done.
    pose proof (seg_len_bounds lv pt Hnpt) as Hb.
    rewrite wrap_id by (unfold int_min; lia).
    rewrite decide_False by lia.
    exists rp, x, seg. split_and!; try done.
Qed.

Lemma bp_bias_at r L m lv rp x seg pt t off :
  rep r L → sum_len L ≤ int_max →
  hdA :: L = reverse rp ++ x :: seg ++ pt →
  last (x :: seg) = Some t → 0 < off ≤ a_len t →
  (lv < a_ht x `min` r_height r)%nat →
  (List.length seg < m)%nat →
  ∃ rp' y seg',
    bp_bias m (r_heap r) lv (a_ptr x) (a_len x + sum_len seg - off)
      = Ret (a_ptr y, a_len y + sum_len seg' - off)
    ∧ hdA :: L = reverse rp' ++ y :: seg' ++ pt
    ∧ last (y :: seg') = Some t
    ∧ (lv < a_ht y `min` r_height r)%nat
    ∧ (List.length seg' ≤ List.length seg)%nat
    ∧ below lv seg'.
Proof.
  intros Hr Hmax. pose proof (rep_nonneg _ _ Hr) as Hnn.
  revert rp x seg.
  induction m as [|m IH]; intros rp x seg HF Hlast Ht Hx Hm; [lia|].
  destruct (rep_node _ _ _ _ _ Hr HF) as (nd & Hnd & _ & _ & _ & _ & Hlv).
  simpl. rewrite Hnd. simpl. unfold level. rewrite (Hlv lv Hx). simpl.
  rewrite HF in Hnn.
  apply nonneg_app in Hnn as [Hnrp [Hnx [Hnseg Hnpt]%nonneg_app]%Forall_cons].
  assert (Htot : sum_len (hdA :: L)
    = sum_len rp + (a_len x + (sum_len seg + sum_len pt))).
  { rewrite HF, sum_len_app, sum_len_reverse. simpl.
    by rewrite sum_len_app. }
  simpl in Htot.
  pose proof (sum_len_nonneg _ Hnseg) as Hs1.
  pose proof (sum_len_nonneg _ Hnpt) as Hs2.
  assert (Hs0 : 0 ≤ sum_len rp).
  { rewrite <- sum_len_reverse. by apply sum_len_nonneg. }
  assert (Hxs : nonneg (x :: seg)) by (by constructor).
  pose proof (sum_len_last_ge _ _ Hxs Hlast) as Hge. simpl in Hge.
  destruct (first_above lv seg) as [y|] eqn:Hy.
  - destruct (first_above_Some _ _ _ Hy) as (s1 & s2 & Hseg & Hs1b & Hylv).
    rewrite (first_above_app_Some _ _ _ _ Hy).
    rewrite (seg_len_app_Some _ _ _ _ Hy).
    rewrite Hseg, seg_len_hit by done.
    rewrite Hseg in Hnseg.
    apply nonneg_app in Hnseg as [Hn1 Hn2].
    pose proof (sum_len_nonneg _ Hn1) as Hp1.
    assert (Hlast' : last (y :: s2) = Some t).
    { rewrite Hseg, app_comm_cons, last_app in Hlast.
      destruct (last (y :: s2)) eqn:E; [done|]. by apply last_None in E. }
    pose proof (sum_len_last_ge _ _ Hn2 Hlast') as Hge'.
    rewrite Hseg, sum_len_app in Htot, Hs1. simpl in Htot, Hge', Hs1.
    rewrite sum_len_app. simpl.
    rewrite (wrap_id (a_len x + sum_len s1)) by (unfold int_min; lia).
    rewrite decide_True by lia. simpl.
    replace (isub (a_len x + (sum_len s1 + (a_len y + sum_len s2)) - off)
                  (a_len x + sum_len s1))
      with (a_len y + sum_len s2 - off).
    2:{ unfold isub. rewrite wrap_id; [lia|unfold int_min; lia]. }
    assert (HFy : hdA :: L
      = reverse (reverse s1 ++ x :: rp) ++ y :: s2 ++ pt).
    { rewrite HF, Hseg. by list_norm. }
    destruct (IH (reverse s1 ++ x :: rp) y s2 HFy Hlast' Ht)
      as (rp' & z & seg' & -> & ? & ? & ? & ? & ?).
    + apply above_lt in Hylv. lia.
    + rewrite Hseg, length_app in Hm. simpl in Hm. lia.
    + exists rp', z, seg'. split_and!; try done.
      rewrite length_app. simpl. lia.
  - apply first_above_None in Hy.
    rewrite seg_len_below by done.
    pose proof (seg_len_bounds lv pt Hnpt) as Hb.
    rewrite wrap_id by (unfold int_min; lia).
    rewrite decide_False by lia.
    exists rp, x, seg. split_and!; try done.
Qed.

(** The offsets [biasAfter] allows within an entry of length [n]. *)
Definition offset_ok (biasAfter : bool) (off n : Z) : Prop :=
  if biasAfter then 0 < off ≤ n else 0 ≤ off < n.

Lemma bp_descend_at r L n fl biasAfter rp x seg pt t off :
  rep r L → sum_len L ≤ int_max →
  hdA :: L = reverse rp ++ x :: seg ++ pt →
  last (x :: seg) = Some t → offset_ok biasAfter off (a_len t) →
  below n seg →
  (n ≤ a_ht x `min` r_height r)%nat →
  (List.length seg < fl)%nat →
  bp_descend n fl (r_heap r) biasAfter (a_ptr x) (a_len x + sum_len seg - off)
    = Ret (a_ptr t, a_len t - off).
Proof.
  intros Hr Hmax. revert rp x seg.
  induction n as [|n IH]; intros rp x seg HF Hlast Ht Hseg Hx Hfl.
  - assert (seg = []) as ->.
    { destruct seg as [|y seg]; [done|]. exfalso.
      apply Forall_cons in Hseg as [Hy _]. apply above_ge in Hy.
      assert (HFy : hdA :: L = reverse (x :: rp) ++ y :: seg ++ pt).
      { rewrite HF. by list_norm. }
      destruct (rep_entry_ht _ _ _ _ _ Hr HFy) as (_ & _ & ? & _); [done|].
      lia. }
    simpl in *. injection Hlast as ->. do 2 f_equal. lia.
  - simpl.
    destruct (bp_advance_at r L fl n rp x seg pt t off)
      as (rp' & y & seg' & -> & HF' & Hlast' & Hy & Hlen' & Hb'); try done.
    { destruct biasAfter; simpl in Ht; lia. }
    rewrite bind_Ret. destruct biasAfter; simpl in Ht.
    + destruct (bp_bias_at r L fl n rp' y seg' pt t off)
        as (rp2 & z & seg2 & -> & HF2 & Hlast2 & Hz & Hlen2 & Hb2);
        try done; [lia|].
      rewrite bind_Ret. apply (IH rp2 z seg2); try done; lia.
    + apply (IH rp' y seg'); try done; [apply Hb'|..]; lia.
Qed.

Lemma ByPosition_at r L rp x po biasAfter off :
  rep r L → sum_len L ≤ int_max →
  hdA :: L = reverse rp ++ x :: po →
  offset_ok biasAfter off (a_len x) →
  ByPosition r (sum_len rp + a_len x - off) biasAfter = Ret (a_id x, off).
Proof.
  intros Hr Hmax HF Hoff.
  pose proof (rep_height _ _ Hr) as HH.
  pose proof (rep_nonneg _ _ Hr) as Hnn.
  destruct (zip_head _ _ _ _ HF) as [(_ & -> & _)|(rp' & -> & HL)].
  { destruct biasAfter; simpl in Hoff; lia. }
  rewrite HF in Hnn.
  apply nonneg_app in Hnn as [Hnrp [Hnx Hnpo]%Forall_cons].
  pose proof (sum_len_nonneg _ Hnrp) as Hs1.
  pose proof (sum_len_nonneg _ Hnpo) as Hs2.
  rewrite sum_len_reverse in Hs1.
  assert (Htot : sum_len L = sum_len (rp' ++ [hdA]) + a_len x + sum_len po).
  { rewrite HL, sum_len_app, sum_len_reverse, !sum_len_app. simpl. lia. }
  unfold ByPosition.
  rewrite decide_False by (destruct biasAfter; simpl in Hoff;
    intros [?|[? ?]]; try done; lia).
  rewrite (rep_len _ _ Hr), (wrap_id (sum_len L)).
  2:{ unfold int_min. lia. }
  rewrite decide_False by (destruct biasAfter; simpl in Hoff;
    intros [?|[? ?]]; try done; lia).
  assert (HF2 : hdA :: L = reverse [] ++ hdA :: (reverse rp' ++ [x]) ++ po).
  { rewrite HL. by list_norm. }
  replace (sum_len (rp' ++ [hdA]) + a_len x - off)
    with (a_len hdA + sum_len (reverse rp' ++ [x]) - off).
  2:{ rewrite !sum_len_app, sum_len_reverse. simpl. lia. }
  assert (Hd : bp_descend (r_height r) (fuel r) (r_heap r) biasAfter headp
    (a_len hdA + sum_len (reverse rp' ++ [x]) - off)
      = Ret (a_ptr x, a_len x - off)).
  { apply (bp_descend_at r L (r_height r) (fuel r) biasAfter [] hdA
      (reverse rp' ++ [x]) po x off Hr Hmax HF2).
    - rewrite app_comm_cons, last_app. done.
    - done.
    - apply Forall_forall. intros y Hy. apply above_ge.
      pose proof (rep_entries _ _ Hr) as Hent. rewrite Forall_forall in Hent.
      destruct (Hent y) as (_ & _ & ? & _); [|lia].
      rewrite HL. revert Hy. mem_simpl. tauto.
    - change (a_ht hdA) with maxHeight. lia.
    - pose proof (rep_length _ _ Hr) as Hl. rewrite HL in Hl.
      rewrite !length_app, length_reverse in *. simpl in *. unfold fuel. lia. }
  rewrite Hd. rewrite bind_Ret.
  destruct (rep_node _ _ _ _ _ Hr HF) as (nd & Hnd & Hid & Hlen & _).
  rewrite (deref_ok _ _ _ Hnd). rewrite bind_Ret. rewrite Hid, Hlen.
  do 2 f_equal. unfold isub.
  replace (a_len x - (a_len x - off)) with off by lia.
  rewrite !sum_len_app in Htot. simpl in Htot.
  pose proof (sum_len_nonneg _ Hnrp) as Hs3.
  rewrite sum_len_reverse, sum_len_app in Hs3. simpl in Hs3.
  apply wrap_id. destruct biasAfter; simpl in Hoff; unfold int_min; lia.
Qed.

(** The entry that holds a position. *)
Lemma locate (biasAfter : bool) (l : list anode) p :
  nonneg l →
  (if biasAfter then 0 ≤ p < sum_len l else 0 < p ≤ sum_len l) →
  ∃ l1 t l2, l = l1 ++ t :: l2
    ∧ offset_ok biasAfter (sum_len l1 + a_len t - p) (a_len t).
Proof.
  intros Hl. revert p. induction Hl as [|y l Hy Hl IH]; intros p Hp.
  { destruct biasAfter; simpl in Hp; lia. }
  simpl in Hp.
  assert (Hcase : (if biasAfter then p < a_len y else p ≤ a_len y)
    ∨ (if biasAfter then 0 ≤ p - a_len y < sum_len l
       else 0 < p - a_len y ≤ sum_len l)).
  { destruct biasAfter; lia. }
  destruct Hcase as [Hin|Hout].
  - exists [], y, l. split; [done|].
    destruct biasAfter; simpl in *; lia.
  - destruct (IH (p - a_len y) Hout) as (l1 & t & l2 & -> & Hoff).
    exists (y :: l1), t, l2. split; [done|].
    destruct biasAfter; simpl in *; lia.
Qed.

(** [ByPosition] inverts [Find] inside every entry, when the live lengths
    fit an [int]: at [off] before the end of the entry [X], with
    [0 ≤ off < len X] and [biasAfter] false, or [0 < off ≤ len X] and
    [biasAfter] true, it returns [(X, off)]. *)
Theorem ByPosition_inverts_Find r X n off (biasAfter : bool) :
  reachable r → live_sum r ≤ int_max →
  entry_len r X = Some n →
  (if biasAfter then 0 < off ≤ n else 0 ≤ off < n) →
  ∃ pos, Find r X = Ret pos
    ∧ ByPosition r (pos - off) biasAfter = Ret (X, off).
Proof.
  intros [L Hr]%reachable_rep Hmax Hn Hoff.
  destruct (live_sum_bounds _ _ Hr Hmax) as [_ Hhi].
  assert (∃ p, r_byId r !! X = Some p) as [p Hp].
  { unfold entry_len in Hn. destruct (r_byId r !! X); [eauto|done]. }
  destruct (rep_lookup _ _ _ _ Hr Hp) as (x & rp & po & HF & <- & _).
  rewrite (entry_len_rep _ _ _ _ _ Hr HF) in Hn. injection Hn as <-.
  exists (sum_len rp + a_len x). split.
  - rewrite (Find_ok _ _ _ _ _ Hr HF). f_equal. apply wrap_id.
    pose proof (rep_nonneg _ _ Hr) as Hnn. rewrite HF in Hnn.
    apply nonneg_app in Hnn as [Hnrp [Hnx Hnpo]%Forall_cons].
    pose proof (sum_len_nonneg _ Hnrp) as Hs1.
    pose proof (sum_len_nonneg _ Hnpo) as Hs2.
    rewrite sum_len_reverse in Hs1.
    assert (sum_len (hdA :: L) = sum_len rp + (a_len x + sum_len po)) as Htot.
    { by rewrite HF, sum_len_app, sum_len_reverse. }
    simpl in Htot. unfold int_min. lia.
  - by apply (ByPosition_at r L rp x po).
Qed.

(** [ByPosition] on a reachable rope whose live lengths fit an [int]
    always answers with a live identifier and an offset within its entry.
    For a position of the text, from 1 to [Len] with [biasAfter] false and
    from 0 to [Len - 1] with [biasAfter] true, the answer is the entry that
    holds the position: [Find] of it less the offset is the position. *)
Theorem ByPosition_total r position biasAfter :
  reachable r → live_sum r ≤ int_max →
  ∃ X off n,
    ByPosition r position biasAfter = Ret (X, off)
    ∧ entry_len r X = Some n
    ∧ 0 ≤ off ≤ n
    ∧ ((if biasAfter then 0 ≤ position < Len r else 0 < position ≤ Len r) →
       (if biasAfter then 0 < off else off < n)
       ∧ ∃ pos, Find r X = Ret pos ∧ position = pos - off).
Proof.
  intros Hreach Hmax. destruct (reachable_rep _ Hreach) as [L Hr].
  destruct (live_sum_bounds _ _ Hr Hmax) as [Hlo Hhi].
  assert (Hlen : Len r = sum_len L).
  { unfold Len. rewrite (rep_len _ _ Hr). apply wrap_id. unfold int_min. lia. }
  assert (Hent : ∀ X, is_Some (r_byId r !! X) →
    ∃ n, entry_len r X = Some n ∧ 0 ≤ n).
  { intros X [p Hp].
    destruct (rep_lookup _ _ _ _ Hr Hp) as (x & rp & po & HF & <- & _).
    exists (a_len x). split; [by eapply entry_len_rep|].
    pose proof (rep_nonneg _ _ Hr) as Hnn. unfold nonneg in Hnn.
    rewrite Forall_forall in Hnn. apply Hnn. rewrite HF. mem_solve. }
  destruct (decide (position < 0 ∨ (biasAfter = false ∧ position = 0)))
    as [Hg1|Hg1].
  { destruct (Hent zeroId) as (n & Hn & Hn0).
    { rewrite (rep_zero _ _ Hr). eauto. }
    exists zeroId, 0, n. split_and!; try done.
    - unfold ByPosition. by rewrite decide_True.
    - intros Hin. destruct biasAfter; destruct Hg1 as [?|[? ?]]; try done; lia. }
  destruct (decide (position > Len r ∨ (biasAfter = true ∧ position = Len r)))
    as [Hg2|Hg2].
  { destruct (Hent (r_lastId r)) as (n & Hn & Hn0).
    { by apply reachable_lastId. }
    exists (r_lastId r), 0, n. split_and!; try done.
    - unfold ByPosition. rewrite decide_False by done.
      by rewrite decide_True.
    - intros Hin. destruct biasAfter; destruct Hg2 as [?|[? ?]]; try done; lia. }
  pose proof (rep_nonneg _ _ Hr) as Hnn. apply Forall_cons in Hnn as [_ HnL].
  destruct (locate biasAfter L position HnL) as (l1 & t & l2 & HL & Hoff).
  { rewrite <- Hlen. destruct biasAfter.
    - assert (position ≠ Len r) by tauto. lia.
    - assert (position ≠ 0) by tauto. lia. }
  assert (HF : hdA :: L = reverse (reverse l1 ++ [hdA]) ++ t :: l2).
  { rewrite HL. by list_norm. }
  assert (Hsum : sum_len (reverse l1 ++ [hdA]) = sum_len l1).
  { rewrite sum_len_app, sum_len_reverse. simpl. lia. }
  pose proof (ByPosition_at r L _ t l2 biasAfter _ Hr Hhi HF Hoff) as Hbp.
  rewrite Hsum in Hbp.
  replace (sum_len l1 + a_len t - (sum_len l1 + a_len t - position))
    with position in Hbp by lia.
  exists (a_id t), (sum_len l1 + a_len t - position), (a_len t).
  split_and!.
  - done.
  - by eapply entry_len_rep.
  - destruct biasAfter; simpl in Hoff; lia.
  - destruct biasAfter; simpl in Hoff; lia.
  - intros _. split; [destruct biasAfter; simpl in Hoff; lia|].
    exists (sum_len l1 + a_len t). split; [|lia].
    rewrite (Find_ok _ _ _ _ _ Hr HF), Hsum. f_equal. apply wrap_id.
    rewrite HL, sum_len_app in Hhi. simpl in Hhi.
    rewrite HL in HnL. apply nonneg_app in HnL as [H1 [H2 H3]%Forall_cons].
    pose proof (sum_len_nonneg _ H1). pose proof (sum_len_nonneg _ H3).
    unfold int_min. lia.
Qed.

End ByPositionOk.

(** * What splice keeps besides the sequence *)

Section Pool.

Context `{RopeParams}.

(** No cursor of an iteration is attached to a node of the heap. *)
Definition quiet (h : list ropeNode) : Prop :=
  Forall (λ nd, n_iterRef nd = None) h.

(** ** The writes of splice, one function at a time

    Each lemma follows one function of the source through its writes: to
    the pool, and to the cursors of the nodes. *)

Lemma deref_Some h p nd : deref h p = Ret nd → ∃ a, p = Some a ∧ h !! a = Some nd.
Proof.
  destruct p as [a|]; simpl; [|done].
  destruct (h !! a) eqn:E; [|done]. intros [= ->]. eauto.
Qed.

Lemma quiet_insert h p nd :
  quiet h → n_iterRef nd = None → quiet (<[p := nd]> h).
Proof.
  intros Hq Hn. destruct (decide (p < List.length h)%nat).
  - by apply Forall_insert.
  - by rewrite list_insert_ge by lia.
Qed.

Lemma quiet_lookup h p nd : quiet h → h !! p = Some nd → n_iterRef nd = None.
Proof. intros Hq Hp. by apply (Forall_lookup_1 _ _ _ _ Hq Hp). Qed.

Lemma upd_level_quiet h p j f h' :
  upd_level h p j f = Ret h' → quiet h → quiet h'.
Proof.
  unfold upd_level. intros Hu Hq.
  apply bind_Ret_inv in Hu as (n & Hn & Hu).
  apply bind_Ret_inv in Hu as (l & _ & Hu).
  apply deref_Some in Hn as (a & -> & Ha). injection Hu as <-.
  apply quiet_insert; [done|]. simpl. by eapply quiet_lookup.
Qed.

Lemma delete_level_quiet j h seek e h' :
  delete_level j h seek e = Ret h' → quiet h → quiet h'.
Proof.
  unfold delete_level. intros Hd Hq.
  apply bind_Ret_inv in Hd as (sk & _ & Hd).
  apply bind_Ret_inv in Hd as (nn & _ & Hd).
  apply bind_Ret_inv in Hd as (nl & _ & Hd).
  apply bind_Ret_inv in Hd as (en & _ & Hd).
  case_decide.
  - by eapply upd_level_quiet.
  - apply bind_Ret_inv in Hd as (el & _ & Hd).
    apply bind_Ret_inv in Hd as (h1 & Hh1 & Hd).
    apply bind_Ret_inv in Hd as (h2 & Hh2 & Hd).
    eapply upd_level_quiet; [done|].
    apply (upd_level_quiet _ _ _ _ _ Hh1) in Hq.
    destruct (l_next el); [by eapply upd_level_quiet|by injection Hh2 as <-].
Qed.

Lemma delete_levels_quiet n j h seek e h' :
  delete_levels n j h seek e = Ret h' → quiet h → quiet h'.
Proof.
  revert j h. induction n as [|n IH]; intros j h; simpl.
  - by intros [= <-].
  - intros Hd Hq. apply bind_Ret_inv in Hd as (h1 & Hh1 & Hd).
    eapply IH; [done|]. by eapply delete_level_quiet.
Qed.

Lemma returnToPool_keeps r e r' :
  returnToPool r e = Ret r' →
  ((List.length (r_nodePool r) ≤ poolSize)%nat →
   (List.length (r_nodePool r') ≤ poolSize)%nat)
  ∧ (quiet (r_heap r) → quiet (r_heap r')).
Proof.
  unfold returnToPool. intros Hp.
  apply bind_Ret_inv in Hp as (en & Hen & Hp).
  case_decide as Hc; injection Hp as <-; [done|]. simpl. split.
  - rewrite length_app. simpl. intros ?.
    assert (List.length (r_nodePool r) ≠ poolSize) by tauto. lia.
  - intros Hq. apply quiet_insert; [done|]. simpl.
    apply deref_Some in Hen as (a & [= <-] & Ha). by eapply quiet_lookup.
Qed.

Lemma delete_entry_keeps r seek e r' i rc :
  delete_entry r seek e = Ret (r', i, rc) →
  ((List.length (r_nodePool r) ≤ poolSize)%nat →
   (List.length (r_nodePool r') ≤ poolSize)%nat)
  ∧ (quiet (r_heap r) → quiet (r_heap r')).
Proof.
  unfold delete_entry. intros Hd.
  apply bind_Ret_inv in Hd as (en & Hen & Hd).
  apply deref_Some in Hen as (a & [= <-] & Ha).
  apply bind_Ret_inv in Hd as (h1 & Hh1 & Hd).
  apply bind_Ret_inv in Hd as (h2 & Hh2 & Hd).
  apply bind_Ret_inv in Hd as (r1 & Hr1 & Hd). injection Hd as <- _ _.
  apply returnToPool_keeps in Hr1 as [Hpool Hquiet]. simpl in *.
  split; [done|]. intros Hq. apply Hquiet.
  eapply delete_levels_quiet; [done|].
  rewrite (quiet_lookup _ _ _ Hq Ha) in Hh1. by injection Hh1 as <-.
Qed.

Lemma delete_loop_keeps n r after seek u removed r' removed' :
  delete_loop n r after seek u removed = Ret (r', removed') →
  ((List.length (r_nodePool r) ≤ poolSize)%nat →
   (List.length (r_nodePool r') ≤ poolSize)%nat)
  ∧ (quiet (r_heap r) → quiet (r_heap r')).
Proof.
  revert r removed. induction n as [|n IH]; intros r removed; [done|].
  simpl. intros Hd.
  apply bind_Ret_inv in Hd as (an & _ & Hd).
  apply bind_Ret_inv in Hd as (al & _ & Hd).
  destruct (l_next al) as [e|]; [|by injection Hd as <- _].
  apply bind_Ret_inv in Hd as ([[r1 i] rc] & Hr1 & Hd).
  apply delete_entry_keeps in Hr1 as [Hp1 Hq1].
  case_decide.
  - injection Hd as <- _. done.
  - apply IH in Hd as [Hp2 Hq2]. split; auto.
Qed.

Lemma delete_phase_keeps r after seek u r' removed :
  delete_phase r after seek u = Ret (r', removed) →
  ((List.length (r_nodePool r) ≤ poolSize)%nat →
   (List.length (r_nodePool r') ≤ poolSize)%nat)
  ∧ (quiet (r_heap r) → quiet (r_heap r')).
Proof.
  unfold delete_phase. intros Hd.
  apply bind_Ret_inv in Hd as ([r1 rm] & Hr1 & Hd).
  apply delete_loop_keeps in Hr1 as [Hp1 Hq1].
  destruct (r_byId r1 !! r_lastId r1).
  - by injection Hd as <- _.
  - apply bind_Ret_inv in Hd as (an & _ & Hd). by injection Hd as <- _.
Qed.

Lemma take_node_keeps r insertId length data height r' p :
  take_node r insertId length data height = Ret (r', p) →
  (List.length (r_nodePool r') ≤ List.length (r_nodePool r))%nat
  ∧ (quiet (r_heap r) → quiet (r_heap r')).
Proof.
  unfold take_node. intros Ht.
  destruct (last (r_nodePool r)) as [q|] eqn:Hl.
  - apply bind_Ret_inv in Ht as (nn & Hnn & Ht). injection Ht as <- _.
    simpl. split.
    + rewrite length_take. lia.
    + intros Hq. apply quiet_insert; [done|]. simpl.
      apply deref_Some in Hnn as (a & [= <-] & Ha). by eapply quiet_lookup.
  - injection Ht as <- _. simpl. split; [done|].
    intros Hq. apply Forall_app. split; [done|]. by constructor.
Qed.

Lemma insert_level_keeps fl i r seek cseek newNode length r' cseek' :
  insert_level fl i r seek cseek newNode length = Ret (r', cseek') →
  r_nodePool r' = r_nodePool r
  ∧ (quiet (r_heap r) → quiet (r_heap r')).
Proof.
  unfold insert_level. intros Hi. case_decide.
  - apply bind_Ret_inv in Hi as (sk & _ & Hi).
    apply bind_Ret_inv in Hi as (nn & _ & Hi).
    apply bind_Ret_inv in Hi as (nl & _ & Hi).
    apply bind_Ret_inv in Hi as (h1 & Hh1 & Hi).
    apply bind_Ret_inv in Hi as (nn1 & _ & Hi).
    apply bind_Ret_inv in Hi as (nl1 & _ & Hi).
    apply bind_Ret_inv in Hi as (h2 & Hh2 & Hi).
    apply bind_Ret_inv in Hi as (h3 & Hh3 & Hi).
    apply bind_Ret_inv in Hi as (h4 & Hh4 & Hi).
    injection Hi as <- _. simpl. split; [done|]. intros Hq.
    eapply upd_level_quiet; [done|]. eapply upd_level_quiet; [done|].
    eapply upd_level_quiet; [done|].
    destruct (l_next nl); [by eapply upd_level_quiet|by injection Hh1 as <-].
  - apply bind_Ret_inv in Hi as (cn & _ & Hi).
    apply bind_Ret_inv in Hi as (c2 & _ & Hi).
    apply bind_Ret_inv in Hi as (hn & Hhn & Hi).
    apply bind_Ret_inv in Hi as (h2 & Hh2 & Hi).
    apply deref_Some in Hhn as (a & [= <-] & Ha).
    injection Hi as <- _. simpl in *. split; [done|]. intros Hq.
    eapply upd_level_quiet; [done|].
    apply quiet_insert; [done|]. simpl. by eapply quiet_lookup.
Qed.

Lemma insert_levels_keeps n fl i r seek cseek newNode length r' cseek' :
  insert_levels n fl i r seek cseek newNode length = Ret (r', cseek') →
  r_nodePool r' = r_nodePool r
  ∧ (quiet (r_heap r) → quiet (r_heap r')).
Proof.
  revert i r cseek. induction n as [|n IH]; intros i r cseek; simpl.
  - by intros [= <- _].
  - intros Hi. apply bind_Ret_inv in Hi as ([r1 c1] & Hr1 & Hi).
    apply insert_level_keeps in Hr1 as [Hp1 Hq1].
    apply IH in Hi as [Hp2 Hq2]. split; [congruence|auto].
Qed.

Lemma bump_levels_quiet n i h seek length h' :
  bump_levels n i h seek length = Ret h' → quiet h → quiet h'.
Proof.
  revert i h. induction n as [|n IH]; intros i h; simpl.
  - by intros [= <-].
  - intros Hb Hq. apply bind_Ret_inv in Hb as (sk & _ & Hb).
    apply bind_Ret_inv in Hb as (h1 & Hh1 & Hb).
    eapply IH; [done|]. by eapply upd_level_quiet.
Qed.

Lemma insert_phase_keeps r after seek cseek insertId length data rnd r' :
  insert_phase r after seek cseek insertId length data rnd = Ret r' →
  (List.length (r_nodePool r') ≤ List.length (r_nodePool r))%nat
  ∧ (quiet (r_heap r) → quiet (r_heap r')).
Proof.
  unfold insert_phase. intros Hi.
  apply bind_Ret_inv in Hi as ([r1 p] & Hr1 & Hi).
  apply take_node_keeps in Hr1 as [Hp1 Hq1].
  apply bind_Ret_inv in Hi as ([r2 c2] & Hr2 & Hi).
  apply insert_levels_keeps in Hr2 as [Hp2 Hq2]. simpl in Hp2, Hq2.
  apply bind_Ret_inv in Hi as (h & Hh & Hi).
  assert (r_nodePool r' = r_nodePool r2 ∧ r_heap r' = h) as [Hp3 Hq3].
  { repeat case_decide; try (by injection Hi as <-).
    all: apply bind_Ret_inv in Hi as (an & _ & Hi);
      case_decide; by injection Hi as <-. }
  split; [congruence|]. intros Hq. rewrite Hq3.
  eapply bump_levels_quiet; [done|]. auto.
Qed.

Lemma splice_keeps r after doDelete u doInsert insertId length data rnd r'
    removed err :
  splice r after doDelete u doInsert insertId length data rnd
    = Ret (r', removed, err) →
  ((List.length (r_nodePool r) ≤ poolSize)%nat →
   (List.length (r_nodePool r') ≤ poolSize)%nat)
  ∧ (quiet (r_heap r) → quiet (r_heap r')).
Proof.
  unfold splice. intros Hs. case_decide; [done|].
  apply bind_Ret_inv in Hs as (an & _ & Hs).
  apply bind_Ret_inv in Hs as ([[seek cseek] i] & _ & Hs).
  apply bind_Ret_inv in Hs as ([r1 rm] & Hr1 & Hs).
  apply bind_Ret_inv in Hs as (r2 & Hr2 & Hs). injection Hs as <- _ _.
  assert (((List.length (r_nodePool r) ≤ poolSize)%nat →
           (List.length (r_nodePool r1) ≤ poolSize)%nat)
          ∧ (quiet (r_heap r) → quiet (r_heap r1))) as [Hp1 Hq1].
  { destruct doDelete; [by eapply delete_phase_keeps|by injection Hr1 as <- _]. }
  destruct doInsert; [|injection Hr2 as <-; by split].
  apply insert_phase_keeps in Hr2 as [Hp2 Hq2]. split; [|auto].
  intros Hp. specialize (Hp1 Hp). lia.
Qed.

Lemma Splice_keeps r afterId del ins data rnd r' removed err :
  Splice r afterId del ins data rnd = Ret (r', removed, err) →
  ((List.length (r_nodePool r) ≤ poolSize)%nat →
   (List.length (r_nodePool r') ≤ poolSize)%nat)
  ∧ (quiet (r_heap r) → quiet (r_heap r')).
Proof.
  unfold Splice. intros Hs.
  destruct (match r_byId r !! afterId with
            | Some p => Some p
            | None => if decide (afterId = zeroId) then Some headp else None
            end) as [p|]; [|by injection Hs as <- _ _].
  destruct (match del with
            | Some d => if decide (d ≠ afterId) then (true, d) else (false, zeroId)
            | None => (false, zeroId)
            end) as [doDelete u].
  destruct ins as [iid|]; [|by eapply splice_keeps].
  case_decide; [by injection Hs as <- _ _|].
  case_decide; [by injection Hs as <- _ _|].
  by eapply splice_keeps.
Qed.

(** ** The pool *)

Lemma reachable_pool r :
  reachable r → (List.length (r_nodePool r) ≤ poolSize)%nat.
Proof.
  induction 1 as [root|r afterId del ins data rnd r' removed err _ IH Hs
                  |r e h _ IH _|r e h u _ IH _]; try done.
  - simpl. unfold poolSize. lia.
  - by apply (Splice_keeps _ _ _ _ _ _ _ _ _ Hs).
Qed.

(** The pool of recycled nodes never holds more than [poolSize] nodes; it
    holds no node twice, and no node that the index still names. *)
Theorem pool_bounded r :
  reachable r →
  (List.length (r_nodePool r) ≤ poolSize)%nat
  ∧ NoDup (r_nodePool r)
  ∧ ∀ p, p ∈ r_nodePool r →
      is_Some (r_heap r !! p) ∧ ∀ id, r_byId r !! id ≠ Some p.
Proof.
  intros Hreach. destruct (reachable_rep _ Hreach) as [L Hr].
  destruct (rep_pool _ _ Hr) as [Hnd Hpool].
  split; [by apply reachable_pool|]. split; [done|].
  intros p Hp. destruct (Hpool p Hp) as (Hh & HL & Hlt).
  split; [by apply lookup_lt_is_Some_2|].
  intros id (x & Hx & _ & Hxp)%(rep_byId _ _ Hr).
  apply elem_of_cons in Hx as [->|Hx]; [done|].
  apply HL. rewrite <- Hxp. by apply list_elem_of_fmap_2.
Qed.

(** ** Cursors *)

(** Outside an iteration no node carries a cursor: a new rope has none,
    and [Splice] attaches none to a rope that has none. *)
Theorem no_cursor_outside_Iter :
  (∀ root, quiet (r_heap (NewRoot root)))
  ∧ ∀ r afterId del ins data rnd r' removed err,
      quiet (r_heap r) →
      Splice r afterId del ins data rnd = Ret (r', removed, err) →
      quiet (r_heap r').
Proof.
  split.
  - intros root. by repeat constructor.
  - intros r afterId del ins data rnd r' removed err Hq Hs.
    by apply (Splice_keeps _ _ _ _ _ _ _ _ _ Hs).
Qed.

(** ** The head *)

(** The shape of a reachable rope: [height] is the number of levels of the
    head and lies between 1 and [maxHeight]; the head carries the zero
    identifier and length 0; the index maps every identifier to a node that
    carries it and has between 1 and [height] levels, each with its [prev]
    set. *)
Theorem height_matches_head r :
  reachable r →
  (1 ≤ r_height r ≤ maxHeight)%nat
  ∧ r_byId r !! zeroId = Some headp
  ∧ (∃ hd, r_heap r !! headp = Some hd
       ∧ List.length (n_levels hd) = r_height r
       ∧ n_id hd = zeroId ∧ dl_Len (n_dl hd) = 0)
  ∧ ∀ id p, r_byId r !! id = Some p →
      ∃ nd, r_heap r !! p = Some nd ∧ n_id nd = id
        ∧ (1 ≤ List.length (n_levels nd) ≤ r_height r)%nat
        ∧ Forall (λ l, is_Some (l_prev l)) (n_levels nd).
Proof.
  intros [L Hr]%reachable_rep. pose proof (rep_height _ _ Hr) as HH.
  split; [done|]. split; [by apply (rep_zero _ _ Hr)|].
  assert (Hnode : ∀ id p, r_byId r !! id = Some p →
    ∃ nd, r_heap r !! p = Some nd ∧ n_id nd = id
      ∧ (1 ≤ List.length (n_levels nd) ≤ r_height r)%nat
      ∧ (p = headp → List.length (n_levels nd) = r_height r
                     ∧ dl_Len (n_dl nd) = 0)
      ∧ Forall (λ l, is_Some (l_prev l)) (n_levels nd)).
  { intros id p Hp.
    destruct (rep_lookup _ _ _ _ Hr Hp) as (x & rp & po & HF & <- & <-).
    destruct (rep_node _ _ _ _ _ Hr HF) as (nd & Hnd & Hid & Hlen & Hnl & _ & Hlv).
    exists nd. split; [done|]. split; [done|].
    assert ((1 ≤ a_ht x `min` r_height r ≤ r_height r)%nat
      ∧ (a_ptr x = headp → (a_ht x `min` r_height r)%nat = r_height r
                            ∧ a_len x = 0)) as [Hb Hhd].
    { destruct (zip_head _ _ _ _ HF) as [(_ & -> & _)|(rp' & -> & _)].
      - change (a_ht hdA) with maxHeight. split; [lia|]. intros _.
        split; [lia|done].
      - destruct (rep_entry_ht _ _ _ _ _ Hr HF) as (_ & Hne & ? & _).
        { by destruct rp'. }
        split; [lia|done]. }
    rewrite Hnl, Hlen. split; [done|]. split; [done|].
    apply Forall_lookup. intros j l Hl.
    rewrite (Hlv j) in Hl.
    - injection Hl as <-. simpl. eauto.
    - apply lookup_lt_Some in Hl. lia. }
  split.
  - destruct (Hnode zeroId headp (rep_zero _ _ Hr))
      as (hd & Hhd & Hid & _ & Hh & _).
    destruct (Hh eq_refl) as [? ?]. by exists hd.
  - intros id p Hp.
    destruct (Hnode id p Hp) as (nd & ? & ? & ? & _ & ?). by exists nd.
Qed.

(** ** A new rope *)

(** A new rope is empty: [Len] and [Count] are 0, [LastId] is the zero
    identifier, the index holds the zero identifier alone, whose position
    is 0 and whose record carries the root payload; [ByPosition] answers
    every position with the zero identifier, and an iteration yields
    nothing. *)
Theorem NewRoot_empty root :
  let r := NewRoot root in
  Len r = 0 ∧ Count r = 0 ∧ LastId r = zeroId
  ∧ sequence r = []
  ∧ (∀ id, is_Some (r_byId r !! id) ↔ id = zeroId)
  ∧ Find r zeroId = Ret 0
  ∧ Info_of r zeroId
      = Ret (mkInfo zeroId zeroId zeroId (mkDataLen 0 root))
  ∧ (∀ position biasAfter, ByPosition r position biasAfter = Ret (zeroId, 0))
  ∧ (∀ n yield, Iter (S n) r zeroId yield = Ret (r, [])).
Proof.
  intros r. unfold r.
  assert (Hz : r_byId (NewRoot root) !! zeroId = Some headp).
  { simpl. by rewrite lookup_singleton_eq. }
  split_and!.
  - done.
  - unfold Count. simpl. by rewrite map_size_singleton.
  - done.
  - unfold sequence, successors. by rewrite Hz.
  - intros id. simpl. split.
    + intros [p [? _]%lookup_singleton_Some]. done.
    + intros ->. rewrite lookup_singleton_eq. eauto.
  - unfold Find. rewrite Hz. simpl. by rewrite ?decide_True.
  - unfold Info_of. by rewrite Hz.
  - intros position biasAfter. unfold ByPosition. simpl.
    case_decide as H1; [done|]. rewrite decide_True; [done|].
    destruct biasAfter; [|assert (position ≠ 0) by tauto]; lia.
  - intros n yield. unfold Iter. by rewrite Hz.
Qed.

End Pool.

(** ** randomHeight *)

Lemma trailing_zeros_ge n v (k : nat) :
  0 ≤ v → (k ≤ n)%nat →
  (k ≤ trailing_zeros n v)%nat ↔ v `mod` 2 ^ Z.of_nat k = 0.
Proof.
  revert v k. induction n as [|n IH]; intros v k Hv Hk.
  - assert (k = 0%nat) as -> by lia. simpl. rewrite Z.mod_1_r. split; [done|lia].
  - destruct k as [|k].
    { simpl (2 ^ Z.of_nat 0). rewrite Z.mod_1_r. split; [done|lia]. }
    simpl trailing_zeros. rewrite ?Z.bit0_odd.
    rewrite Nat2Z.inj_succ, Z.pow_succ_r by lia.
    pose proof (Z.pow_pos_nonneg 2 (Z.of_nat k)) as Hpos.
    assert (0 < 2 ^ Z.of_nat k) as HP by lia. clear Hpos.
    pose proof (Z.div_mod v 2) as Hdm.
    destruct (Z.odd v) eqn:Hodd.
    + split; [lia|]. intros Hmod. exfalso.
      rewrite Zmod_odd, Hodd in Hdm.
      apply Z.mod_divide in Hmod; [|lia]. destruct Hmod as [q Hq]. lia.
    + rewrite Zmod_odd, Hodd in Hdm.
      rewrite Z.shiftr_div_pow2 by lia. change (2 ^ 1) with 2.
      rewrite <- Nat.succ_le_mono, IH by (try apply Z.div_pos; lia).
      rewrite (Hdm ltac:(lia)) at 2. rewrite Z.add_0_r.
      rewrite Z.mul_mod_distr_l by lia. lia.
Qed.

(** [randomHeight] lies between 1 and [maxHeight], and it exceeds [k]
    exactly when the [k] low bits of the random word are zero: half of the
    words give a height above 1, a quarter a height above 2, and so on. *)
Theorem randomHeight_geometric w :
  (1 ≤ randomHeight w ≤ maxHeight)%nat
  ∧ ∀ k : nat, (k < maxHeight)%nat →
      (k < randomHeight w)%nat ↔ w `mod` 2 ^ Z.of_nat k = 0.
Proof.
  split; [apply randomHeight_range|]. intros k Hk.
  unfold randomHeight, TrailingZeros32, maxHeight in *.
  assert (Hmod : w `mod` 2 ^ Z.of_nat k
    = (w `mod` 2 ^ 32) `mod` 2 ^ Z.of_nat k).
  { symmetry. apply Z.mod_mod_divide.
    exists (2 ^ (32 - Z.of_nat k)). rewrite <- Z.pow_add_r by lia.
    f_equal. lia. }
  rewrite Hmod, <- (trailing_zeros_ge 32) by (try apply Z.mod_pos_bound; lia).
  case_decide; lia.
Qed.

Section IterOk.

Context `{RopeParams}.

(** ** Iter *)

(** A consumer that leaves the rope alone and goes on while [f] says so. *)
Definition passive (f : Id → DataLen → bool) : consumer :=
  λ s i d, Ret (s, f i d).

(** What such a consumer is given from the entries [s]: all of them up to
    and including the first on which it stops. *)
Fixpoint yielded (f : Id → DataLen → bool) (s : list Removed)
    : list (Id * DataLen) :=
  match s with
  | [] => []
  | x :: s' =>
    let d := mkDataLen (rm_Len x) (rm_Data x) in
    (rm_Id x, d) :: if f (rm_Id x) d then yielded f s' else []
  end.

Lemma with_heap_id r h1 : with_heap (r_heap r) (with_heap h1 r) = r.
Proof. by destruct r. Qed.

Lemma set_iterRef_back ir nd :
  n_iterRef nd = None → set_iterRef None (set_iterRef ir nd) = nd.
Proof. destruct nd. simpl. by intros ->. Qed.

Lemma Iter_loop_passive r L n f rp x po out :
  rep r L → quiet (r_heap r) →
  hdA :: L = reverse rp ++ x :: po →
  (List.length po < n)%nat →
  Iter_loop n (passive f) r (Some (a_ptr x)) out
    = Ret (r, out ++ yielded f (rec_of <$> po)).
Proof.
  intros Hr Hq. revert rp x po out.
  induction n as [|n IH]; intros rp x po out HF Hn; [lia|].
  destruct (rep_level0 _ _ _ _ _ Hr HF) as (nd & Hnd & _ & _ & _ & Hl0).
  cbn [Iter_loop]. rewrite (deref_ok _ _ _ Hnd), bind_Ret.
  unfold level. rewrite Hl0. rewrite bind_Ret. cbn [l_next].
  destruct po as [|y po]; simpl.
  { by rewrite app_nil_r. }
  assert (HFy : hdA :: L = reverse (x :: rp) ++ y :: po).
  { rewrite HF. by list_norm. }
  destruct (rep_level0 _ _ _ _ _ Hr HFy) as (yn & Hyn & Hyid & _ & Hydl & _).
  destruct (rep_entry_ht _ _ _ _ _ Hr HFy) as (HyL & _); [done|].
  pose proof (quiet_lookup _ _ _ Hq Hyn) as Hyq.
  pose proof (lookup_lt_Some _ _ _ Hyn) as Hylt.
  unfold iter_attach. rewrite (deref_ok _ _ _ Hyn), bind_Ret, Hyq, bind_Ret.
  set (yn1 := set_iterRef (Some (mkIterRef 1 (Some (a_ptr y)))) yn).
  assert (Hh1 : <[a_ptr y := yn1]> (r_heap r) !! a_ptr y = Some yn1)
    by (by apply list_lookup_insert_eq).
  rewrite Hh1, bind_Ret.
  unfold iter_detach. rewrite (deref_ok _ _ _ Hh1), bind_Ret.
  cbn [n_iterRef yn1 set_iterRef ir_node ir_count].
  change (isub 1 1) with 0. rewrite decide_True by done. rewrite bind_Ret.
  rewrite list_insert_insert_eq. unfold yn1.
  rewrite (set_iterRef_back _ _ Hyq), (list_insert_id _ _ _ Hyn).
  rewrite with_heap_id. cbn [n_id n_dl set_iterRef].
  rewrite Hyid, (Hydl HyL).
  destruct (f (a_id y) (mkDataLen (a_len y) (a_data y))).
  - rewrite (IH (x :: rp) y po _ HFy) by (simpl in Hn; lia).
    by rewrite <- app_assoc.
  - done.
Qed.

(** [Iter] on a rope with no cursor attached, run with a consumer that
    leaves the rope alone: it yields the entries after [afterId] in order,
    with their lengths and payloads, up to and including the first on which
    the consumer stops, and it leaves the rope as it was. *)
Theorem Iter_yields_successors r afterId f n :
  reachable r → quiet (r_heap r) →
  (List.length (successors r afterId) < n)%nat →
  Iter n r afterId (passive f)
    = Ret (r, yielded f (successors r afterId)).
Proof.
  intros [L Hr]%reachable_rep Hq Hn. unfold Iter.
  destruct (r_byId r !! afterId) as [p|] eqn:Hp.
  - destruct (rep_lookup _ _ _ _ Hr Hp) as (x & rp & po & HF & <- & <-).
    rewrite (successors_rep _ _ _ _ _ Hr HF) in Hn |- *.
    rewrite length_fmap in Hn.
    by rewrite (Iter_loop_passive r L n f rp x po [] Hr Hq HF Hn).
  - by rewrite (successors_absent _ _ Hp).
Qed.

End IterOk.

Section IterDelete.

Context `{RopeParams}.

(** ** Iter while the rope changes *)

(** A consumer that deletes each entry it is given, from the anchor of the
    iteration (by then the predecessor of that entry) until the entry, and
    goes on while [f] says so. *)
Definition deleting (afterId : Id) (rnd : Z) (f : Id → DataLen → bool)
    : consumer :=
  λ s i d,
    do '(s', _, _) <- Delete s afterId i rnd;
    Ret (s', f i d).

(** The cursors of the nodes of the heap, by address. *)
Definition cursors (h : list ropeNode) : list (option iterRef) :=
  n_iterRef <$> h.

Lemma quiet_cursors h : quiet h ↔ Forall (λ c, c = None) (cursors h).
Proof. unfold quiet, cursors. by rewrite Forall_fmap. Qed.

Lemma cursors_insert h a nd nd0 :
  h !! a = Some nd0 → n_iterRef nd = n_iterRef nd0 →
  cursors (<[a := nd]> h) = cursors h.
Proof.
  intros Ha Hn. unfold cursors. rewrite list_fmap_insert, Hn.
  apply list_insert_id. by rewrite list_lookup_fmap, Ha.
Qed.

Lemma upd_level_cursors h p j f h' :
  upd_level h p j f = Ret h' → cursors h' = cursors h.
Proof.
  unfold upd_level. intros Hu.
  apply bind_Ret_inv in Hu as (n & Hn & Hu).
  apply bind_Ret_inv in Hu as (l & _ & Hu).
  apply deref_Some in Hn as (a & -> & Ha). injection Hu as <-.
  by apply (cursors_insert _ _ _ n).
Qed.

Lemma delete_level_cursors j h seek e h' :
  delete_level j h seek e = Ret h' → cursors h' = cursors h.
Proof.
  unfold delete_level. intros Hd.
  apply bind_Ret_inv in Hd as (sk & _ & Hd).
  apply bind_Ret_inv in Hd as (nn & _ & Hd).
  apply bind_Ret_inv in Hd as (nl & _ & Hd).
  apply bind_Ret_inv in Hd as (en & _ & Hd).
  case_decide.
  - by eapply upd_level_cursors.
  - apply bind_Ret_inv in Hd as (el & _ & Hd).
    apply bind_Ret_inv in Hd as (h1 & Hh1 & Hd).
    apply bind_Ret_inv in Hd as (h2 & Hh2 & Hd).
    apply upd_level_cursors in Hd, Hh1. rewrite Hd, <- Hh1.
    destruct (l_next el); [by eapply upd_level_cursors|by injection Hh2 as <-].
Qed.

Lemma delete_levels_cursors n j h seek e h' :
  delete_levels n j h seek e = Ret h' → cursors h' = cursors h.
Proof.
  revert j h. induction n as [|n IH]; intros j h; simpl.
  - by intros [= <-].
  - intros Hd. apply bind_Ret_inv in Hd as (h1 & Hh1 & Hd).
    apply IH in Hd. apply delete_level_cursors in Hh1. congruence.
Qed.

Lemma returnToPool_cursors r e r' :
  returnToPool r e = Ret r' → cursors (r_heap r') = cursors (r_heap r).
Proof.
  unfold returnToPool. intros Hp.
  apply bind_Ret_inv in Hp as (en & Hen & Hp).
  apply deref_Some in Hen as (a & [= <-] & Ha).
  case_decide as Hc; injection Hp as <-; [done|]. simpl.
  by apply (cursors_insert _ _ _ en).
Qed.

(** The entry being deleted has its cursor turned to its predecessor. *)
Lemma delete_entry_cursors r seek e r' i rc en ir el :
  delete_entry r seek e = Ret (r', i, rc) →
  r_heap r !! e = Some en → n_iterRef en = Some ir →
  n_levels en !! 0%nat = Some el →
  i = n_id en
  ∧ cursors (r_heap r')
      = <[e := Some (mkIterRef (ir_count ir) (l_prev el))]> (cursors (r_heap r)).
Proof.
  unfold delete_entry. intros Hd Hen Hir Hel.
  rewrite (deref_ok _ _ _ Hen), bind_Ret, Hir in Hd.
  rewrite (level_ok _ _ _ Hel), !bind_Ret in Hd.
  apply bind_Ret_inv in Hd as (h2 & Hh2 & Hd).
  apply bind_Ret_inv in Hd as (r1 & Hr1 & Hd). injection Hd as <- <- _.
  split; [done|].
  apply returnToPool_cursors in Hr1. apply delete_levels_cursors in Hh2.
  simpl in Hr1, Hh2. rewrite Hr1, Hh2. unfold cursors.
  by rewrite list_fmap_insert.
Qed.

Lemma delete_loop_first n r after seek u removed r' removed' an al e en ir el :
  delete_loop n r after seek u removed = Ret (r', removed') →
  r_heap r !! after = Some an → n_levels an !! 0%nat = Some al →
  l_next al = Some e →
  r_heap r !! e = Some en → n_id en = u → n_iterRef en = Some ir →
  n_levels en !! 0%nat = Some el →
  cursors (r_heap r')
    = <[e := Some (mkIterRef (ir_count ir) (l_prev el))]> (cursors (r_heap r)).
Proof.
  intros Hd Han Hal Hnext Hen Hid Hir Hel.
  destruct n as [|n]; [done|]. cbn [delete_loop] in Hd.
  rewrite (deref_ok _ _ _ Han), bind_Ret, (level_ok _ _ _ Hal), bind_Ret,
    Hnext in Hd.
  apply bind_Ret_inv in Hd as ([[r1 i] rc] & Hr1 & Hd).
  destruct (delete_entry_cursors _ _ _ _ _ _ _ _ _ Hr1 Hen Hir Hel)
    as [-> Hc].
  rewrite decide_True in Hd by done. by injection Hd as <- _.
Qed.

Lemma delete_phase_first r after seek u r' removed an al e en ir el :
  delete_phase r after seek u = Ret (r', removed) →
  r_heap r !! after = Some an → n_levels an !! 0%nat = Some al →
  l_next al = Some e →
  r_heap r !! e = Some en → n_id en = u → n_iterRef en = Some ir →
  n_levels en !! 0%nat = Some el →
  cursors (r_heap r')
    = <[e := Some (mkIterRef (ir_count ir) (l_prev el))]> (cursors (r_heap r)).
Proof.
  unfold delete_phase. intros Hd Han Hal Hnext Hen Hid Hir Hel.
  apply bind_Ret_inv in Hd as ([r1 rm] & Hr1 & Hd).
  rewrite <- (delete_loop_first _ _ _ _ _ _ _ _ _ _ _ _ _ _
    Hr1 Han Hal Hnext Hen Hid Hir Hel).
  destruct (r_byId r1 !! r_lastId r1).
  - by injection Hd as <- _.
  - apply bind_Ret_inv in Hd as (an1 & _ & Hd). by injection Hd as <- _.
Qed.

Lemma Delete_first r afterId u rnd r' removed err after an al e en ir el :
  Delete r afterId u rnd = Ret (r', removed, err) →
  r_byId r !! afterId = Some after → u ≠ afterId →
  r_heap r !! after = Some an → n_levels an !! 0%nat = Some al →
  l_next al = Some e →
  r_heap r !! e = Some en → n_id en = u → n_iterRef en = Some ir →
  n_levels en !! 0%nat = Some el →
  cursors (r_heap r')
    = <[e := Some (mkIterRef (ir_count ir) (l_prev el))]> (cursors (r_heap r)).
Proof.
  unfold Delete, Splice. intros Hs Ha Hne Han Hal Hnext Hen Hid Hir Hel.
  rewrite Ha in Hs. rewrite decide_True in Hs by done.
  unfold splice in Hs. case_decide; [done|].
  apply bind_Ret_inv in Hs as (an' & _ & Hs).
  apply bind_Ret_inv in Hs as ([[seek cseek] i] & _ & Hs).
  apply bind_Ret_inv in Hs as ([r1 rm] & Hr1 & Hs).
  rewrite bind_Ret in Hs. injection Hs as <- _ _.
  by eapply delete_phase_first.
Qed.

Lemma Iter_loop_deleting r L n f rnd rp a po out :
  rep r L → quiet (r_heap r) →
  hdA :: L = reverse rp ++ a :: po →
  (List.length po < n)%nat →
  ∃ r' L',
    Iter_loop n (deleting (a_id a) rnd f) r (Some (a_ptr a)) out
      = Ret (r', out ++ yielded f (rec_of <$> po))
    ∧ rep r' L' ∧ quiet (r_heap r')
    ∧ hdA :: L'
        = reverse rp ++ a ::
            drop (List.length (yielded f (rec_of <$> po))) po.
Proof.
  revert r L po out.
  induction n as [|n IH]; intros r L po out Hr Hq HF Hn; [lia|].
  destruct (rep_level0 _ _ _ _ _ Hr HF) as (nd & Hnd & _ & _ & _ & Hl0).
  cbn [Iter_loop]. rewrite (deref_ok _ _ _ Hnd), bind_Ret.
  rewrite (level_ok _ _ _ Hl0), bind_Ret. cbn [l_next].
  destruct po as [|y po]; simpl.
  { exists r, L. rewrite app_nil_r. by split_and!. }
  assert (HFy : hdA :: L = reverse (a :: rp) ++ y :: po).
  { rewrite HF. by list_norm. }
  destruct (rep_level0 _ _ _ _ _ Hr HFy) as (yn & Hyn & Hyid & _ & Hydl & Hyl0).
  destruct (rep_entry_ht _ _ _ _ _ Hr HFy) as (HyL & _); [done|].
  simpl in Hyl0.
  pose proof (quiet_lookup _ _ _ Hq Hyn) as Hyq.
  pose proof (lookup_lt_Some _ _ _ Hyn) as Hylt.
  assert (Hpne : a_ptr a ≠ a_ptr y).
  { pose proof (rep_F_ptrs _ _ Hr) as Hnd'. rewrite HF, fmap_app in Hnd'.
    apply NoDup_app in Hnd' as (_ & _ & Hnd'). csimpl in Hnd'.
    apply NoDup_cons in Hnd' as [Hnd' _]. intros Heq. apply Hnd'.
    rewrite Heq. left. }
  assert (Hine : a_id y ≠ a_id a).
  { pose proof (rep_ids _ _ Hr) as Hnd'. rewrite HF, fmap_app in Hnd'.
    apply NoDup_app in Hnd' as (_ & _ & Hnd'). csimpl in Hnd'.
    apply NoDup_cons in Hnd' as [Hnd' _]. intros Heq. apply Hnd'.
    rewrite <- Heq. left. }
  (* the cursor is attached to [y] *)
  set (yn1 := set_iterRef (Some (mkIterRef 1 (Some (a_ptr y)))) yn).
  set (h1 := <[a_ptr y := yn1]> (r_heap r)).
  assert (Hat : iter_attach (r_heap r) (a_ptr y) = Ret h1).
  { unfold iter_attach. by rewrite (deref_ok _ _ _ Hyn), bind_Ret, Hyq. }
  rewrite Hat, bind_Ret.
  assert (Hh1 : h1 !! a_ptr y = Some yn1) by (by apply list_lookup_insert_eq).
  rewrite Hh1, bind_Ret.
  pose proof (iter_attach_rep _ _ _ _ Hr Hat) as Hr1.
  (* the consumer deletes [y] *)
  destruct (Splice_success_full (with_heap h1 r) L a rp (y :: po)
    (Some (a_id y)) None zeroT rnd Hr1 HF I)
    as (r2 & L2 & p & Hs & Hr2 & HF2 & _).
  unfold del_flag, removed_of, rest_of in Hs, HF2.
  rewrite decide_True in Hs, HF2 by done. simpl in Hs, HF2.
  rewrite decide_True in Hs, HF2 by done. simpl in Hs, HF2.
  assert (Hc2 : cursors (r_heap r2)
    = <[a_ptr y := Some (mkIterRef 1 (Some (a_ptr a)))]> (cursors h1)).
  { apply (Delete_first (with_heap h1 r) (a_id a) (a_id y) rnd r2 _ _
      (a_ptr a) nd
      (mkLevel (a_ptr <$> head (y :: po))
         (Some (from_option a_ptr (a_ptr a) (head rp))) (a_len a))
      (a_ptr y) yn1 (mkIterRef 1 (Some (a_ptr y)))
      (mkLevel (a_ptr <$> head po) (Some (a_ptr a)) (a_len y)) Hs);
      try done.
    - apply (rep_live _ _ _ Hr). rewrite HF. mem_solve.
    - simpl. unfold h1. by rewrite list_lookup_insert_ne. }
  unfold deleting at 1, Delete. cbn [n_id n_dl yn1 set_iterRef].
  rewrite Hyid, Hs, !bind_Ret. cbv beta iota.
  (* the cursor is released: it points to the anchor *)
  assert (∃ en2, r_heap r2 !! a_ptr y = Some en2
    ∧ n_iterRef en2 = Some (mkIterRef 1 (Some (a_ptr a)))) as (en2 & Hen2 & Hir2).
  { assert (cursors (r_heap r2) !! a_ptr y
      = Some (Some (mkIterRef 1 (Some (a_ptr a))))) as Hl.
    { rewrite Hc2. apply list_lookup_insert_eq. unfold cursors, h1.
      by rewrite length_fmap, length_insert. }
    unfold cursors in Hl. rewrite list_lookup_fmap in Hl.
    destruct (r_heap r2 !! a_ptr y) as [en2|]; [|done].
    injection Hl as Hl. eauto. }
  set (h3 := <[a_ptr y := set_iterRef None en2]> (r_heap r2)).
  assert (Hdt : iter_detach (r_heap r2) (a_ptr y) = Ret (h3, Some (a_ptr a))).
  { unfold iter_detach. rewrite (deref_ok _ _ _ Hen2), bind_Ret, Hir2.
    cbn [ir_node ir_count]. change (isub 1 1) with 0.
    by rewrite decide_True by done. }
  rewrite Hdt, bind_Ret. cbv beta iota.
  pose proof (iter_detach_rep _ _ _ _ _ Hr2 Hdt) as Hr3.
  assert (Hq3 : quiet h3).
  { apply quiet_cursors. apply quiet_cursors in Hq.
    replace (cursors h3) with (cursors (r_heap r)); [done|].
    unfold h3, cursors at 2. rewrite list_fmap_insert. fold (cursors (r_heap r2)).
    rewrite Hc2, list_insert_insert_eq. unfold h1, cursors.
    rewrite list_fmap_insert, list_insert_insert_eq. simpl.
    symmetry. apply list_insert_id. by rewrite list_lookup_fmap, Hyn, <- Hyq. }
  rewrite (Hydl HyL).
  destruct (f (a_id y) (mkDataLen (a_len y) (a_data y))).
  - destruct (IH (with_heap h3 r2) L2 po
      (out ++ [(a_id y, mkDataLen (a_len y) (a_data y))]) Hr3 Hq3 HF2)
      as (r' & L' & Hrun & Hr' & Hq' & HF'); [simpl in Hn; lia|].
    exists r', L'. rewrite Hrun, <- app_assoc. by split_and!.
  - exists (with_heap h3 r2), L2. by split_and!.
Qed.

Lemma deleting_reachable afterId rnd f s i d s' b :
  reachable s → deleting afterId rnd f s i d = Ret (s', b) → reachable s'.
Proof.
  unfold deleting, Delete. intros Hs Hd.
  apply bind_Ret_inv in Hd as ([[s1 rm] er] & Hs1 & Hd). injection Hd as <- _.
  by eapply reachable_Splice.
Qed.

(** [Iter] on a rope with no cursor attached, run with a consumer that
    deletes each entry it is given, from the anchor until that entry: every
    entry after [afterId] is still yielded once and in order, up to and
    including the first on which the consumer stops; the entries yielded are
    the ones gone from the rope at the end, and no cursor is left behind. *)
Theorem Iter_deleting r afterId rnd f n :
  reachable r → quiet (r_heap r) →
  (List.length (successors r afterId) < n)%nat →
  let s := successors r afterId in
  let out := yielded f s in
  ∃ r',
    Iter n r afterId (deleting afterId rnd f) = Ret (r', out)
    ∧ reachable r' ∧ quiet (r_heap r')
    ∧ successors r' afterId = drop (List.length out) s
    ∧ sequence r' = before afterId (sequence r) ++ drop (List.length out) s.
Proof.
  intros Hreach Hq Hn s out.
  destruct (reachable_rep _ Hreach) as [L Hr].
  assert (∃ r', Iter n r afterId (deleting afterId rnd f) = Ret (r', out)
    ∧ quiet (r_heap r')
    ∧ successors r' afterId = drop (List.length out) s
    ∧ sequence r' = before afterId (sequence r) ++ drop (List.length out) s)
    as (r' & Hrun & Hq' & Hsucc & Hseq).
  { unfold Iter, out, s in *.
    destruct (r_byId r !! afterId) as [p|] eqn:Hp.
    - destruct (rep_lookup _ _ _ _ Hr Hp) as (a & rp & po & HF & <- & <-).
      rewrite (successors_rep _ _ _ _ _ Hr HF) in Hn |- *.
      rewrite length_fmap in Hn.
      destruct (Iter_loop_deleting r L n f rnd rp a po [] Hr Hq HF Hn)
        as (r' & L' & Hrun & Hr' & Hq' & HF').
      exists r'. split_and!; try done.
      + rewrite (successors_rep _ _ _ _ _ Hr' HF'). by rewrite fmap_drop.
      + rewrite (sequence_split _ _ _ _ _ Hr' HF').
        rewrite (successors_rep _ _ _ _ _ Hr' HF'), fmap_drop. f_equal.
        destruct (rep_before _ _ _ _ _ Hr HF) as (l1 & Hl1 & _ & ->).
        destruct (rep_before _ _ _ _ _ Hr' HF') as (l2 & Hl2 & _ & ->).
        rewrite <- Hl1 in Hl2. by injection Hl2 as ->.
    - rewrite (successors_absent _ _ Hp). simpl. exists r.
      split_and!; try done.
      + by apply successors_absent.
      + rewrite app_nil_r. unfold before.
        assert (afterId ≠ zeroId) as Hz.
        { intros ->. by rewrite (rep_zero _ _ Hr) in Hp. }
        rewrite decide_False by done. symmetry. apply through_all.
        intros Hin.
        assert (is_Some (r_byId r !! afterId)) as [? ?]; [|congruence].
        apply (rep_index_sequence r L afterId Hr). by right. }
  exists r'. split_and!; try done.
  eapply Iter_reachable; [|done|done]. apply deleting_reachable.
Qed.

End IterDelete.

(** * Runs on a rope of integers

    Identifiers are integers, with 0 the zero identifier; a payload is an
    integer that reports itself as its length. *)

#[local] Instance int_rope : RopeParams := {|
  Id := Z;
  zeroId := 0;
  T := Z;
  zeroT := 0;
  sizer := Some
|}.

(** The rope a call of [Splice] leaves. *)
Definition run (r : ropeImpl) (afterId : Id) (del ins : option Id) (data : T)
    (rnd : Z) : ropeImpl :=
  match Splice r afterId del ins data rnd with
  | Ret (r', _, _) => r'
  | _ => r
  end.

Lemma run_reachable r afterId del ins data rnd :
  reachable r → reachable (run r afterId del ins data rnd).
Proof.
  intros Hr. unfold run.
  destruct (Splice r afterId del ins data rnd) as [[[r' removed] err]| |] eqn:Hs;
    [|done..].
  by eapply reachable_Splice.
Qed.

(** Three entries 1, 2, 3 of lengths 5, 6, 4, of heights 1, 3, 2. *)
Definition rope3 : ropeImpl :=
  run (run (run New 0 None (Some 1) 5 1) 1 None (Some 2) 6 4) 2 None (Some 3) 4 2.

(** One entry, of length 0. *)
Definition rope_empty_entry : ropeImpl := run New 0 None (Some 1) 0 1.

(** Two entries whose lengths add up to [2 ^ 63]. *)
Definition rope_overflow : ropeImpl :=
  run (run New 0 None (Some 1) (2 ^ 62) 1) 1 None (Some 2) (2 ^ 62) 1.

Lemma rope3_reachable : reachable rope3.
Proof. do 3 apply run_reachable. apply reachable_NewRoot. Qed.

Lemma rope_empty_entry_reachable : reachable rope_empty_entry.
Proof. apply run_reachable. apply reachable_NewRoot. Qed.

Lemma rope_overflow_reachable : reachable rope_overflow.
Proof. do 2 apply run_reachable. apply reachable_NewRoot. Qed.

(** What the runs of the specification's examples give. *)
Example rope3_observed :
  Len rope3 = 15 ∧ Count rope3 = 3 ∧ LastId rope3 = 3
  ∧ Find rope3 2 = Ret 11
  ∧ ByPosition rope3 5 false = Ret (1, 0)
  ∧ ByPosition rope3 5 true = Ret (2, 6)
  ∧ successors rope3 0 = [mkRemoved 1 5 5; mkRemoved 2 6 6; mkRemoved 3 4 4].
Proof. vm_compute. done. Qed.

Lemma Splice_delete_range_witness :
  ∃ r', Splice rope3 1 (Some 3) None 0 1
      = Ret (r', through 3 (successors rope3 1), None)
    ∧ through 3 (successors rope3 1) = [mkRemoved 2 6 6; mkRemoved 3 4 4]
    ∧ r_byId r' !! 3 = None
    ∧ Len r' = Len rope3 - 10.
Proof.
  destruct (Splice_delete_range rope3 1 3 0 1) as [(r' & Hs & HX & Hgone & _ & _ & Hlen) _].
  - exact rope3_reachable.
  - vm_compute. eauto.
  - lia.
  - vm_compute. repeat constructor.
  - exists r'. split; [exact Hs|]. split; [vm_compute; reflexivity|].
    split; [exact (Hgone 3 HX)|].
    rewrite Hlen; [reflexivity|]. vm_compute. discriminate.
Defined.

Lemma Splice_errors_witness :
  Splice rope3 1 None (Some 9) (-1) 1
    = Ret (rope3, [], Some ErrNegativeLength)
  ∧ Splice rope3 1 None (Some 2) 7 1 = Ret (rope3, [], Some ErrIdExists)
  ∧ Splice rope3 9 None (Some 1) 0 1 = Ret (rope3, [], Some ErrBadAnchor).
Proof.
  split_and!.
  - destruct (Splice_errors rope3 1 None (Some 9) (-1) 1 rope3_reachable)
      as (r' & removed & err & Hs & _ & _ & Hneg & Hsame).
    assert (err = Some ErrNegativeLength) as ->.
    { apply Hneg. split; [left; vm_compute; eauto|].
      exists 9. split; [reflexivity|]. split; [vm_compute; reflexivity|].
      exists (-1). split; [reflexivity|]. vm_compute. reflexivity. }
    destruct Hsame as [-> ->]; [discriminate|]. exact Hs.
  - destruct (Splice_errors rope3 1 None (Some 2) 7 1 rope3_reachable)
      as (r' & removed & err & Hs & _ & Hex & _ & Hsame).
    assert (err = Some ErrIdExists) as ->.
    { apply Hex. split; [left; vm_compute; eauto|].
      exists 2. split; [reflexivity|]. vm_compute. eauto. }
    destruct Hsame as [-> ->]; [discriminate|]. exact Hs.
  - destruct (Splice_errors rope3 9 None (Some 1) 0 1 rope3_reachable)
      as (r' & removed & err & Hs & Hbad & _ & _ & Hsame).
    assert (err = Some ErrBadAnchor) as ->.
    { apply Hbad. split; [vm_compute; reflexivity|]. discriminate. }
    destruct Hsame as [-> ->]; [discriminate|]. exact Hs.
Defined.

Lemma Len_is_live_sum_witness :
  Len rope3 = int_sum (live_lens rope3) ∧ Len rope3 = live_sum rope3.
Proof.
  destruct (Len_is_live_sum rope3 rope3_reachable) as [Hw Hx].
  split; [exact Hw|]. apply Hx. vm_compute. discriminate.
Defined.

Lemma ByPosition_Find_witness :
  ∃ pos, Find rope3 2 = Ret pos ∧ ByPosition rope3 pos false = Ret (2, 0).
Proof.
  apply (ByPosition_Find rope3 2 6).
  - exact rope3_reachable.
  - vm_compute. discriminate.
  - vm_compute. reflexivity.
  - left. lia.
Defined.

(** C4 as stated fails on an entry of length 0: its position is that of the
    entry before it, here the head. *)
Lemma ByPosition_Find_zero_length :
  reachable rope_empty_entry
  ∧ r_byId rope_empty_entry !! 1 = Some 1%nat
  ∧ Find rope_empty_entry 1 = Ret 0
  ∧ ByPosition rope_empty_entry 0 false = Ret (0, 0)
  ∧ ByPosition rope_empty_entry 0 false ≠ Ret (1, 0).
Proof.
  split; [exact rope_empty_entry_reachable|]. vm_compute.
  split_and!; try reflexivity. discriminate.
Qed.

(** C5 fails on this run: an entry is inserted at the front of a rope that
    holds one entry of length 0; the entry 1 is still the last one, and
    [LastId] is 2. *)
Lemma Splice_insert_LastId_witness :
  let r' := run rope_empty_entry 0 None (Some 2) 3 1 in
  Splice rope_empty_entry 0 None (Some 2) 3 1 = Ret (r', [], None)
  ∧ LastId rope_empty_entry = 1
  ∧ successors rope_empty_entry 0 = [mkRemoved 1 0 0]
  ∧ successors r' 0 = [mkRemoved 2 3 3; mkRemoved 1 0 0]
  ∧ LastId r' = 2.
Proof.
  intros r'.
  assert (Hs : Splice rope_empty_entry 0 None (Some 2) 3 1 = Ret (r', [], None))
    by (vm_compute; reflexivity).
  split; [exact Hs|]. split; [vm_compute; reflexivity|].
  split; [vm_compute; reflexivity|]. split; [vm_compute; reflexivity|].
  rewrite (Splice_insert_LastId rope_empty_entry 0 2 3 1 r' []
    rope_empty_entry_reachable Hs).
  vm_compute. reflexivity.
Defined.

Lemma Compare_negation_witness :
  ∃ c, Compare rope3 1 3 = Ret (c, true) ∧ Compare rope3 3 1 = Ret (- c, true)
    ∧ (c = -1 ∨ c = 0 ∨ c = 1)
    ∧ Compare rope3 1 1 = Ret (0, true).
Proof.
  apply (Compare_negation rope3 1 3).
  - exact rope3_reachable.
  - vm_compute. eauto.
  - vm_compute. eauto.
Defined.

(** C7 as stated fails where both of its rules apply: [Len] is negative
    here, so -1 is a position beyond it, and [ByPosition] answers with the
    zero identifier, not with [LastId]. *)
Lemma ByPosition_guards_overlap :
  reachable rope_overflow
  ∧ Len rope_overflow = - 2 ^ 63
  ∧ -1 > Len rope_overflow
  ∧ LastId rope_overflow = 2
  ∧ ByPosition rope_overflow (-1) false = Ret (0, 0)
  ∧ ByPosition rope_overflow (-1) false ≠ Ret (LastId rope_overflow, 0).
Proof.
  split; [exact rope_overflow_reachable|]. vm_compute.
  split_and!; try reflexivity. discriminate.
Qed.

Lemma Splice_same_anchor_witness :
  Splice rope3 2 (Some 2) None 0 1 = Ret (rope3, [], None).
Proof.
  apply (Splice_same_anchor rope3 2 0 1).
  - exact rope3_reachable.
  - vm_compute. eauto.
Defined.

Lemma absent_reads_witness :
  Find rope3 7 = Ret (-1) ∧ Info_of rope3 7 = Ret zeroInfo
  ∧ Between rope3 2 7 = Ret (0, false) ∧ Compare rope3 7 2 = Ret (0, false).
Proof.
  destruct (absent_reads rope3 7) as (Hf & Hi & Ho).
  - exact rope3_reachable.
  - vm_compute. reflexivity.
  - destruct (Ho 2) as (_ & Hb & Hc & _). auto.
Defined.

Lemma Iter_absent_witness :
  Iter 5 rope3 7 (λ r _ _, Ret (r, true)) = Ret (rope3, []).
Proof. apply (Iter_absent 5 rope3 7). vm_compute. reflexivity. Defined.

(** * More runs on the rope of integers *)

(** The rope [rope3] once the entry 2 is deleted: its node is in the
    pool. *)
Definition rope3_less : ropeImpl := run rope3 1 (Some 2) None 0 1.

Lemma rope3_less_reachable : reachable rope3_less.
Proof. apply run_reachable. apply rope3_reachable. Qed.

Lemma Splice_sequence_witness :
  ∃ r', Splice rope3 1 (Some 2) (Some 9) 7 1
      = Ret (r', [mkRemoved 2 6 6], None)
    ∧ sequence r' = [mkRemoved 1 5 5; mkRemoved 9 7 7; mkRemoved 3 4 4].
Proof.
  destruct (Splice_sequence rope3 1 (Some 2) (Some 9) 7 1)
    as (r' & Hs & _ & _ & Hseq).
  - exact rope3_reachable.
  - vm_compute. eauto.
  - split; [vm_compute; reflexivity|vm_compute; discriminate].
  - exists r'. split.
    + rewrite Hs. vm_compute. reflexivity.
    + rewrite Hseq. vm_compute. reflexivity.
Defined.

Lemma index_is_sequence_witness :
  NoDup (rm_Id <$> sequence rope3)
  ∧ Count rope3 = Z.of_nat (List.length (sequence rope3))
  ∧ Len rope3 = int_sum (rm_Len <$> sequence rope3).
Proof.
  destruct (index_is_sequence rope3 rope3_reachable)
    as (Hnd & _ & _ & Hc & _ & Hl).
  auto.
Defined.

Lemma Insert_after_witness :
  ∃ r', Insert rope3 2 9 7 1 = Ret (r', None)
    ∧ sequence r'
        = [mkRemoved 1 5 5; mkRemoved 2 6 6; mkRemoved 9 7 7; mkRemoved 3 4 4]
    ∧ Count r' = 4.
Proof.
  destruct (Insert_after rope3 2 9 7 1)
    as (r' & Hi & Hseq & _ & _ & _ & _ & Hc).
  - exact rope3_reachable.
  - vm_compute. eauto.
  - vm_compute. reflexivity.
  - vm_compute. discriminate.
  - exists r'. split; [exact Hi|]. split.
    + rewrite Hseq. vm_compute. reflexivity.
    + rewrite Hc. vm_compute. reflexivity.
Defined.

Lemma LastId_live_witness :
  is_Some (r_byId rope3 !! LastId rope3)
  ∧ (LastId rope3 = zeroId ∨ LastId rope3 ∈ rm_Id <$> sequence rope3).
Proof. exact (LastId_live rope3 rope3_reachable). Defined.

Lemma Delete_range_witness :
  ∃ r', Delete rope3 1 7 1
      = Ret (r', [mkRemoved 2 6 6; mkRemoved 3 4 4], None)
    ∧ sequence r' = [mkRemoved 1 5 5]
    ∧ LastId r' = 1.
Proof.
  destruct (Delete_range rope3 1 7 1) as (r' & Hd & Hseq & _ & Hend).
  - exact rope3_reachable.
  - vm_compute. eauto.
  - discriminate.
  - destruct Hend as (_ & _ & Hlast).
    { intros Hin. apply list_elem_of_In in Hin. vm_compute in Hin.
      intuition discriminate. }
    exists r'. split; [|split; [|exact Hlast]].
    + rewrite Hd. vm_compute. reflexivity.
    + rewrite Hseq. vm_compute. reflexivity.
Defined.

Lemma Insert_Delete_witness :
  ∃ r1 r2,
    Insert rope3 1 9 7 1 = Ret (r1, None)
    ∧ Delete r1 1 9 1 = Ret (r2, [mkRemoved 9 (data_len 7) 7], None)
    ∧ sequence r2 = sequence rope3
    ∧ Len r2 = Len rope3.
Proof.
  destruct (Insert_Delete rope3 1 9 7 1 1)
    as (r1 & r2 & Hi & Hd & Hseq & _ & Hl & _).
  - exact rope3_reachable.
  - vm_compute. eauto.
  - vm_compute. reflexivity.
  - vm_compute. discriminate.
  - exists r1, r2. auto.
Defined.

Lemma Find_is_running_total_witness : Find rope3 2 = Ret 11.
Proof.
  destruct (Find_is_running_total rope3 2) as [Hf _].
  - exact rope3_reachable.
  - vm_compute. eauto.
  - rewrite Hf. vm_compute. reflexivity.
Defined.

Lemma Between_distance_witness :
  Between rope3 1 3 = Ret (10, true) ∧ Between rope3 3 1 = Ret (-10, true).
Proof.
  destruct (Between_distance rope3 1 3) as (Hab & Hba & _).
  - exact rope3_reachable.
  - vm_compute. discriminate.
  - vm_compute. repeat constructor.
  - split; [rewrite Hab|rewrite Hba]; vm_compute; reflexivity.
Defined.

Lemma Compare_is_order_witness : Compare rope3 1 3 = Ret (-1, true).
Proof.
  destruct (Compare_is_order rope3 1 3) as ([_ Hlt] & _).
  - exact rope3_reachable.
  - vm_compute. eauto.
  - vm_compute. eauto.
  - apply Hlt. vm_compute. repeat constructor.
Defined.

Lemma Less_is_strict_order_witness :
  Less rope3 1 3 = Ret true ∧ Less rope3 3 1 = Ret false.
Proof.
  destruct (Less_is_strict_order rope3 rope3_reachable) as (Hl & _ & Has & _).
  assert (Less rope3 1 3 = Ret true) as H13.
  { rewrite Hl. vm_compute. reflexivity. }
  split; [exact H13|]. by apply Has.
Defined.

Lemma Info_links_witness :
  ∃ i, Info_of rope3 2 = Ret i ∧ in_Id i = 2 ∧ in_Next i = 3
    ∧ Info_of rope3 3 = Ret (mkInfo 3 0 2 (mkDataLen 4 4)).
Proof.
  destruct (Info_links rope3 2) as (i & Hi & Hid & Hnext & _ & _ & Hlink).
  - exact rope3_reachable.
  - vm_compute. eauto.
  - exists i. split; [exact Hi|]. split; [exact Hid|]. split.
    + rewrite Hnext. vm_compute. reflexivity.
    + apply (Hlink (@mkRemoved int_rope 3 4 4) []). vm_compute. reflexivity.
Defined.

Lemma ByPosition_inverts_Find_witness :
  ∃ pos, Find rope3 2 = Ret pos
    ∧ ByPosition rope3 (pos - 2) false = Ret (2, 2).
Proof.
  apply (ByPosition_inverts_Find rope3 2 6 2 false).
  - exact rope3_reachable.
  - vm_compute. discriminate.
  - vm_compute. reflexivity.
  - lia.
Defined.

Lemma ByPosition_total_witness :
  ∃ X off n,
    ByPosition rope3 7 true = Ret (X, off)
    ∧ entry_len rope3 X = Some n ∧ 0 ≤ off ≤ n.
Proof.
  destruct (ByPosition_total rope3 7 true) as (X & off & n & Hb & Hn & Ho & _).
  - exact rope3_reachable.
  - vm_compute. discriminate.
  - exists X, off, n. auto.
Defined.

Lemma pool_bounded_witness :
  (List.length (r_nodePool rope3_less) ≤ poolSize)%nat
  ∧ r_nodePool rope3_less = [2%nat]
  ∧ r_byId rope3_less !! 3 ≠ Some 2%nat.
Proof.
  destruct (pool_bounded rope3_less rope3_less_reachable) as (Hb & _ & Hp).
  split; [exact Hb|]. split; [vm_compute; reflexivity|].
  apply (Hp 2%nat). vm_compute. repeat constructor.
Defined.

Lemma no_cursor_outside_Iter_witness : quiet (r_heap rope3_less).
Proof.
  destruct (@no_cursor_outside_Iter int_rope) as [_ Hk].
  apply (Hk rope3 1 (Some 2) None 0 1 rope3_less
    [@mkRemoved int_rope 2 6 6] None).
  - vm_compute. repeat constructor.
  - vm_compute. reflexivity.
Defined.

Lemma height_matches_head_witness :
  (1 ≤ r_height rope3 ≤ maxHeight)%nat
  ∧ r_byId rope3 !! zeroId = Some headp.
Proof.
  destruct (height_matches_head rope3 rope3_reachable) as (Hh & Hz & _).
  auto.
Defined.

Lemma Iter_yields_successors_witness :
  Iter 10 rope3 1 (passive (λ _ _, true))
    = Ret (rope3, [(2, mkDataLen 6 6); (3, mkDataLen 4 4)]).
Proof.
  rewrite (Iter_yields_successors rope3 1 (λ _ _, true) 10).
  - vm_compute. reflexivity.
  - exact rope3_reachable.
  - vm_compute. repeat constructor.
  - vm_compute. lia.
Defined.

Lemma Iter_deleting_witness :
  ∃ r', Iter 10 rope3 1 (deleting 1 0 (λ _ _, true))
      = Ret (r', [(2, mkDataLen 6 6); (3, mkDataLen 4 4)])
    ∧ quiet (r_heap r')
    ∧ sequence r' = [mkRemoved 1 5 5].
Proof.
  destruct (Iter_deleting rope3 1 0 (λ _ _, true) 10)
    as (r' & Hrun & _ & Hq & _ & Hseq).
  - exact rope3_reachable.
  - vm_compute. repeat constructor.
  - vm_compute. lia.
  - exists r'. split; [|split; [exact Hq|]].
    + rewrite Hrun. vm_compute. reflexivity.
    + rewrite Hseq. vm_compute. reflexivity.
Defined.
